(** * Job tracking, prediction polling and rate limiting of the AI service

    A shallow embedding of the asynchronous core of the creative-design
    platform's AI service:

    - [creative-design-platform/ai-service/src/services/base.py]
      ([RateLimiter], [JobTracker], [BaseAIService._validate_image_size]),
    - [creative-design-platform/ai-service/src/services/image_generation.py]
      ([generate_images], [_poll_prediction], [upscale_image]),
    - [creative-design-platform/ai-service/src/services/text_generation.py]
      ([generate_text], [_generate_single_text], [_calculate_confidence_score],
      [translate_text], [optimize_for_platform]),
    - [creative-design-platform/ai-service/src/main.py]
      (the [check_rate_limit] dependency, the exception handlers and the
      image endpoint),
    - [ai-service/app/utils/cache.py] (the Redis cache and the Redis-backed
      [check_rate_limit]).

    Python dictionaries are finite maps ([gmap]) keyed by strings, Python
    floats are IEEE binary64 numbers ([PrimFloat.float]), exceptions are an
    explicit result type, and the mutable module-level singletons
    ([job_tracker], [rate_limiter]) are threaded as explicit state.  The
    HTTP peers answer arbitrarily: each answer is a transport error, a body
    the code can read, or a body on which the code's reading raises. *)

From Stdlib Require Import ZArith String Ascii List Bool Lia PrimFloat Uint63
  SpecFloat FloatOps Sorted.
From stdpp Require Import base option gmap strings list pretty.

Import ListNotations.
Local Open Scope string_scope.

(* Decimal float literals are rounded to the nearest binary64 value, as
   Python rounds them. *)
Set Warnings "-inexact-float".

(** ** Python numbers *)

(** A Python [int] as an unrounded binary number. *)
Definition SF_of_int (z : Z) : spec_float :=
  match z with
  | Z0 => S754_zero false
  | Zpos p => S754_finite false p 0
  | Zneg p => S754_finite true p 0
  end.

(** True division [a / b] of two Python [int]s: the quotient of the two
    integers, rounded once to binary64.  The code divides by positive
    numbers only. *)
Definition int_truediv (a b : Z) : float :=
  SF2Prim (SFdiv prec emax (SF_of_int a) (SF_of_int b)).

(** [f < z] for a Python [float] and a Python [int]: the comparison is
    exact, the [int] is not rounded to a [float].  A NaN is below
    nothing. *)
Definition float_lt_int (f : float) (z : Z) : bool :=
  match Prim2SF f with
  | S754_nan => false
  | S754_infinity negative => negative
  | S754_zero _ => (0 <? z)%Z
  | S754_finite negative m e =>
      let n := if negative then Z.neg m else Z.pos m in
      if (0 <=? e)%Z then (n * 2 ^ e <? z)%Z
      else (n <? z * 2 ^ (- e))%Z
  end.

(** The builtins [min(a, b)] and [max(a, b)] on two arguments: the first
    argument is kept unless the second is strictly smaller (larger). *)
Definition py_min (a b : float) : float := if PrimFloat.ltb b a then b else a.
Definition py_max (a b : float) : float := if PrimFloat.ltb a b then b else a.

(** ** Python values *)

(** The values a job record can hold: [None], strings, integers, floats and
    (for the [metadata] keyword dictionary) nested dictionaries. *)
#[warnings="-register-all"]
Inductive pyval : Type :=
| VNone
| VStr (s : string)
| VInt (z : Z)
| VFloat (f : float)
| VDict (kv : list (string * pyval)).

(** A job record is a Python [dict] with string keys. *)
Abbreviation job_record := (gmap string pyval).

(** The registry [JobTracker.jobs]: job id to record. *)
Abbreviation registry := (gmap string (gmap string pyval)).

(** ** [JobTracker] (services/base.py) *)

Module JobTracker.

(** [create_job]: the two calls of [datetime.utcnow().isoformat()] are the
    arguments [created] and [updated]. An existing record under the same
    id is overwritten. *)
Definition create_job (jobs : registry) (job_id operation : string)
    (metadata : list (string * pyval)) (created updated : string) : registry :=
  <[job_id :=
      <["job_id" := VStr job_id]>
      (<["operation" := VStr operation]>
      (<["status" := VStr "pending"]>
      (<["progress" := VFloat 0%float]>
      (<["created_at" := VStr created]>
      (<["updated_at" := VStr updated]>
      (<["result_url" := VNone]>
      (<["error_message" := VNone]>
      (<["metadata" := VDict metadata]> ∅))))))))]> jobs.

(** [update_job]: [dict.update] with the keyword arguments (the new
    bindings win), then the [updated_at] stamp; nothing at all when the id
    is not in the registry. *)
Definition update_job (jobs : registry) (job_id : string)
    (updates : gmap string pyval) (now : string) : registry :=
  match jobs !! job_id with
  | Some rec => <[job_id := <["updated_at" := VStr now]> (updates ∪ rec)]> jobs
  | None => jobs
  end.

Definition get_job (jobs : registry) (job_id : string) : option job_record :=
  jobs !! job_id.

(** The keyword dictionaries the three setters pass to [update_job]. *)
Definition processing_kwargs (progress : float) : gmap string pyval :=
  <["status" := VStr "processing"]> (<["progress" := VFloat progress]> ∅).

Definition completed_kwargs (result_url : string) : gmap string pyval :=
  <["status" := VStr "completed"]>
  (<["progress" := VFloat 100%float]>
  (<["result_url" := VStr result_url]> ∅)).

Definition failed_kwargs (error_message : string) : gmap string pyval :=
  <["status" := VStr "failed"]>
  (<["error_message" := VStr error_message]> ∅).

Definition set_job_processing (jobs : registry) (job_id : string)
    (progress : float) (now : string) : registry :=
  update_job jobs job_id (processing_kwargs progress) now.

Definition set_job_completed (jobs : registry) (job_id result_url : string)
    (now : string) : registry :=
  update_job jobs job_id (completed_kwargs result_url) now.

Definition set_job_failed (jobs : registry) (job_id error_message : string)
    (now : string) : registry :=
  update_job jobs job_id (failed_kwargs error_message) now.

(** Reading one field of a job, as [job_tracker.get_job(id)[key]] would. *)
Definition field (jobs : registry) (job_id key : string) : option pyval :=
  rec ← jobs !! job_id; rec !! key.

(** The terminal states of the [JobStatusEnum]. *)
Definition is_terminal (v : pyval) : bool :=
  match v with
  | VStr s => bool_decide (s = "completed") || bool_decide (s = "failed")
              || bool_decide (s = "cancelled")
  | _ => false
  end.

End JobTracker.

(** ** [RateLimiter] (services/base.py) *)

Module RateLimiter.

(** The limiter object: its two settings and the dictionary [requests]
    from identifier to the list of admitted timestamps
    ([datetime.utcnow().timestamp()], floats). *)
Record t : Type := mk {
  max_requests : Z;
  window_seconds : Z;
  requests : gmap string (list float)
}.

(** [RateLimiter.__init__]; the defaults are 60 and 60. *)
Definition init (max_requests window_seconds : Z) : t :=
  mk max_requests window_seconds ∅.

(** The filter of the list comprehension:
    [now - req_time < self.window_seconds]. *)
Definition in_window (window_seconds : Z) (now req_time : float) : bool :=
  float_lt_int (PrimFloat.sub now req_time) window_seconds.

(** The list stored for an identifier once the [if identifier not in
    self.requests] guard has run. *)
Definition recorded (rl : t) (identifier : string) : list float :=
  default [] (requests rl !! identifier).

(** [check_rate_limit], with the clock reading [now] as an argument.
    Returns the answer and the limiter after the call. *)
Definition check_rate_limit (rl : t) (identifier : string) (now : float)
    : bool * t :=
  let kept :=
    List.filter (in_window (window_seconds rl) now) (recorded rl identifier) in
  if (max_requests rl <=? Z.of_nat (length kept))%Z
  then (false,
        mk (max_requests rl) (window_seconds rl)
           (<[identifier := kept]> (requests rl)))
  else (true,
        mk (max_requests rl) (window_seconds rl)
           (<[identifier := (kept ++ [now])%list]> (requests rl))).

(** A sequence of calls for one identifier, one per clock reading. *)
Fixpoint check_all (rl : t) (identifier : string) (nows : list float)
    : list bool * t :=
  match nows with
  | [] => ([], rl)
  | now :: rest =>
      let '(b, rl1) := check_rate_limit rl identifier now in
      let '(bs, rl2) := check_all rl1 identifier rest in
      (b :: bs, rl2)
  end.

(** A burst, as the limiter measures it: every call still finds each
    earlier call of the list inside its window. *)
Fixpoint burst (window_seconds : Z) (nows : list float) : bool :=
  match nows with
  | [] => true
  | earlier :: rest =>
      forallb (fun now => in_window window_seconds now earlier) rest
      && burst window_seconds rest
  end.

(** Every timestamp of [stamps] is outside the window of a call at
    [now]. *)
Definition all_expired (window_seconds : Z) (now : float)
    (stamps : list float) : bool :=
  forallb (fun t => negb (in_window window_seconds now t)) stamps.

End RateLimiter.

(** ** Python strings *)

(** Characters are code points below 256. [str.isspace] on that range: tab
    to carriage return, the four separators 0x1c-0x1f, space, NEL and the
    no-break space. *)
Definition isspace (c : ascii) : bool :=
  let n := nat_of_ascii c in
  ((9 <=? n) && (n <=? 13) || (28 <=? n) && (n <=? 32)
   || (n =? 133) || (n =? 160))%nat.

Fixpoint lstrip (s : string) : string :=
  match s with
  | EmptyString => EmptyString
  | String c rest => if isspace c then lstrip rest else s
  end.

Fixpoint rstrip (s : string) : string :=
  match s with
  | EmptyString => EmptyString
  | String c rest =>
      match rstrip rest with
      | EmptyString => if isspace c then EmptyString else String c EmptyString
      | kept => String c kept
      end
  end.

(** [s.strip()]. *)
Definition strip (s : string) : string := rstrip (lstrip s).

(** [s.split()]: the maximal runs of non-space characters; [cur] is the
    run being read. *)
Fixpoint split_from (cur s : string) : list string :=
  match s with
  | EmptyString => if String.eqb cur "" then [] else [cur]
  | String c rest =>
      if isspace c
      then (if String.eqb cur "" then split_from "" rest
            else cur :: split_from "" rest)
      else split_from (cur ++ String c "") rest
  end.

Definition split (s : string) : list string := split_from "" s.

(** [str(z)] for an [int]. *)
Definition str_int (z : Z) : string := pretty z.

(** ** Exceptions, the outside world and the process state *)

(** The exception classes the modelled code raises or catches.
    [httpx.HTTPError] stands for the class and its subclasses (what
    [raise_for_status] and the transport raise); [ValueError] stands for
    the class and its subclasses, among them the [json.JSONDecodeError] of
    [response.json()]; [KeyError], [IndexError] and [TypeError] are what
    indexing a decoded body raises; [Exception] is a bare
    [Exception(msg)]. All the others are subclasses of [Exception]. *)
Inductive exn : Type :=
| ValueError (msg : string)
| AttributeError (msg : string)
| HTTPError (msg : string)
| Exception (msg : string)
| KeyError (msg : string)
| IndexError (msg : string)
| TypeError (msg : string).

(** [str(e)]. *)
Definition str (e : exn) : string :=
  match e with
  | ValueError msg | AttributeError msg | HTTPError msg | Exception msg
  | KeyError msg | IndexError msg | TypeError msg => msg
  end.

Inductive result (A : Type) : Type :=
| Return (a : A)
| Raise (e : exn).
Arguments Return {A} a.
Arguments Raise {A} e.

(** One reading of [datetime.utcnow()]. *)
Record datetime : Type := {
  timestamp : float;
  isoformat : string
}.

(** The JSON body of [GET /predictions/{id}]: [status], [output] ([None]
    for [null]) and [error] (absent, [null] or a string). *)
Record prediction : Type := {
  status : string;
  output : option (list string);
  error : option (option string)
}.

(** What [await client.get(...)] followed by [raise_for_status()],
    [json()] and the reading of the body comes to:
    - [GetRaises]: the GET or [raise_for_status] raises an
      [httpx.HTTPError];
    - [GetJSON]: the body is an object with a [status] and an [output];
    - [GetUnreadable e]: the body cannot be read that far, [json()] or
      [prediction["status"]] raises [e];
    - [GetSucceededBare]: the body is an object whose [status] is
      [succeeded] and which has no key [output]. *)
Inductive get_outcome : Type :=
| GetRaises (msg : string)
| GetJSON (p : prediction)
| GetUnreadable (e : exn)
| GetSucceededBare.

(** [POST /predictions]: an [httpx.HTTPError]; or the new prediction's
    id; or a body the code cannot read, so that [response.json()] or
    [prediction["id"]] raises [e]. *)
Inductive post_outcome : Type :=
| PostRaises (msg : string)
| PostJSON (id : string)
| PostUnreadable (e : exn).

(** [POST /chat/completions]:
    - [OpenAIRaises]: a transport error;
    - [OpenAIResponse]: a response with its status code whose body the
      code can read: for an error status, an object whose [error] (when it
      has one) is an object, with the text of its [message] (when it has
      one); for status 200, an object with the string
      [choices[0].message.content];
    - [OpenAIUnreadable status_code e]: a response whose body the code
      cannot read as it does, so that [response.json()], [.get], the
      indexing or [.strip()] raises [e]. *)
Inductive openai_outcome : Type :=
| OpenAIRaises (msg : string)
| OpenAIResponse (status_code : Z) (error_message : option string)
    (content : string)
| OpenAIUnreadable (status_code : Z) (e : exn).

(** Everything outside the process: the settings, the clock, the UUID
    source and the three HTTP peers. Each is read by the number of earlier
    readings, so a run of the code sees an arbitrary sequence of answers. *)
Record env : Type := {
  max_image_size : Z;
  utcnow : nat → datetime;
  uuid4 : nat → string;
  replicate_get : nat → get_outcome;
  replicate_post : nat → post_outcome;
  openai_post : nat → openai_outcome
}.

(** The mutable state of the process: the two module-level singletons of
    services/base.py and how often each outside source was read. *)
Record world : Type := {
  jobs : registry;
  limiter : RateLimiter.t;
  clock_reads : nat;
  uuids : nat;
  http_gets : nat;
  http_posts : nat;
  openai_posts : nat
}.

Definition set_jobs (j : registry) (w : world) : world :=
  {| jobs := j; limiter := limiter w; clock_reads := clock_reads w;
     uuids := uuids w; http_gets := http_gets w; http_posts := http_posts w;
     openai_posts := openai_posts w |}.

Definition set_limiter (l : RateLimiter.t) (w : world) : world :=
  {| jobs := jobs w; limiter := l; clock_reads := clock_reads w;
     uuids := uuids w; http_gets := http_gets w; http_posts := http_posts w;
     openai_posts := openai_posts w |}.

Definition set_clock_reads (n : nat) (w : world) : world :=
  {| jobs := jobs w; limiter := limiter w; clock_reads := n;
     uuids := uuids w; http_gets := http_gets w; http_posts := http_posts w;
     openai_posts := openai_posts w |}.

Definition set_uuids (n : nat) (w : world) : world :=
  {| jobs := jobs w; limiter := limiter w; clock_reads := clock_reads w;
     uuids := n; http_gets := http_gets w; http_posts := http_posts w;
     openai_posts := openai_posts w |}.

Definition set_http_gets (n : nat) (w : world) : world :=
  {| jobs := jobs w; limiter := limiter w; clock_reads := clock_reads w;
     uuids := uuids w; http_gets := n; http_posts := http_posts w;
     openai_posts := openai_posts w |}.

Definition set_http_posts (n : nat) (w : world) : world :=
  {| jobs := jobs w; limiter := limiter w; clock_reads := clock_reads w;
     uuids := uuids w; http_gets := http_gets w; http_posts := n;
     openai_posts := openai_posts w |}.

Definition set_openai_posts (n : nat) (w : world) : world :=
  {| jobs := jobs w; limiter := limiter w; clock_reads := clock_reads w;
     uuids := uuids w; http_gets := http_gets w; http_posts := http_posts w;
     openai_posts := n |}.

(** The computations of the service: state passing with exceptions. *)
Definition M (A : Type) : Type := world → result A * world.

Definition ret {A : Type} (a : A) : M A := fun w => (Return a, w).

Definition raise {A : Type} (e : exn) : M A := fun w => (Raise e, w).

Definition bind {A B : Type} (m : M A) (k : A → M B) : M B :=
  fun w =>
    match m w with
    | (Return a, w1) => k a w1
    | (Raise e, w1) => (Raise e, w1)
    end.

Declare Scope py_scope.
Delimit Scope py_scope with py.
Notation "x <- m ;; k" := (bind m (fun x => k))
  (at level 100, m at next level, right associativity) : py_scope.
Notation "m ;;; k" := (bind m (fun _ => k))
  (at level 100, right associativity) : py_scope.

(** ** Request and response schemas (models/schemas.py) *)

Inductive ImageStyleEnum : Type :=
| REALISTIC | DIGITAL_ART | THREE_D_MODEL | ISOMETRIC | PIXEL_ART | ANIME
| VAPORWAVE.

Definition ImageStyleEnum_value (s : ImageStyleEnum) : string :=
  match s with
  | REALISTIC => "realistic"
  | DIGITAL_ART => "digital-art"
  | THREE_D_MODEL => "3d-model"
  | ISOMETRIC => "isometric"
  | PIXEL_ART => "pixel-art"
  | ANIME => "anime"
  | VAPORWAVE => "vaporwave"
  end.

Module ImageGenerationRequest.
Record t : Type := mk {
  prompt : string;
  style : ImageStyleEnum;
  width : Z;
  height : Z;
  batch_size : Z;
  reference_image_url : option string;
  negative_prompt : option string;
  seed : option Z
}.

(** The field constraints pydantic checks when the request is built:
    [ge=256, le=2048] on both dimensions and [ge=1, le=4] on the batch. *)
Definition well_formed (r : t) : bool :=
  ((256 <=? width r) && (width r <=? 2048) && (256 <=? height r)
   && (height r <=? 2048) && (1 <=? batch_size r) && (batch_size r <=? 4))%Z.
End ImageGenerationRequest.

Module GeneratedImage.
Record t : Type := mk {
  url : string;
  width : Z;
  height : Z;
  seed : option Z
}.
End GeneratedImage.

Module ImageGenerationResponse.
Record t : Type := mk {
  images : list GeneratedImage.t;
  prompt : string;
  style : ImageStyleEnum;
  job_id : string
}.
End ImageGenerationResponse.

Inductive TextToneEnum : Type :=
| FRIENDLY | FORMAL | CASUAL | PROFESSIONAL | OPTIMISTIC | CONFIDENT
| ASSERTIVE | EMOTIONAL | SERIOUS | HUMOROUS.

Definition TextToneEnum_value (t : TextToneEnum) : string :=
  match t with
  | FRIENDLY => "friendly"
  | FORMAL => "formal"
  | CASUAL => "casual"
  | PROFESSIONAL => "professional"
  | OPTIMISTIC => "optimistic"
  | CONFIDENT => "confident"
  | ASSERTIVE => "assertive"
  | EMOTIONAL => "emotional"
  | SERIOUS => "serious"
  | HUMOROUS => "humorous"
  end.

Module TextGenerationRequest.
Record t : Type := mk {
  context : string;
  tone : TextToneEnum;
  target_audience : option string;
  max_length : Z;
  variation_count : Z;
  format_type : string
}.

(** The constraints pydantic checks: [ge=10, le=500] on [max_length],
    [ge=1, le=10] on [variation_count] and the five literals of
    [format_type]. *)
Definition well_formed (r : t) : bool :=
  ((10 <=? max_length r) && (max_length r <=? 500)
   && (1 <=? variation_count r) && (variation_count r <=? 10))%Z
  && bool_decide
       (format_type r ∈ ["headline"; "subheading"; "body"; "cta"; "tagline"]).
End TextGenerationRequest.

Module GeneratedText.
Record t : Type := mk {
  text : string;
  confidence_score : float
}.
End GeneratedText.

Module TextGenerationResponse.
Record t : Type := mk {
  variations : list GeneratedText.t;
  context : string;
  tone : TextToneEnum;
  job_id : string
}.
End TextGenerationResponse.

(** How one pass through the body of a [while] loop ends: with a [return]
    or a [raise] that leaves the function, or at the end of the body. *)
Inductive pass (A : Type) : Type :=
| Leave (r : result A)
| Again.
Arguments Leave {A} r.
Arguments Again {A}.

(** The attributes of an [ImageGenerationService] object that
    [generate_images] reads through [self]. [style_prompts] is [None] when
    the object has no such attribute. *)
Record ImageGenerationService : Type := {
  style_prompts : option (ImageStyleEnum → option string)
}.

(** The module-level instance [ImageGenerationService()]: [__init__] sets
    [replicate_client], [models], [style_configs] and
    [generation_techniques], and no [style_prompts]. *)
Definition image_generation_service : ImageGenerationService :=
  {| style_prompts := None |}.

(** ** The services *)

Section Services.

Context (E : env).

Local Open Scope py_scope.

(** *** The singletons seen from the services *)

(** [str(uuid.uuid4())]. *)
Definition generate_job_id : M string :=
  fun w => (Return (uuid4 E (uuids w)), set_uuids (S (uuids w)) w).

(** [datetime.utcnow().isoformat()]. *)
Definition utcnow_isoformat : M string :=
  fun w => (Return (isoformat (utcnow E (clock_reads w))),
            set_clock_reads (S (clock_reads w)) w).

(** [datetime.utcnow().timestamp()]. *)
Definition utcnow_timestamp : M float :=
  fun w => (Return (timestamp (utcnow E (clock_reads w))),
            set_clock_reads (S (clock_reads w)) w).

(** [job_tracker.create_job(...)]. *)
Definition create_job (job_id operation : string)
    (metadata : list (string * pyval)) : M unit :=
  created <- utcnow_isoformat ;;
  updated <- utcnow_isoformat ;;
  fun w =>
    (Return tt,
     set_jobs (JobTracker.create_job (jobs w) job_id operation metadata
                 created updated) w).

(** [job_tracker.update_job(...)]: the clock is read only under the
    [if job_id in self.jobs]. *)
Definition update_job (job_id : string) (updates : gmap string pyval)
    : M unit :=
  fun w =>
    match jobs w !! job_id with
    | Some _ =>
        (now <- utcnow_isoformat ;;
         fun w1 =>
           (Return tt,
            set_jobs (JobTracker.update_job (jobs w1) job_id updates now) w1))
          w
    | None => (Return tt, w)
    end.

Definition set_job_processing (job_id : string) (progress : float) : M unit :=
  update_job job_id (JobTracker.processing_kwargs progress).

Definition set_job_completed (job_id result_url : string) : M unit :=
  update_job job_id (JobTracker.completed_kwargs result_url).

Definition set_job_failed (job_id error_message : string) : M unit :=
  update_job job_id (JobTracker.failed_kwargs error_message).

(** [_log_job_start], [_log_job_complete] and [_log_job_error] write a log
    line stamped with [datetime.utcnow()]; the line itself is not part of
    the state. *)
Definition _log_job : M unit := _ <- utcnow_isoformat ;; ret tt.

(** [rate_limiter.check_rate_limit(identifier)]. *)
Definition limiter_check (identifier : string) : M bool :=
  now <- utcnow_timestamp ;;
  fun w =>
    let '(allowed, rl) :=
      RateLimiter.check_rate_limit (limiter w) identifier now in
    (Return allowed, set_limiter rl w).

(** [BaseAIService._validate_image_size]. *)
Definition _validate_image_size (width height : Z) : M unit :=
  let max_size := max_image_size E in
  if ((max_size <? width) || (max_size <? height))%Z
  then raise (ValueError ("Image dimensions cannot exceed "
                          ++ str_int max_size ++ "x" ++ str_int max_size))
  else if ((width <? 256) || (height <? 256))%Z
  then raise (ValueError "Image dimensions must be at least 256x256")
  else ret tt.

(** *** The prediction poller (services/image_generation.py) *)

Definition max_retries : nat := 60.

(** [min(50.0 + (retry_count / max_retries) * 45.0, 95.0)]. *)
Definition progress_estimate (retry_count : nat) : float :=
  py_min
    (PrimFloat.add 50%float
       (PrimFloat.mul
          (int_truediv (Z.of_nat retry_count) (Z.of_nat max_retries))
          45%float))
    95%float.

(** [prediction["output"] or []]. *)
Definition output_or_empty (p : prediction) : list string :=
  match output p with
  | Some (u :: us) => u :: us
  | Some [] | None => []
  end.

(** [prediction.get("error", "Generation failed")] inside the f-string. *)
Definition error_text (p : prediction) : string :=
  match error p with
  | None => "Generation failed"
  | Some None => "None"
  | Some (Some msg) => msg
  end.

(** The body of the [while] loop of [_poll_prediction]. [asyncio.sleep]
    changes nothing in the state.  The [except] clause catches
    [httpx.HTTPError] only: any other exception of the [try] body leaves
    the method. *)
Definition poll_once (prediction_id job_id : string) (retry_count : nat)
    (w : world) : pass (list string) * world :=
  let w1 := set_http_gets (S (http_gets w)) w in
  match replicate_get E (http_gets w) with
  | GetRaises _ => (Again, w1)
  | GetUnreadable (HTTPError _) => (Again, w1)
  | GetUnreadable e => (Leave (Raise e), w1)
  | GetSucceededBare =>
      let '(_, w2) := set_job_processing job_id 100%float w1 in
      (Leave (Raise (KeyError "'output'")), w2)
  | GetJSON p =>
      if String.eqb (status p) "succeeded" then
        let '(_, w2) := set_job_processing job_id 100%float w1 in
        (Leave (Return (output_or_empty p)), w2)
      else if String.eqb (status p) "failed" then
        (Leave (Raise (Exception ("Generation failed: " ++ error_text p))), w1)
      else if String.eqb (status p) "starting"
              || String.eqb (status p) "processing" then
        let '(_, w2) :=
          set_job_processing job_id (progress_estimate retry_count) w1 in
        (Again, w2)
      else (Again, w1)
  end.

(** The [while retry_count < max_retries] loop, by recursion on the number
    [max_retries - retry_count] of attempts left. *)
Fixpoint poll_loop (attempts_left : nat) (prediction_id job_id : string)
    (retry_count : nat) (w : world) : result (list string) * world :=
  match attempts_left with
  | O =>
      (Raise (Exception
                "Generation timeout - prediction took too long to complete"),
       w)
  | S fewer =>
      match poll_once prediction_id job_id retry_count w with
      | (Leave r, w1) => (r, w1)
      | (Again, w1) => poll_loop fewer prediction_id job_id (S retry_count) w1
      end
  end.

Definition _poll_prediction (prediction_id job_id : string)
    : M (list string) :=
  poll_loop max_retries prediction_id job_id 0.

(** *** Image generation (services/image_generation.py) *)

(** [try: body except Exception as e: handler(e)]. *)
Definition try_except {A : Type} (body : M A) (handler : exn → M A) : M A :=
  fun w =>
    match body w with
    | (Return a, w1) => (Return a, w1)
    | (Raise e, w1) => handler e w1
    end.

Definition _build_enhanced_prompt (self : ImageGenerationService)
    (prompt : string) (style : ImageStyleEnum) : M string :=
  match style_prompts self with
  | None =>
      raise (AttributeError
        "'ImageGenerationService' object has no attribute 'style_prompts'")
  | Some table =>
      let style_modifier := default "" (table style) in
      let enhanced_prompt := prompt ++ ", " ++ style_modifier in
      let quality_modifiers :=
        "high quality, professional, detailed, sharp focus" in
      ret (strip (enhanced_prompt ++ ", " ++ quality_modifiers))
  end.

Definition _get_negative_prompt (custom_negative : option string) : string :=
  let base_negative :=
    "low quality, blurry, pixelated, distorted, watermark, text, "
    ++ "signature, username, artist name, copyright, logo, "
    ++ "bad anatomy, deformed, ugly, gross, disgusting" in
  match custom_negative with
  | Some custom =>
      if String.eqb custom "" then base_negative
      else base_negative ++ ", " ++ custom
  | None => base_negative
  end.

(** [self.replicate_client.post("/predictions", ...)], [raise_for_status]
    and [prediction["id"]]. The request body only travels to the peer. *)
Definition post_prediction : M string :=
  fun w =>
    let w1 := set_http_posts (S (http_posts w)) w in
    match replicate_post E (http_posts w) with
    | PostRaises msg => (Raise (HTTPError msg), w1)
    | PostJSON id => (Return id, w1)
    | PostUnreadable e => (Raise e, w1)
    end.

(** [request.seed + i if request.seed else None]. *)
Definition image_seed (seed : option Z) (i : nat) : option Z :=
  match seed with
  | Some z => if (z =? 0)%Z then None else Some (z + Z.of_nat i)%Z
  | None => None
  end.

(** The body of the [try] of [generate_images]. *)
Definition generate_images_try (self : ImageGenerationService)
    (request : ImageGenerationRequest.t) (job_id : string)
    : M ImageGenerationResponse.t :=
  let width := ImageGenerationRequest.width request in
  let height := ImageGenerationRequest.height request in
  create_job job_id "image_generation"
    [("prompt", VStr (ImageGenerationRequest.prompt request));
     ("style",
      VStr (ImageStyleEnum_value (ImageGenerationRequest.style request)));
     ("dimensions", VStr (str_int width ++ "x" ++ str_int height));
     ("batch_size", VInt (ImageGenerationRequest.batch_size request))] ;;;
  _log_job ;;;
  _validate_image_size width height ;;;
  set_job_processing job_id 10%float ;;;
  enhanced_prompt <-
    _build_enhanced_prompt self (ImageGenerationRequest.prompt request)
      (ImageGenerationRequest.style request) ;;
  let negative_prompt :=
    _get_negative_prompt (ImageGenerationRequest.negative_prompt request) in
  set_job_processing job_id 25%float ;;;
  prediction_id <- post_prediction ;;
  set_job_processing job_id 50%float ;;;
  result_urls <- _poll_prediction prediction_id job_id ;;
  let generated_images :=
    imap (fun i url =>
            GeneratedImage.mk url width height
              (image_seed (ImageGenerationRequest.seed request) i))
         result_urls in
  let response_data :=
    ImageGenerationResponse.mk generated_images
      (ImageGenerationRequest.prompt request)
      (ImageGenerationRequest.style request) job_id in
  set_job_completed job_id (hd "" result_urls) ;;;
  _log_job ;;;
  ret response_data.

(** [generate_images]: on any exception the job is marked failed, the
    error is logged and the exception is raised again. *)
Definition generate_images (self : ImageGenerationService)
    (request : ImageGenerationRequest.t) : M ImageGenerationResponse.t :=
  job_id <- generate_job_id ;;
  try_except (generate_images_try self request job_id)
    (fun e => set_job_failed job_id (str e) ;;; _log_job ;;; raise e).

(** *** Text generation (services/text_generation.py) *)

(** [_generate_single_text]: the two prompts and the sampling settings
    only travel to the peer; what comes back is the peer's answer. A
    status other than 200 raises, otherwise the content of the first
    choice is returned stripped; nothing guards the reading of the body,
    so what it raises leaves the method. *)
Definition _generate_single_text (variation_index : nat) : M string :=
  fun w =>
    let w1 := set_openai_posts (S (openai_posts w)) w in
    match openai_post E (openai_posts w) with
    | OpenAIRaises msg => (Raise (HTTPError msg), w1)
    | OpenAIResponse status_code error_message content =>
        if (status_code =? 200)%Z
        then (Return (strip content), w1)
        else (Raise (Exception ("OpenAI API error: "
                                ++ default "API error" error_message)), w1)
    | OpenAIUnreadable _ e => (Raise e, w1)
    end.

Definition _calculate_confidence_score (text : string)
    (request : TextGenerationRequest.t) : float :=
  let score := 0.8%float in
  let score :=
    if (Z.of_nat (String.length text)
        <=? TextGenerationRequest.max_length request)%Z
    then PrimFloat.add score 0.1%float
    else PrimFloat.sub score 0.2%float in
  let format_type := TextGenerationRequest.format_type request in
  let words := length (split text) in
  let score :=
    if String.eqb format_type "headline" && (words <=? 10)%nat
    then PrimFloat.add score 0.05%float
    else if String.eqb format_type "cta" && (words <=? 5)%nat
    then PrimFloat.add score 0.05%float
    else if String.eqb format_type "tagline" && (words <=? 8)%nat
    then PrimFloat.add score 0.05%float
    else score in
  py_max 0%float (py_min 1%float score).

(** [variations.sort(key=lambda x: x.confidence_score, reverse=True)]: a
    stable sort, highest score first; equal scores keep their order. *)
Fixpoint insert_by_confidence (x : GeneratedText.t)
    (sorted : list GeneratedText.t) : list GeneratedText.t :=
  match sorted with
  | [] => [x]
  | y :: rest =>
      if PrimFloat.ltb (GeneratedText.confidence_score x)
           (GeneratedText.confidence_score y)
      then y :: insert_by_confidence x rest
      else x :: sorted
  end.

Definition sort_by_confidence (l : list GeneratedText.t)
    : list GeneratedText.t :=
  foldr insert_by_confidence [] l.

(** The [for i in range(request.variation_count)] loop over the indices
    still to do, appending to [variations]. *)
Fixpoint variation_loop (request : TextGenerationRequest.t) (job_id : string)
    (indices : list nat) (variations : list GeneratedText.t)
    : M (list GeneratedText.t) :=
  match indices with
  | [] => ret variations
  | i :: rest =>
      variation_text <- _generate_single_text i ;;
      let confidence := _calculate_confidence_score variation_text request in
      let variations :=
        (variations ++ [GeneratedText.mk variation_text confidence])%list in
      let progress :=
        PrimFloat.add 25%float
          (PrimFloat.mul
             (int_truediv (Z.of_nat i + 1)
                (TextGenerationRequest.variation_count request))
             65%float) in
      set_job_processing job_id progress ;;;
      variation_loop request job_id rest variations
  end.

(** The body of the [try] of [generate_text]. *)
Definition generate_text_try (request : TextGenerationRequest.t)
    (job_id : string) : M TextGenerationResponse.t :=
  create_job job_id "text_generation"
    [("context", VStr (TextGenerationRequest.context request));
     ("tone", VStr (TextToneEnum_value (TextGenerationRequest.tone request)));
     ("format_type", VStr (TextGenerationRequest.format_type request));
     ("variation_count",
      VInt (TextGenerationRequest.variation_count request))] ;;;
  _log_job ;;;
  set_job_processing job_id 10%float ;;;
  set_job_processing job_id 25%float ;;;
  variations <-
    variation_loop request job_id
      (seq 0 (Z.to_nat (TextGenerationRequest.variation_count request))) [] ;;
  let variations := sort_by_confidence variations in
  let response_data :=
    TextGenerationResponse.mk variations
      (TextGenerationRequest.context request)
      (TextGenerationRequest.tone request) job_id in
  set_job_completed job_id
    (match variations with v :: _ => GeneratedText.text v | [] => "" end) ;;;
  _log_job ;;;
  ret response_data.

Definition generate_text (request : TextGenerationRequest.t)
    : M TextGenerationResponse.t :=
  job_id <- generate_job_id ;;
  try_except (generate_text_try request job_id)
    (fun e => set_job_failed job_id (str e) ;;; _log_job ;;; raise e).

End Services.

(** ** The HTTP layer (main.py) *)

(** How a dependency or a path operation function ends: it returns, it
    raises an [HTTPException], or another exception leaves it. *)
Inductive http_result (A : Type) : Type :=
| Response (a : A)
| HTTPException (status_code : Z) (detail : string)
| Unhandled (e : exn).
Arguments Response {A} a.
Arguments HTTPException {A} status_code detail.
Arguments Unhandled {A} e.

(** What the application sends back: the response model with status 200;
    the status and [detail] of an [HTTPException]; FastAPI's 422 for a
    request whose parameters or body do not validate; or the
    [JSONResponse] of one of the two exception handlers of main.py, with
    the [error] and [error_code] of its [ErrorResponse]. *)
Inductive http_answer (A : Type) : Type :=
| OK (a : A)
| Detail (status_code : Z) (detail : string)
| RequestValidationError
| JSONResponse (status_code : Z) (error error_code : string).
Arguments OK {A} a.
Arguments Detail {A} status_code detail.
Arguments RequestValidationError {A}.
Arguments JSONResponse {A} status_code error error_code.

(** The value the parameter [request] of [check_rate_limit] is bound to: a
    [str] read from the query string, or a Starlette [Request] with its
    [client] ([None] when the transport gives no peer address, else the
    peer's [host]). *)
Inductive dependency_argument : Type :=
| QueryValue (s : string)
| RequestObject (client : option string).

Module Main.
Section Routes.

Context (E : env).

(** The dependency [check_rate_limit(request)]: [request.client.host],
    then the limiter. *)
Definition check_rate_limit (request : dependency_argument) (w : world)
    : http_result unit * world :=
  match request with
  | QueryValue _ =>
      (Unhandled (AttributeError "'str' object has no attribute 'client'"), w)
  | RequestObject None =>
      (Unhandled
         (AttributeError "'NoneType' object has no attribute 'host'"), w)
  | RequestObject (Some client_ip) =>
      match limiter_check E client_ip w with
      | (Return true, w1) => (Response tt, w1)
      | (Return false, w1) =>
          (HTTPException 429 "Rate limit exceeded. Please try again later.",
           w1)
      | (Raise e, w1) => (Unhandled e, w1)
      end
  end.

(** The two handlers registered with [@app.exception_handler]: the one for
    [ValueError] and the one for every other [Exception]. *)
Definition value_error_handler {A : Type} (exc : exn) : http_answer A :=
  JSONResponse 400 (str exc) "VALIDATION_ERROR".

Definition general_exception_handler {A : Type} (exc : exn) : http_answer A :=
  JSONResponse 500 "Internal server error" "INTERNAL_ERROR".

(** What the application answers when a dependency or a path operation
    function ends. *)
Definition answer {A : Type} (r : http_result A) : http_answer A :=
  match r with
  | Response a => OK a
  | HTTPException status_code detail => Detail status_code detail
  | Unhandled (ValueError msg) => value_error_handler (ValueError msg)
  | Unhandled e => general_exception_handler e
  end.

(** The path operation function [generate_images(request, _)]: it turns a
    [ValueError] of the service into 400 and any other exception into
    500. *)
Definition generate_images (self : ImageGenerationService)
    (request : ImageGenerationRequest.t) (w : world)
    : http_result ImageGenerationResponse.t * world :=
  match generate_images E self request w with
  | (Return response, w1) => (Response response, w1)
  | (Raise (ValueError msg), w1) => (HTTPException 400 msg, w1)
  | (Raise _, w1) => (HTTPException 500 "Image generation failed", w1)
  end.

(** [POST /api/v1/generate/images] as the application serves it.  The
    parameter of [check_rate_limit] has no annotation and main.py does not
    import [Request], so FastAPI declares [request] as a required query
    parameter: [query_request] is its value in the query string, if any.
    Without it the request is answered 422; with it the dependency is
    called on that [str] before the body is looked at.  [body] is the
    request body when it validates as an [ImageGenerationRequest]. *)
Definition post_generate_images (self : ImageGenerationService)
    (query_request : option string) (body : option ImageGenerationRequest.t)
    (w : world) : http_answer ImageGenerationResponse.t * world :=
  match query_request with
  | None => (RequestValidationError, w)
  | Some s =>
      match check_rate_limit (QueryValue s) w with
      | (Response _, w1) =>
          match body with
          | Some request =>
              let '(r, w2) := generate_images self request w1 in
              (answer r, w2)
          | None => (RequestValidationError, w1)
          end
      | (HTTPException status_code detail, w1) =>
          (Detail status_code detail, w1)
      | (Unhandled e, w1) => (answer (Unhandled e), w1)
      end
  end.

End Routes.
End Main.

(** ** The Redis-backed limiter (ai-service/app/utils/cache.py) *)

Module Cache.

(** [int(s)] for a string: surrounding whitespace, one optional sign, then
    decimal digits, with single underscores allowed between digits.
    [None] stands for the [ValueError]. *)
Definition digit_of (c : ascii) : option Z :=
  let n := nat_of_ascii c in
  if ((48 <=? n) && (n <=? 57))%nat then Some (Z.of_nat n - 48)%Z else None.

(** [acc] is the value read so far; [after_digit] tells whether the last
    character was a digit (so that an underscore may follow). *)
Fixpoint digits_from (acc : Z) (after_digit : bool) (s : string) : option Z :=
  match s with
  | EmptyString => if after_digit then Some acc else None
  | String c rest =>
      match digit_of c with
      | Some d => digits_from (10 * acc + d)%Z true rest
      | None =>
          if Ascii.eqb c "_" && after_digit
          then digits_from acc false rest
          else None
      end
  end.

(** The whitespace [int()] skips around the number: tab to carriage
    return, space, NEL and the no-break space, but not the separators
    0x1c-0x1f that [str.strip] removes. *)
Definition int_isspace (c : ascii) : bool :=
  let n := nat_of_ascii c in
  ((9 <=? n) && (n <=? 13) || (n =? 32) || (n =? 133) || (n =? 160))%nat.

Fixpoint int_lstrip (s : string) : string :=
  match s with
  | EmptyString => EmptyString
  | String c rest => if int_isspace c then int_lstrip rest else s
  end.

Fixpoint int_rstrip (s : string) : string :=
  match s with
  | EmptyString => EmptyString
  | String c rest =>
      match int_rstrip rest with
      | EmptyString =>
          if int_isspace c then EmptyString else String c EmptyString
      | kept => String c kept
      end
  end.

Definition int_of_str (s : string) : option Z :=
  match int_rstrip (int_lstrip s) with
  | String "-" rest => Z.opp <$> digits_from 0 false rest
  | String "+" rest => digits_from 0 false rest
  | body => digits_from 0 false body
  end.

(** What [await redis_client.get(key)] does: raises, or returns the
    stored string ([None] when the key is absent). *)
Inductive get_result : Type :=
| GetError (msg : string)
| GetValue (v : option string).

(** The connected client, by what its [get] answers. *)
Record Redis : Type := {
  get : string → get_result
}.

(** The module's global names that [check_rate_limit] reads:
    [redis_client] ([None] until [init_redis] succeeds) and [datetime].
    [today] is [datetime.now().strftime('%Y%m%d')] when the name
    [datetime] is bound and [None] when looking it up raises
    [NameError]. *)
Record globals : Type := {
  redis_client : option Redis;
  today : option string
}.

(** The module as written imports only [timedelta] from [datetime], so the
    name [datetime] is not bound. *)
Definition module_globals (client : option Redis) : globals :=
  {| redis_client := client; today := None |}.

(** [check_rate_limit(user_id, feature, limit)]. Every exception inside
    the [try] is caught by [except Exception], logged, and answered with
    [True]. *)
Definition check_rate_limit (g : globals) (user_id feature : string)
    (limit : Z) : bool :=
  match redis_client g with
  | None => true
  | Some client =>
      match today g with
      | None => true
      | Some day =>
          let key := "usage:" ++ user_id ++ ":" ++ feature ++ ":" ++ day in
          match get client key with
          | GetError _ => true
          | GetValue current =>
              let parsed :=
                match current with
                | None => Some 0%Z
                | Some s => if String.eqb s "" then Some 0%Z else int_of_str s
                end in
              match parsed with
              | None => true
              | Some n => (n <? limit)%Z
              end
          end
      end
  end.

End Cache.

(** ** Histories of the job tracker *)

(** One call of the tracker's interface, with the clock readings it
    makes. *)
Inductive tracker_call : Type :=
| CreateJob (job_id operation : string) (metadata : list (string * pyval))
    (created updated : string)
| SetJobProcessing (job_id : string) (progress : float) (now : string)
| SetJobCompleted (job_id result_url now : string)
| SetJobFailed (job_id error_message now : string).

Definition apply_call (jobs : registry) (c : tracker_call) : registry :=
  match c with
  | CreateJob job_id operation metadata created updated =>
      JobTracker.create_job jobs job_id operation metadata created updated
  | SetJobProcessing job_id progress now =>
      JobTracker.set_job_processing jobs job_id progress now
  | SetJobCompleted job_id result_url now =>
      JobTracker.set_job_completed jobs job_id result_url now
  | SetJobFailed job_id error_message now =>
      JobTracker.set_job_failed jobs job_id error_message now
  end.

(** The registry of a fresh [JobTracker()] after a sequence of calls. *)
Definition run_calls (calls : list tracker_call) : registry :=
  foldl apply_call ∅ calls.

(** The id a call creates, if it is a [create_job]. *)
Definition created_id (c : tracker_call) : option string :=
  match c with
  | CreateJob job_id _ _ _ _ => Some job_id
  | _ => None
  end.

(** The job id a call names. *)
Definition call_id (c : tracker_call) : string :=
  match c with
  | CreateJob job_id _ _ _ _ | SetJobProcessing job_id _ _
  | SetJobCompleted job_id _ _ | SetJobFailed job_id _ _ => job_id
  end.

(** The nine keys of a job record. *)
Definition record_keys : list string :=
  ["job_id"; "operation"; "status"; "progress"; "created_at"; "updated_at";
   "result_url"; "error_message"; "metadata"].

(** What every record of the tracker satisfies (see
    [tracker_records_well_formed]). *)
Definition record_ok (job_id : string) (rec : gmap string pyval) : Prop :=
  rec !! "job_id" = Some (VStr job_id)
  ∧ (∀ key, key ∈ record_keys → is_Some (rec !! key))
  ∧ (∃ s, rec !! "status" = Some (VStr s)
          ∧ s ∈ ["pending"; "processing"; "completed"; "failed"])
  ∧ (rec !! "status" = Some (VStr "pending") →
     rec !! "progress" = Some (VFloat 0%float)
     ∧ rec !! "result_url" = Some VNone
     ∧ rec !! "error_message" = Some VNone)
  ∧ (rec !! "status" = Some (VStr "completed") →
     rec !! "progress" = Some (VFloat 100%float)
     ∧ ∃ url, rec !! "result_url" = Some (VStr url))
  ∧ (rec !! "status" = Some (VStr "failed") →
     ∃ msg, rec !! "error_message" = Some (VStr msg)).

(** ** How far an operation reaches *)

(** Between [w] and [w'] nothing changed but the clock and the record of
    one job: the limiter, the counters of the other outside sources, the set
    of job ids and every other record are as before. *)
Definition only_job_changed (job_id : string) (w w' : world) : Prop :=
  limiter w' = limiter w
  ∧ uuids w' = uuids w
  ∧ http_posts w' = http_posts w
  ∧ openai_posts w' = openai_posts w
  ∧ dom (jobs w') = dom (jobs w)
  ∧ ∀ other, other ≠ job_id → jobs w' !! other = jobs w !! other.

(** Every status read in [w'] is [processing] or was already read in
    [w]. *)
Definition status_kept_or_processing (w w' : world) : Prop :=
  ∀ other v,
    JobTracker.field (jobs w') other "status" = Some v →
    v = VStr "processing" ∨ JobTracker.field (jobs w) other "status" = Some v.

(** ** Specifications of computations *)

(** From a state satisfying [P], the computation [m] ends with a result and
    a state satisfying [Q]. *)
Definition hoare {A : Type} (P : world → Prop) (m : M A)
    (Q : result A → world → Prop) : Prop :=
  ∀ w, P w → Q (fst (m w)) (snd (m w)).

(** The job [job_id] has a record. *)
Definition tracked (job_id : string) (w : world) : Prop :=
  is_Some (jobs w !! job_id).

(** Between [w] and [w'] no outside peer was contacted and the limiter was
    not consulted. *)
Definition same_traffic (w w' : world) : Prop :=
  http_gets w' = http_gets w
  ∧ http_posts w' = http_posts w
  ∧ openai_posts w' = openai_posts w
  ∧ limiter w' = limiter w.

(** What [generate_images] leaves in the tracker for the job [job_id], by
    its outcome: a response goes with a [completed] record whose result URL
    is the first URL of the prediction (the empty string when there is
    none), an exception with a [failed] record carrying its message. *)
Definition image_outcome_recorded (request : ImageGenerationRequest.t)
    (job_id : string) (r : result ImageGenerationResponse.t) (w : world)
    : Prop :=
  match r with
  | Return response =>
      JobTracker.field (jobs w) job_id "status" = Some (VStr "completed")
      ∧ JobTracker.field (jobs w) job_id "progress" = Some (VFloat 100%float)
      ∧ ∃ result_urls,
          JobTracker.field (jobs w) job_id "result_url"
          = Some (VStr (hd "" result_urls))
          ∧ response
            = ImageGenerationResponse.mk
                (imap (fun i url =>
                         GeneratedImage.mk url
                           (ImageGenerationRequest.width request)
                           (ImageGenerationRequest.height request)
                           (image_seed (ImageGenerationRequest.seed request)
                              i))
                      result_urls)
                (ImageGenerationRequest.prompt request)
                (ImageGenerationRequest.style request) job_id
  | Raise e =>
      JobTracker.field (jobs w) job_id "status" = Some (VStr "failed")
      ∧ JobTracker.field (jobs w) job_id "error_message"
        = Some (VStr (str e))
  end.

(** ** The service object as written *)

(** The [AttributeError] of reading [self.style_prompts] on an object
    without that attribute. *)
Definition missing_style_prompts : exn :=
  AttributeError
    "'ImageGenerationService' object has no attribute 'style_prompts'".

(** What [generate_text] leaves behind for the job [job_id], by its
    outcome, from a state with [posts] earlier POSTs to the completions
    endpoint. *)
Definition text_outcome_recorded (E : env) (request : TextGenerationRequest.t)
    (job_id : string) (posts : nat) (r : result TextGenerationResponse.t)
    (w : world) : Prop :=
  match r with
  | Return response =>
      let variations := TextGenerationResponse.variations response in
      TextGenerationResponse.job_id response = job_id
      ∧ length variations
        = Z.to_nat (TextGenerationRequest.variation_count request)
      ∧ openai_posts w
        = (posts
           + Z.to_nat (TextGenerationRequest.variation_count request))%nat
      ∧ JobTracker.field (jobs w) job_id "status" = Some (VStr "completed")
      ∧ JobTracker.field (jobs w) job_id "progress" = Some (VFloat 100%float)
      ∧ JobTracker.field (jobs w) job_id "result_url"
        = Some (VStr (match variations with
                      | v :: _ => GeneratedText.text v
                      | [] => ""
                      end))
  | Raise e =>
      JobTracker.field (jobs w) job_id "status" = Some (VStr "failed")
      ∧ JobTracker.field (jobs w) job_id "error_message"
        = Some (VStr (str e))
  end.

(** The job is tracked and [posts] POSTs went to the completions
    endpoint. *)
Definition tracked_at (job_id : string) (posts : nat) (w : world) : Prop :=
  tracked job_id w ∧ openai_posts w = posts.

(** The exception [_generate_single_text] raises on an answer of the
    completions endpoint, when it raises. *)
Definition provider_error (answer : openai_outcome) : option exn :=
  match answer with
  | OpenAIRaises msg => Some (HTTPError msg)
  | OpenAIResponse status_code error_message _ =>
      if (status_code =? 200)%Z then None
      else Some (Exception ("OpenAI API error: "
                            ++ default "API error" error_message))
  | OpenAIUnreadable _ e => Some e
  end.

(** ** Fitting a text to a platform (text_generation.py) *)

(** [str.lower] on code points below 256: the letters A-Z and the capital
    letters of Latin-1 (0xC0-0xDE without the multiplication sign) move up
    by 32. *)
Definition lower_char (c : ascii) : ascii :=
  let n := nat_of_ascii c in
  if ((65 <=? n) && (n <=? 90) || (192 <=? n) && (n <=? 214)
      || (216 <=? n) && (n <=? 222))%nat
  then ascii_of_nat (n + 32)
  else c.

Fixpoint lower (s : string) : string :=
  match s with
  | EmptyString => EmptyString
  | String c rest => String (lower_char c) (lower rest)
  end.

(** One entry of [platform_specs]: the limits of a platform by format. *)
Definition format_limits (headline body cta : Z) (format_type : string)
    : option Z :=
  if String.eqb format_type "headline" then Some headline
  else if String.eqb format_type "body" then Some body
  else if String.eqb format_type "cta" then Some cta
  else None.

(** The dict [platform_specs] of [optimize_for_platform]. *)
Definition platform_specs (platform : string)
    : option (string → option Z) :=
  if String.eqb platform "facebook" then Some (format_limits 40 125 20)
  else if String.eqb platform "google" then Some (format_limits 30 90 15)
  else if String.eqb platform "instagram" then Some (format_limits 35 150 20)
  else if String.eqb platform "linkedin" then Some (format_limits 50 200 25)
  else None.

(** [TextGenerationService.optimize_for_platform].  The request it builds
    goes through the schema's validation, whose [ValidationError] is a
    [ValueError]. *)
Definition optimize_for_platform (E : env) (text platform format_type : string)
    : M string :=
  let specs := default (fun _ => None) (platform_specs (lower platform)) in
  let max_length :=
    default (Z.of_nat (String.length text)) (specs format_type) in
  if (Z.of_nat (String.length text) <=? max_length)%Z then ret text
  else
    let request :=
      TextGenerationRequest.mk
        ("Optimize this " ++ format_type ++ " for " ++ platform ++ ": "
         ++ text)
        PROFESSIONAL None max_length 1 format_type in
    if negb (TextGenerationRequest.well_formed request)
    then raise (ValueError "validation error for TextGenerationRequest")
    else
      (response <- generate_text E request ;;
       ret (match TextGenerationResponse.variations response with
            | v :: _ => GeneratedText.text v
            | [] => text
            end))%py.

(** The limit [optimize_for_platform] reads for a platform and a format,
    when its table has one. *)
Definition platform_limit (platform format_type : string) : option Z :=
  match platform_specs (lower platform) with
  | Some specs => specs format_type
  | None => None
  end.

(** ** Translation (text_generation.py, models/schemas.py) *)

Module TranslationRequest.
Record t : Type := mk {
  text : string;
  source_language : string;
  target_language : string;
  preserve_formatting : bool
}.
End TranslationRequest.

Module TranslationResponse.
Record t : Type := mk {
  translated_text : string;
  source_language : string;
  target_language : string;
  confidence_score : float;
  job_id : string
}.
End TranslationResponse.

(** One entry of the list [translations] of DeepL's answer: its [text]
    and its [detected_source_language], each when the key is there. *)
Record translation : Type := {
  translation_text : option string;
  detected_source_language : option string
}.

(** What [self.deepl_client.post("/translate", ...)] comes to:
    - [DeepLRaises]: the call raises an [httpx.HTTPError];
    - [DeepLResponse]: a response with its status code whose body the code
      can read: for an error status an object, with its [message] when it
      has one; for status 200 an object with the list [translations];
    - [DeepLUnreadable status_code e]: a response whose body the code
      cannot read that far, so that [response.json()], [.get] or
      [response_data["translations"]] raises [e]. *)
Inductive deepl_outcome : Type :=
| DeepLRaises (msg : string)
| DeepLResponse (status_code : Z) (message : option string)
    (translations : list translation)
| DeepLUnreadable (status_code : Z) (e : exn).

(** The POST of [translate_text] and the two checks on its response.  The
    request body only travels to the peer. *)
Definition deepl_post (answer : deepl_outcome) : M (list translation) :=
  match answer with
  | DeepLRaises msg => raise (HTTPError msg)
  | DeepLResponse status_code message translations =>
      if negb (status_code =? 200)%Z
      then raise (Exception ("DeepL API error: "
                             ++ default "Translation failed" message))
      else ret translations
  | DeepLUnreadable _ e => raise e
  end.

(** The body of the [try] of [translate_text]; [deepl_client] is [None]
    when no client was set up, and otherwise stands for the answer its
    POST gets. *)
Definition translate_text_try (E : env) (deepl_client : option deepl_outcome)
    (request : TranslationRequest.t) (job_id : string)
    : M TranslationResponse.t :=
  match deepl_client with
  | None => raise (ValueError "DeepL API not configured")
  | Some answer =>
      (create_job E job_id "translation"
         [("source_language",
           VStr (TranslationRequest.source_language request));
          ("target_language",
           VStr (TranslationRequest.target_language request));
          ("text_length",
           VInt (Z.of_nat (String.length (TranslationRequest.text request))))]
         ;;;
       _log_job E ;;;
       set_job_processing E job_id 25%float ;;;
       set_job_processing E job_id 50%float ;;;
       translations <- deepl_post answer ;;
       match translations with
       | [] => raise (Exception "No translation returned")
       | translation :: _ =>
           set_job_processing E job_id 90%float ;;;
           match translation_text translation with
           | None => raise (KeyError "'text'")
           | Some text =>
               let response_data :=
                 TranslationResponse.mk text
                   (default (TranslationRequest.source_language request)
                      (detected_source_language translation))
                   (TranslationRequest.target_language request)
                   0.95%float job_id in
               set_job_completed E job_id text ;;;
               _log_job E ;;;
               ret response_data
           end
       end)%py
  end.

(** [TextGenerationService.translate_text]. *)
Definition translate_text (E : env) (deepl_client : option deepl_outcome)
    (request : TranslationRequest.t) : M TranslationResponse.t :=
  (job_id <- generate_job_id E ;;
   try_except (translate_text_try E deepl_client request job_id)
     (fun e => set_job_failed E job_id (str e) ;;; _log_job E ;;; raise e))%py.

(** What [translate_text] leaves behind for the job [job_id] when its
    client's POST is answered by [answer]. *)
Definition translation_recorded (request : TranslationRequest.t)
    (answer : deepl_outcome) (job_id : string)
    (r : result TranslationResponse.t) (w : world) : Prop :=
  match r with
  | Return response =>
      (∃ message first rest text,
         answer = DeepLResponse 200 message (first :: rest)
         ∧ translation_text first = Some text
         ∧ response
           = TranslationResponse.mk text
               (default (TranslationRequest.source_language request)
                  (detected_source_language first))
               (TranslationRequest.target_language request)
               0.95%float job_id)
      ∧ JobTracker.field (jobs w) job_id "status" = Some (VStr "completed")
      ∧ JobTracker.field (jobs w) job_id "progress" = Some (VFloat 100%float)
      ∧ JobTracker.field (jobs w) job_id "result_url"
        = Some (VStr (TranslationResponse.translated_text response))
  | Raise e =>
      JobTracker.field (jobs w) job_id "status" = Some (VStr "failed")
      ∧ JobTracker.field (jobs w) job_id "error_message"
        = Some (VStr (str e))
  end.

(** ** Upscaling (image_generation.py) *)






(** ** The Redis cache (ai-service/app/utils/cache.py) *)

Module RedisCache.

(** The Redis server as the module's client sees it: it answers or not,
    and it holds strings under keys.  Entries are read before they
    expire. *)
Record server : Type := {
  reachable : bool;
  store : gmap string string
}.

(** The commands the module sends; [None] stands for the exception a
    command raises. *)
Definition redis_get (s : server) (key : string) : option (option string) :=
  if reachable s then Some (store s !! key) else None.

(** [SETEX] refuses an expiry that is not positive. *)
Definition redis_setex (s : server) (key : string) (ttl : Z) (value : string)
    : option server :=
  if reachable s && (0 <? ttl)%Z
  then Some {| reachable := true; store := <[key := value]> (store s) |}
  else None.

(** [DEL key ...]: the keys are removed one after the other; the reply
    counts those that were there. *)
Definition delete_one (acc : Z * gmap string string) (key : string)
    : Z * gmap string string :=
  match snd acc !! key with
  | Some _ => (fst acc + 1, delete key (snd acc))%Z
  | None => acc
  end.

Definition redis_delete (s : server) (keys : list string)
    : option (Z * server) :=
  if reachable s
  then let '(n, kept) := foldl delete_one (0%Z, store s) keys in
       Some (n, {| reachable := true; store := kept |})
  else None.

Section Module.

(** The library functions the module relies on: [json.dumps] and
    [json.loads] ([None] when they raise), Redis's glob matching of a key
    against a pattern and its reading of a stored string as an integer. *)
Context (dumps : pyval → option string) (loads : string → option pyval)
  (glob : string → string → bool) (redis_int : string → option Z).

(** [scan_iter(match=pattern)]: the keys that match, each once. *)
Definition redis_scan_iter (s : server) (pattern : string)
    : option (list string) :=
  if reachable s
  then Some (List.filter (glob pattern) (map fst (map_to_list (store s))))
  else None.

(** [INCRBY]: an absent key counts as 0; a value that is not an integer is
    an error. *)
Definition redis_incrby (s : server) (key : string) (amount : Z)
    : option (Z * server) :=
  if reachable s
  then match store s !! key with
       | None =>
           Some (amount,
                 {| reachable := true;
                    store := <[key := pretty amount]> (store s) |})
       | Some old =>
           match redis_int old with
           | Some n =>
               Some ((n + amount)%Z,
                     {| reachable := true;
                        store := <[key := pretty (n + amount)%Z]> (store s) |})
           | None => None
           end
       end
  else None.

Definition redis_expire (s : server) (key : string) (ttl : Z)
    : option server :=
  if reachable s then Some s else None.

(** The functions below take the module's global [redis_client] ([None]
    until [init_redis] succeeds) and give back their result with the
    client as they leave it. *)

(** [cache_result(key, value, ttl)], with [settings.cache_ttl]. *)
Definition cache_result (cache_ttl : Z) (redis_client : option server)
    (key : string) (value : pyval) (ttl : option Z)
    : bool * option server :=
  match redis_client with
  | None => (false, redis_client)
  | Some s =>
      let ttl :=
        match ttl with
        | Some t => if (t =? 0)%Z then cache_ttl else t
        | None => cache_ttl
        end in
      match dumps value with
      | None => (false, redis_client)
      | Some serialized =>
          match redis_setex s key ttl serialized with
          | Some s' => (true, Some s')
          | None => (false, redis_client)
          end
      end
  end.

(** [get_cached_result(key)]. *)
Definition get_cached_result (redis_client : option server) (key : string)
    : pyval :=
  match redis_client with
  | None => VNone
  | Some s =>
      match redis_get s key with
      | None => VNone
      | Some cached =>
          match cached with
          | Some c => if String.eqb c "" then VNone
                      else default VNone (loads c)
          | None => VNone
          end
      end
  end.

(** [delete_cache(key)]. *)
Definition delete_cache (redis_client : option server) (key : string)
    : bool * option server :=
  match redis_client with
  | None => (false, redis_client)
  | Some s =>
      match redis_delete s [key] with
      | Some (result, s') => ((0 <? result)%Z, Some s')
      | None => (false, redis_client)
      end
  end.

(** [clear_cache_pattern(pattern)]. *)
Definition clear_cache_pattern (redis_client : option server)
    (pattern : string) : Z * option server :=
  match redis_client with
  | None => (0%Z, redis_client)
  | Some s =>
      match redis_scan_iter s pattern with
      | None => (0%Z, redis_client)
      | Some [] => (0%Z, redis_client)
      | Some keys =>
          match redis_delete s keys with
          | Some (deleted, s') => (deleted, Some s')
          | None => (0%Z, redis_client)
          end
      end
  end.

(** [set_job_status(job_id, status, ttl)]. *)
Definition set_job_status (redis_client : option server) (job_id : string)
    (status : pyval) (ttl : Z) : bool * option server :=
  match redis_client with
  | None => (false, redis_client)
  | Some s =>
      let key := "job:" ++ job_id in
      match dumps status with
      | None => (false, redis_client)
      | Some serialized =>
          match redis_setex s key ttl serialized with
          | Some s' => (true, Some s')
          | None => (false, redis_client)
          end
      end
  end.

(** [get_job_status(job_id)]. *)
Definition get_job_status (redis_client : option server) (job_id : string)
    : pyval :=
  match redis_client with
  | None => VNone
  | Some s =>
      let key := "job:" ++ job_id in
      match redis_get s key with
      | None => VNone
      | Some status =>
          match status with
          | Some c => if String.eqb c "" then VNone
                      else default VNone (loads c)
          | None => VNone
          end
      end
  end.

(** [increment_usage(user_id, feature, amount)].  [today] is
    [datetime.now().strftime('%Y%m%d')], and [None] when looking up the
    name [datetime] raises [NameError]. *)
Definition increment_usage (today : option string)
    (redis_client : option server) (user_id feature : string) (amount : Z)
    : Z * option server :=
  match redis_client with
  | None => (0%Z, redis_client)
  | Some s =>
      match today with
      | None => (0%Z, redis_client)
      | Some day =>
          let key := "usage:" ++ user_id ++ ":" ++ feature ++ ":" ++ day in
          match redis_incrby s key amount with
          | None => (0%Z, redis_client)
          | Some (new_count, s1) =>
              match redis_expire s1 key 86400 with
              | None => (0%Z, Some s1)
              | Some s2 => (new_count, Some s2)
              end
          end
      end
  end.

End Module.

(** The module imports only [timedelta] from [datetime]: the name
    [datetime] is unbound in [increment_usage]. *)
Definition today_as_written : option string := None.

End RedisCache.

(** The expiry [cache_result] sends: [ttl or settings.cache_ttl]. *)
Definition effective_ttl (cache_ttl : Z) (ttl : option Z) : Z :=
  match ttl with
  | Some t => if (t =? 0)%Z then cache_ttl else t
  | None => cache_ttl
  end.

(** A client that cannot serve: none was set up, or its server does not
    answer. *)
Definition out_of_service (redis_client : option RedisCache.server) : Prop :=
  match redis_client with
  | None => True
  | Some s => RedisCache.reachable s = false
  end.


(** ** Vocabulary of the statements *)

(** The process state right after [job_tracker.update_job(job_id, ...)]. *)
Definition after_update (E : env) (job_id : string)
    (updates : gmap string pyval) (w : world) : world :=
  match jobs w !! job_id with
  | Some _ =>
      set_jobs
        (JobTracker.update_job (jobs w) job_id updates
           (isoformat (utcnow E (clock_reads w))))
        (set_clock_reads (S (clock_reads w)) w)
  | None => w
  end.

(** An answer of the status endpoint that does not end the polling: a
    transport error (an [httpx.HTTPError], wherever it is raised), or a
    body whose status is neither [succeeded] nor [failed]. *)
Definition nonterminal (o : get_outcome) : bool :=
  match o with
  | GetRaises _ => true
  | GetJSON p =>
      negb (String.eqb (status p) "succeeded")
      && negb (String.eqb (status p) "failed")
  | GetUnreadable (HTTPError _) => true
  | GetUnreadable _ | GetSucceededBare => false
  end.

(** An answer of the status endpoint on which the poller writes an
    estimate: a body whose status is [starting] or [processing]. *)
Definition in_progress (o : get_outcome) : bool :=
  match o with
  | GetJSON p =>
      String.eqb (status p) "starting" || String.eqb (status p) "processing"
  | _ => false
  end.

(** An answer that counts as an attempt and writes nothing: a transport
    error or a body with an unknown status. *)
Definition quiet (o : get_outcome) : bool :=
  nonterminal o && negb (in_progress o).

(** The linear formula of the specification for attempt [a] of 60:
    [50.0 + (a / 60) * 45.0] in binary64. *)
Definition linear_estimate (a : nat) : float :=
  PrimFloat.add 50%float
    (PrimFloat.mul
       (PrimFloat.div (PrimFloat.of_uint63 (Uint63.of_Z (Z.of_nat a)))
          60%float)
       45%float).


(** The four values the confidence score takes: within the length or not,
    with the word-count bonus or without. *)
Definition score_values : list float :=
  [PrimFloat.add 0.8%float 0.1%float;
   PrimFloat.add (PrimFloat.add 0.8%float 0.1%float) 0.05%float;
   PrimFloat.sub 0.8%float 0.2%float;
   PrimFloat.add (PrimFloat.sub 0.8%float 0.2%float) 0.05%float].

(** A list of variations is in the order of [sort(..., reverse=True)] on
    the score: no variation has a lower score than one after it. *)
Definition highest_score_first (variations : list GeneratedText.t) : Prop :=
  ∀ i j earlier later,
    (i < j)%nat →
    variations !! i = Some earlier →
    variations !! j = Some later →
    PrimFloat.leb (GeneratedText.confidence_score later)
      (GeneratedText.confidence_score earlier) = true.

(** The text [_generate_single_text] returns from the [n]-th POST to the
    completions endpoint when that POST is answered with status 200 and a
    readable body: the content, stripped. *)
Definition completion (E : env) (n : nat) : string :=
  match openai_post E n with
  | OpenAIResponse _ _ content => strip content
  | OpenAIRaises _ | OpenAIUnreadable _ _ => ""
  end.

(** The variation [generate_text] builds from a completion. *)
Definition scored (request : TextGenerationRequest.t) (text : string)
    : GeneratedText.t :=
  GeneratedText.mk text (_calculate_confidence_score text request).

(** * Concrete runs *)

(** A job record as [create_job] leaves it, and a registry holding it. *)
Definition demo_record : gmap string pyval :=
  <["job_id" := VStr "job-1"]>
  (<["operation" := VStr "image_generation"]>
  (<["status" := VStr "pending"]>
  (<["progress" := VFloat 0%float]>
  (<["created_at" := VStr "2025-01-01T00:00:00"]>
  (<["updated_at" := VStr "2025-01-01T00:00:00"]>
  (<["result_url" := VNone]>
  (<["error_message" := VNone]>
  (<["metadata" := VDict []]> ∅)))))))).

Definition demo_jobs : registry := <["job-1" := demo_record]> ∅.


(** A status endpoint that answers [processing] [k] times, then
    [succeeded]; and one that never gets past [processing]. *)
Definition processing_then_succeeded (k n : nat) : get_outcome :=
  GetJSON {| status := if (n <? k)%nat then "processing" else "succeeded";
             output := Some ["https://replicate.delivery/out-0.png"];
             error := None |}.

Definition always_processing (n : nat) : get_outcome :=
  GetJSON {| status := "processing"; output := None; error := None |}.

(** A completions endpoint that ignores the length it was asked for. *)
Definition overlong_completion (n : nat) : openai_outcome :=
  OpenAIResponse 200 None
    "  Unleash your creativity with our all-new design studio today  ".

(** An outside world: the clock ticks one second per reading, job ids are
    numbered, and the deployment caps images at [max_size]. *)
Definition demo_env (max_size : Z) (gets : nat → get_outcome) : env :=
  {| max_image_size := max_size;
     utcnow := fun n =>
       {| timestamp := PrimFloat.of_uint63 (Uint63.of_Z (1000 + Z.of_nat n));
          isoformat := "2025-01-01T00:00:" ++ pretty n |};
     uuid4 := fun n => "job-" ++ pretty n;
     replicate_get := gets;
     replicate_post := fun _ => PostJSON "prediction-1";
     openai_post := overlong_completion |}.

Definition demo_world (j : registry) (rl : RateLimiter.t) : world :=
  {| jobs := j; limiter := rl; clock_reads := 0; uuids := 0; http_gets := 0;
     http_posts := 0; openai_posts := 0 |}.

(** A limiter of two requests per minute that has already admitted two
    calls of one client. *)
Definition full_limiter : RateLimiter.t :=
  RateLimiter.mk 2 60 (<["10.0.0.1" := [990%float; 995%float]]> ∅).

(** A request that the schema accepts, for a deployment that caps images
    at 1024 pixels. *)
Definition wide_request : ImageGenerationRequest.t :=
  ImageGenerationRequest.mk "A red bicycle" REALISTIC 2048 1024 2 None None
    None.

Definition short_copy_request : TextGenerationRequest.t :=
  TextGenerationRequest.mk "Launch of a design studio" FRIENDLY None 20 3
    "headline".

(** What [generate_text] returns for [short_copy_request]. *)
Definition short_copy_response : TextGenerationResponse.t :=
  Eval vm_compute in
    match fst (generate_text (demo_env 2048 always_processing)
                 short_copy_request
                 (demo_world ∅ (RateLimiter.init 60 60))) with
    | Return response => response
    | Raise _ => TextGenerationResponse.mk [] "" FRIENDLY ""
    end.

(** A Redis client whose every read raises. *)
Definition broken_redis : Cache.Redis :=
  {| Cache.get := fun _ => Cache.GetError "Connection refused" |}.

(** A history of the tracker: a job is created, polled, completed; another
    is created and fails. *)
Definition demo_calls : list tracker_call :=
  [CreateJob "job-1" "image_generation" [] "2025-01-01T00:00:00"
     "2025-01-01T00:00:00";
   SetJobProcessing "job-1" 50%float "2025-01-01T00:00:05";
   CreateJob "job-2" "text_generation" [] "2025-01-01T00:00:06"
     "2025-01-01T00:00:06";
   SetJobCompleted "job-1" "https://replicate.delivery/out-0.png"
     "2025-01-01T00:00:10";
   SetJobFailed "job-2" "OpenAI API error: overloaded" "2025-01-01T00:00:11"].

(** The record of [job-1] at the end of [demo_calls]. *)
Definition demo_completed_record : gmap string pyval :=
  Eval vm_compute in default ∅ (run_calls demo_calls !! "job-1").

(** A service object that does have a table of style prompts. *)
Definition styled_service : ImageGenerationService :=
  {| style_prompts := Some (fun _ => Some "studio photograph") |}.

(** A status endpoint that first drops the connection, then answers with a
    status the poller does not know, then [processing], then [last]. *)
Definition flaky_then (last : string) (n : nat) : get_outcome :=
  match n with
  | 0 => GetRaises "ConnectTimeout"
  | 1 => GetJSON {| status := "canceled"; output := None; error := None |}
  | 2 => GetJSON {| status := "processing"; output := None; error := None |}
  | _ => GetJSON {| status := last;
                    output := Some ["https://replicate.delivery/out-0.png"];
                    error := Some (Some "CUDA out of memory") |}
  end.

(** A request within every limit. *)
Definition square_request : ImageGenerationRequest.t :=
  ImageGenerationRequest.mk "A red bicycle" REALISTIC 1024 1024 1 None None
    (Some 7%Z).

(** What [generate_images] returns for [square_request] from
    [styled_service] when the prediction succeeds at the first poll. *)
Definition square_response : ImageGenerationResponse.t :=
  Eval vm_compute in
    match fst (generate_images (demo_env 2048 (processing_then_succeeded 0))
                 styled_service square_request
                 (demo_world ∅ (RateLimiter.init 60 60))) with
    | Return response => response
    | Raise _ => ImageGenerationResponse.mk [] "" REALISTIC ""
    end.


(** A completions endpoint that answers once and is then out of quota. *)
Definition one_answer_then_quota (n : nat) : openai_outcome :=
  match n with
  | 0 => OpenAIResponse 200 None "Design, made simple"
  | _ => OpenAIResponse 429 (Some "quota exceeded") ""
  end.

Definition quota_env : env :=
  {| max_image_size := 2048;
     utcnow := utcnow (demo_env 2048 always_processing);
     uuid4 := uuid4 (demo_env 2048 always_processing);
     replicate_get := always_processing;
     replicate_post := fun _ => PostJSON "prediction-1";
     openai_post := one_answer_then_quota |}.

Definition greeting_request : TranslationRequest.t :=
  TranslationRequest.mk "Good morning" "auto" "de" true.

(** A small JSON: [null] and the integers. *)
Definition demo_dumps (v : pyval) : option string :=
  match v with
  | VNone => Some "null"
  | VInt z => Some (pretty z)
  | _ => None
  end.

Definition demo_loads (s : string) : option pyval :=
  if String.eqb s "null" then Some VNone else VInt <$> Cache.int_of_str s.

(** Glob patterns with at most a trailing star. *)
Fixpoint demo_glob (pattern key : string) : bool :=
  match pattern, key with
  | String "*" EmptyString, _ => true
  | String p pattern, String k key => Ascii.eqb p k && demo_glob pattern key
  | EmptyString, EmptyString => true
  | _, _ => false
  end.

(** A server holding a usage counter and a cached result. *)
Definition demo_server : RedisCache.server :=
  {| RedisCache.reachable := true;
     RedisCache.store :=
       <["usage:u1:images:20250101" := "3"]>
         (<["result:abc" := "42"]> ∅) |}.

Example create_then_get :
  JobTracker.field
    (JobTracker.create_job ∅ "j1" "image_generation" [] "t0" "t0") "j1" "status"
  = Some (VStr "pending").
Proof. vm_compute. reflexivity. Qed.

Example limiter_two_of_three :
  fst (RateLimiter.check_all (RateLimiter.init 2 60) "10.0.0.1"
         [1000%float; 1001.5%float; 1002%float; 1070%float])
  = [true; true; false; true].
Proof. vm_compute. reflexivity. Qed.

Example strip_both : strip "  Buy now!  " = "Buy now!".
Proof. vm_compute. reflexivity. Qed.

Example split_words : split " Big  summer sale " = ["Big"; "summer"; "sale"].
Proof. vm_compute. reflexivity. Qed.

Example str_int_neg : str_int (-2048) = "-2048".
Proof. vm_compute. reflexivity. Qed.

(** * Properties *)

(** ** The job tracker *)

Section TrackerFacts.

Implicit Types (jobs : registry) (rec updates : gmap string pyval).

Lemma update_job_absent jobs job_id updates now :
  jobs !! job_id = None →
  JobTracker.update_job jobs job_id updates now = jobs.
Proof. intros H. unfold JobTracker.update_job. by rewrite H. Qed.

Lemma update_job_present jobs job_id rec updates now :
  jobs !! job_id = Some rec →
  JobTracker.update_job jobs job_id updates now !! job_id
  = Some (<["updated_at" := VStr now]> (updates ∪ rec)).
Proof.
  intros H. unfold JobTracker.update_job. rewrite H.
  by rewrite lookup_insert_eq.
Qed.

Lemma update_job_other jobs job_id other updates now :
  other ≠ job_id →
  JobTracker.update_job jobs job_id updates now !! other = jobs !! other.
Proof.
  intros H. unfold JobTracker.update_job.
  destruct (jobs !! job_id); [|done]. by rewrite lookup_insert_ne.
Qed.

Lemma field_update_job_same jobs job_id rec updates now key :
  jobs !! job_id = Some rec →
  JobTracker.field (JobTracker.update_job jobs job_id updates now) job_id key
  = (<["updated_at" := VStr now]> (updates ∪ rec)) !! key.
Proof.
  intros H. unfold JobTracker.field.
  by rewrite (update_job_present _ _ _ _ _ H).
Qed.

Lemma field_update_job_other jobs job_id other updates now key :
  other ≠ job_id →
  JobTracker.field (JobTracker.update_job jobs job_id updates now) other key
  = JobTracker.field jobs other key.
Proof.
  intros H. unfold JobTracker.field. by rewrite update_job_other.
Qed.

(** A key bound by the keyword dictionary reads back the new value, any
    other key (but [updated_at]) the old one. *)
Lemma updated_record_new rec updates now key v :
  key ≠ "updated_at" → updates !! key = Some v →
  (<["updated_at" := VStr now]> (updates ∪ rec)) !! key = Some v.
Proof.
  intros Hk Hu. rewrite lookup_insert_ne; [|done].
  by apply lookup_union_Some_l.
Qed.

Lemma updated_record_old rec updates now key :
  key ≠ "updated_at" → updates !! key = None →
  (<["updated_at" := VStr now]> (updates ∪ rec)) !! key = rec !! key.
Proof.
  intros Hk Hu. rewrite lookup_insert_ne; [|done].
  by apply lookup_union_r.
Qed.

End TrackerFacts.

(** Two different string literals. *)
Ltac key_neq := intros ?; discriminate.

(** Looking a literal key up in one of the setters' keyword dictionaries. *)
Ltac kwargs_lookup :=
  unfold JobTracker.processing_kwargs, JobTracker.completed_kwargs,
    JobTracker.failed_kwargs;
  repeat first [ rewrite lookup_insert_eq
               | rewrite lookup_insert_ne by key_neq
               | rewrite lookup_empty ];
  reflexivity.

(** Reading a literal key of a job just updated, given the record [Hrec]
    that was there before the update. *)
Ltac read_field Hrec :=
  rewrite (field_update_job_same _ _ _ _ _ _ Hrec);
  first [ apply updated_record_new; [key_neq | kwargs_lookup]
        | rewrite updated_record_old; [|key_neq | kwargs_lookup];
          first [ apply updated_record_new; [key_neq | kwargs_lookup]
                | idtac ] ].

(** C10 — an unknown [job_id]: [update_job], and with it the three setters,
    return normally and leave the whole process state, the registry
    included, as it was; no record is created and none is changed. *)
Theorem update_job_unknown_id (E : env) (w : world) (job_id : string)
    (updates : gmap string pyval) (progress : float)
    (result_url error_message now : string) :
  jobs w !! job_id = None →
  update_job E job_id updates w = (Return tt, w)
  ∧ set_job_processing E job_id progress w = (Return tt, w)
  ∧ set_job_completed E job_id result_url w = (Return tt, w)
  ∧ set_job_failed E job_id error_message w = (Return tt, w)
  ∧ JobTracker.update_job (jobs w) job_id updates now = jobs w
  ∧ JobTracker.set_job_processing (jobs w) job_id progress now = jobs w
  ∧ JobTracker.set_job_completed (jobs w) job_id result_url now = jobs w
  ∧ JobTracker.set_job_failed (jobs w) job_id error_message now = jobs w.
Proof.
  intros H.
  unfold set_job_processing, set_job_completed, set_job_failed, update_job,
    JobTracker.set_job_processing, JobTracker.set_job_completed,
    JobTracker.set_job_failed.
  rewrite H, !update_job_absent by done. by split_and!.
Qed.

(** C1, as the code has it — the tracker has no guard: on an existing job,
    [set_job_completed] and [set_job_failed] set the terminal status, and a
    later [set_job_processing] is accepted; it sets the status back to
    [processing] and the progress to its argument, keeping the result URL
    or the error message of the terminal call. *)
Theorem set_job_processing_overwrites_terminal (jobs : registry)
    (job_id : string) (rec : gmap string pyval)
    (result_url error_message : string) (p : float) (t1 t2 : string) :
  jobs !! job_id = Some rec →
  let completed := JobTracker.set_job_completed jobs job_id result_url t1 in
  let failed := JobTracker.set_job_failed jobs job_id error_message t1 in
  let completed' := JobTracker.set_job_processing completed job_id p t2 in
  let failed' := JobTracker.set_job_processing failed job_id p t2 in
  JobTracker.field completed job_id "status" = Some (VStr "completed")
  ∧ JobTracker.field failed job_id "status" = Some (VStr "failed")
  ∧ JobTracker.field completed' job_id "status" = Some (VStr "processing")
  ∧ JobTracker.field completed' job_id "progress" = Some (VFloat p)
  ∧ JobTracker.field completed' job_id "result_url" = Some (VStr result_url)
  ∧ JobTracker.field failed' job_id "status" = Some (VStr "processing")
  ∧ JobTracker.field failed' job_id "progress" = Some (VFloat p)
  ∧ JobTracker.field failed' job_id "error_message"
    = Some (VStr error_message).
Proof.
  intros H completed failed completed' failed'.
  pose proof (update_job_present _ _ _
                (JobTracker.completed_kwargs result_url) t1 H) as Hc.
  pose proof (update_job_present _ _ _
                (JobTracker.failed_kwargs error_message) t1 H) as Hf.
  subst completed failed completed' failed'.
  unfold JobTracker.set_job_completed, JobTracker.set_job_failed,
    JobTracker.set_job_processing.
  split_and!.
  - read_field H.
  - read_field H.
  - read_field Hc.
  - read_field Hc.
  - read_field Hc.
  - read_field Hf.
  - read_field Hf.
  - read_field Hf.
Qed.

(** ** The rate limiter *)

Section LimiterFacts.

Import RateLimiter.

Implicit Types (rl : RateLimiter.t) (stamps nows : list float).

Lemma filter_keeps_all (f : float → bool) stamps :
  forallb f stamps = true → List.filter f stamps = stamps.
Proof.
  induction stamps as [|t stamps IH]; simpl; [done|].
  intros [Ht Hrest]%andb_prop. rewrite Ht. f_equal. by apply IH.
Qed.

Lemma filter_drops_all (f : float → bool) stamps :
  forallb (fun t => negb (f t)) stamps = true → List.filter f stamps = [].
Proof.
  induction stamps as [|t stamps IH]; simpl; [done|].
  intros [Ht Hrest]%andb_prop. apply negb_true_iff in Ht. rewrite Ht.
  by apply IH.
Qed.

Lemma filter_filter_shorter (f g : float → bool) stamps :
  (length (List.filter f (List.filter g stamps))
   ≤ length (List.filter f stamps))%nat.
Proof.
  induction stamps as [|t stamps IH]; simpl; [lia|].
  destruct (g t), (f t) eqn:Hf; simpl; rewrite ?Hf; simpl; lia.
Qed.

Lemma recorded_after rl identifier stamps mx ws :
  recorded (mk mx ws (<[identifier := stamps]> (requests rl))) identifier
  = stamps.
Proof. unfold recorded. simpl. by rewrite lookup_insert_eq. Qed.

(** The two ways out of [check_rate_limit]. *)
Lemma check_rejected rl identifier now :
  let kept :=
    List.filter (in_window (window_seconds rl) now) (recorded rl identifier) in
  (max_requests rl ≤ Z.of_nat (length kept))%Z →
  check_rate_limit rl identifier now
  = (false, mk (max_requests rl) (window_seconds rl)
              (<[identifier := kept]> (requests rl))).
Proof.
  intros kept H. unfold check_rate_limit. fold kept.
  destruct (Z.leb_spec (max_requests rl) (Z.of_nat (length kept))); [done|lia].
Qed.

Lemma check_allows rl identifier now :
  let kept :=
    List.filter (in_window (window_seconds rl) now) (recorded rl identifier) in
  (Z.of_nat (length kept) < max_requests rl)%Z →
  check_rate_limit rl identifier now
  = (true, mk (max_requests rl) (window_seconds rl)
             (<[identifier := (kept ++ [now])%list]> (requests rl))).
Proof.
  intros kept H. unfold check_rate_limit. fold kept.
  destruct (Z.leb_spec (max_requests rl) (Z.of_nat (length kept))); [lia|done].
Qed.

Lemma check_all_app rl identifier nows1 nows2 :
  check_all rl identifier (nows1 ++ nows2)
  = let '(bs1, rl1) := check_all rl identifier nows1 in
    let '(bs2, rl2) := check_all rl1 identifier nows2 in
    ((bs1 ++ bs2)%list, rl2).
Proof.
  revert rl. induction nows1 as [|now nows1 IH]; intros rl; simpl.
  - by destruct (check_all rl identifier nows2).
  - destruct (check_rate_limit rl identifier now) as [b rl1].
    rewrite IH. destruct (check_all rl1 identifier nows1) as [bs1 rl2].
    by destruct (check_all rl2 identifier nows2).
Qed.

Lemma burst_snoc ws nows last :
  burst ws (nows ++ [last]) = true →
  forallb (in_window ws last) nows = true ∧ burst ws nows = true.
Proof.
  induction nows as [|t nows IH]; simpl; [done|].
  rewrite forallb_app. simpl.
  intros [[H1 [H2 _]%andb_prop]%andb_prop H3]%andb_prop.
  destruct (IH H3) as [H4 H5]. rewrite H1, H2, H4, H5. done.
Qed.

(** While the stored list plus the calls to come stay below the limit and
    every call sees everything before it inside its window, every call is
    admitted and its timestamp is appended. *)
Lemma allowed_run nows : ∀ rl identifier,
  (Z.of_nat (length (recorded rl identifier) + length nows)
   ≤ max_requests rl)%Z →
  forallb (fun now =>
             forallb (in_window (window_seconds rl) now)
               (recorded rl identifier)) nows = true →
  burst (window_seconds rl) nows = true →
  ∃ rl',
    check_all rl identifier nows = (repeat true (length nows), rl')
    ∧ recorded rl' identifier = (recorded rl identifier ++ nows)%list
    ∧ max_requests rl' = max_requests rl
    ∧ window_seconds rl' = window_seconds rl.
Proof.
  induction nows as [|now nows IH]; intros rl identifier Hlen Hpre Hburst.
  - exists rl. simpl. by rewrite app_nil_r.
  - simpl in Hpre, Hburst, Hlen.
    apply andb_prop in Hpre as [Hnow Hpre].
    apply andb_prop in Hburst as [Hlater Hburst].
    simpl. rewrite check_allows; rewrite (filter_keeps_all _ _ Hnow); [|lia].
    set (rl1 := mk _ _ _).
    assert (Hrec : recorded rl1 identifier
                   = (recorded rl identifier ++ [now])%list)
      by apply recorded_after.
    destruct (IH rl1 identifier) as (rl' & Hrun & Hrec' & Hmax & Hws).
    + rewrite Hrec, length_app. simpl. lia.
    + rewrite Hrec. simpl.
      clear -Hpre Hlater. induction nows as [|t nows IHn]; simpl in *; [done|].
      apply andb_prop in Hpre as [Ht Hpre].
      apply andb_prop in Hlater as [Ht' Hlater].
      rewrite forallb_app, Ht. simpl. rewrite Ht'. simpl. by apply IHn.
    + done.
    + exists rl'. rewrite Hrun. split_and!; [done| |done|done].
      rewrite Hrec', Hrec, <- app_assoc. done.
Qed.


Lemma check_all_cons rl identifier now nows :
  check_all rl identifier (now :: nows)
  = let '(b, rl1) := check_rate_limit rl identifier now in
    let '(bs, rl2) := check_all rl1 identifier nows in
    (b :: bs, rl2).
Proof. reflexivity. Qed.

End LimiterFacts.

(** C3 — a burst against a limit of [N]: for an identifier with nothing
    recorded that is still inside the window, [N + 1] calls each of which
    finds the earlier ones inside its window get [N] admissions followed by
    one rejection; and (when [N] is positive) a call made once the window has
    passed for all the admitted timestamps is admitted again. *)
Theorem burst_allows_exactly_max_requests (rl : RateLimiter.t)
    (identifier : string) (N : nat) (first : float) (rest : list float)
    (later : float) :
  RateLimiter.max_requests rl = Z.of_nat N →
  length rest = N →
  RateLimiter.all_expired (RateLimiter.window_seconds rl) first
    (RateLimiter.recorded rl identifier) = true →
  RateLimiter.burst (RateLimiter.window_seconds rl) (first :: rest) = true →
  fst (RateLimiter.check_all rl identifier (first :: rest))
  = (repeat true N ++ [false])%list
  ∧ ((0 < N)%nat →
     RateLimiter.all_expired (RateLimiter.window_seconds rl) later
       (take N (first :: rest)) = true →
     fst (RateLimiter.check_rate_limit
            (snd (RateLimiter.check_all rl identifier (first :: rest)))
            identifier later) = true).
Proof.
  intros Hmax Hlen Hstale Hburst.
  unfold RateLimiter.all_expired in *.
  pose proof (filter_drops_all _ _ Hstale) as Hnone.
  destruct rest as [|t rest _] using rev_ind.
  - (* max_requests = 0: the single call is rejected *)
    simpl in Hlen. subst N. split; [|lia].
    rewrite check_all_cons, check_rejected; rewrite Hnone; simpl; [done|lia].
  - rewrite length_app in Hlen. simpl in Hlen.
    assert (HN : N = S (length rest)) by lia. clear Hlen.
    simpl in Hburst. apply andb_prop in Hburst as [Hfirst Hburst].
    rewrite forallb_app in Hfirst. apply andb_prop in Hfirst as [Hmid Hlast].
    simpl in Hlast. apply andb_prop in Hlast as [Hlast _].
    apply burst_snoc in Hburst as [Hlast' Hburst].
    (* the first call *)
    rewrite check_all_cons, check_allows; rewrite Hnone; simpl; [|lia].
    set (rl1 := RateLimiter.mk _ _ _).
    assert (Hrec1 : RateLimiter.recorded rl1 identifier = [first])
      by apply recorded_after.
    (* the calls up to the limit *)
    rewrite check_all_app.
    destruct (allowed_run rest rl1 identifier)
      as (rl2 & Hrun & Hrec2 & Hmax2 & Hws2).
    { rewrite Hrec1. simpl. lia. }
    { rewrite Hrec1. simpl.
      clear -Hmid. induction rest as [|x rest IH]; simpl in *; [done|].
      apply andb_prop in Hmid as [Hx Hmid]. rewrite Hx. simpl. by apply IH. }
    { done. }
    rewrite Hrun. rewrite Hrec1 in Hrec2. simpl in Hrec2.
    (* the call over the limit *)
    rewrite check_all_cons, check_rejected; rewrite Hmax2, Hws2, Hrec2;
      simpl RateLimiter.window_seconds; simpl RateLimiter.max_requests.
    2:{ rewrite filter_keeps_all; [simpl; lia|]. simpl. by rewrite Hlast, Hlast'. }
    rewrite filter_keeps_all by (simpl; by rewrite Hlast, Hlast').
    simpl. split.
    + rewrite HN. simpl. done.
    + intros _ Hexp.
      replace (take N (first :: rest ++ [t])) with (first :: rest) in Hexp.
      2:{ rewrite HN. simpl. by rewrite take_app_length. }
      rewrite check_allows.
      * done.
      * rewrite recorded_after. simpl RateLimiter.window_seconds.
        rewrite (filter_drops_all _ _ Hexp). simpl. lia.
Qed.

Section RejectedFrame.

Import RateLimiter.

(** An admission at [later] survives pruning the stored list first. *)
Lemma allowed_after_pruning rl identifier later (g : float → bool) :
  fst (check_rate_limit rl identifier later) = true →
  fst (check_rate_limit
         (mk (max_requests rl) (window_seconds rl)
             (<[identifier := List.filter g (recorded rl identifier)]>
                (requests rl)))
         identifier later) = true.
Proof.
  unfold check_rate_limit at 1.
  destruct (Z.leb_spec (max_requests rl)
              (Z.of_nat (length (List.filter
                 (in_window (window_seconds rl) later)
                 (recorded rl identifier))))) as [|Hlt]; [done|].
  intros _. rewrite check_allows; [done|].
  rewrite recorded_after. simpl window_seconds. simpl max_requests.
  pose proof (filter_filter_shorter (in_window (window_seconds rl) later) g
                (recorded rl identifier)).
  lia.
Qed.

Lemma rejected_inv rl identifier now rl' :
  check_rate_limit rl identifier now = (false, rl') →
  rl' = mk (max_requests rl) (window_seconds rl)
          (<[identifier :=
               List.filter (in_window (window_seconds rl) now)
                 (recorded rl identifier)]> (requests rl)).
Proof.
  unfold check_rate_limit.
  destruct (_ <=? _)%Z; intros [= <-]. done.
Qed.

End RejectedFrame.

(** C9 — a rejected check consumes no quota: when [check_rate_limit]
    answers [False] the identifier's list becomes the old list with the
    expired timestamps removed, the current timestamp is not appended, the
    settings and the other identifiers are untouched; so a call that would
    have been admitted at some [later] time is still admitted then, after
    one rejected call or after any run of rejected calls. *)
Theorem rejected_check_consumes_no_quota (rl rl' : RateLimiter.t)
    (identifier : string) (now : float) :
  RateLimiter.check_rate_limit rl identifier now = (false, rl') →
  RateLimiter.requests rl'
  = <[identifier :=
        List.filter (RateLimiter.in_window (RateLimiter.window_seconds rl) now)
          (RateLimiter.recorded rl identifier)]> (RateLimiter.requests rl)
  ∧ RateLimiter.max_requests rl' = RateLimiter.max_requests rl
  ∧ RateLimiter.window_seconds rl' = RateLimiter.window_seconds rl
  ∧ (length (RateLimiter.recorded rl' identifier)
     ≤ length (RateLimiter.recorded rl identifier))%nat
  ∧ (∀ later : float,
       fst (RateLimiter.check_rate_limit rl identifier later) = true →
       fst (RateLimiter.check_rate_limit rl' identifier later) = true)
  ∧ (∀ (nows : list float) (later : float),
       fst (RateLimiter.check_all rl identifier nows)
       = repeat false (length nows) →
       fst (RateLimiter.check_rate_limit rl identifier later) = true →
       fst (RateLimiter.check_rate_limit
              (snd (RateLimiter.check_all rl identifier nows))
              identifier later) = true).
Proof.
  intros Hrej. apply rejected_inv in Hrej. subst rl'.
  split_and!; try reflexivity.
  - rewrite recorded_after. apply filter_length_le.
  - intros later. apply allowed_after_pruning.
  - clear now. intros nows. revert rl.
    induction nows as [|now nows IH]; intros rl later; [done|].
    rewrite check_all_cons.
    destruct (RateLimiter.check_rate_limit rl identifier now) as [b rl1] eqn:Hc.
    destruct (RateLimiter.check_all rl1 identifier nows) as [bs rl2] eqn:Hall.
    simpl. intros [= -> Hbs] Hadm.
    apply rejected_inv in Hc.
    specialize (IH rl1 later). rewrite Hall in IH. simpl in IH.
    apply IH; [done|]. subst rl1. by apply allowed_after_pruning.
Qed.

(** ** The prediction poller *)

Section PollerFacts.

Context (E : env).

Lemma update_job_run job_id updates w :
  update_job E job_id updates w = (Return tt, after_update E job_id updates w).
Proof.
  unfold update_job, after_update. by destruct (jobs w !! job_id).
Qed.

Lemma after_update_jobs job_id updates w :
  jobs (after_update E job_id updates w)
  = JobTracker.update_job (jobs w) job_id updates
      (isoformat (utcnow E (clock_reads w))).
Proof.
  unfold after_update, JobTracker.update_job.
  by destruct (jobs w !! job_id).
Qed.

Lemma after_update_http_gets job_id updates w :
  http_gets (after_update E job_id updates w) = http_gets w.
Proof. unfold after_update. by destruct (jobs w !! job_id). Qed.

Lemma after_update_present job_id updates w rec :
  jobs w !! job_id = Some rec →
  jobs (after_update E job_id updates w) !! job_id
  = Some (<["updated_at" := VStr (isoformat (utcnow E (clock_reads w)))]>
            (updates ∪ rec)).
Proof.
  intros H. rewrite after_update_jobs. by apply update_job_present.
Qed.

(** After [set_job_processing] on an existing job the record reads
    [processing] and the given progress. *)
Lemma after_processing_fields job_id p w rec :
  jobs w !! job_id = Some rec →
  JobTracker.field
    (jobs (after_update E job_id (JobTracker.processing_kwargs p) w))
    job_id "status" = Some (VStr "processing")
  ∧ JobTracker.field
      (jobs (after_update E job_id (JobTracker.processing_kwargs p) w))
      job_id "progress" = Some (VFloat p).
Proof.
  intros H. rewrite after_update_jobs. split; read_field H.
Qed.

(** [set_job_processing] never makes a job [completed]. *)
Lemma after_processing_not_completed job_id p w other :
  JobTracker.field
    (jobs (after_update E job_id (JobTracker.processing_kwargs p) w))
    other "status" = Some (VStr "completed") →
  JobTracker.field (jobs w) other "status" = Some (VStr "completed").
Proof.
  destruct (decide (other = job_id)) as [->|Hne].
  - destruct (jobs w !! job_id) as [rec|] eqn:Hrec.
    + destruct (after_processing_fields job_id p w rec Hrec) as [Hs _].
      rewrite Hs. intros [=].
    + unfold after_update. by rewrite Hrec.
  - rewrite after_update_jobs. by rewrite field_update_job_other.
Qed.


Lemma set_job_processing_run job_id p w :
  set_job_processing E job_id p w
  = (Return tt, after_update E job_id (JobTracker.processing_kwargs p) w).
Proof. apply update_job_run. Qed.

(** What one pass of the loop does, by the answer of the status
    endpoint. *)
Lemma poll_once_succeeded prediction_id job_id retry_count w p :
  replicate_get E (http_gets w) = GetJSON p →
  status p = "succeeded" →
  poll_once E prediction_id job_id retry_count w
  = (Leave (Return (output_or_empty p)),
     after_update E job_id (JobTracker.processing_kwargs 100%float)
       (set_http_gets (S (http_gets w)) w)).
Proof.
  intros Hget Hst. unfold poll_once. rewrite Hget, Hst.
  simpl String.eqb. cbv iota.
  by rewrite set_job_processing_run.
Qed.

Lemma poll_once_in_progress prediction_id job_id retry_count w p :
  replicate_get E (http_gets w) = GetJSON p →
  status p = "starting" ∨ status p = "processing" →
  poll_once E prediction_id job_id retry_count w
  = (Again,
     after_update E job_id
       (JobTracker.processing_kwargs (progress_estimate retry_count))
       (set_http_gets (S (http_gets w)) w)).
Proof.
  intros Hget Hst. unfold poll_once. rewrite Hget.
  destruct Hst as [-> | ->]; simpl String.eqb; cbv iota; simpl orb; cbv iota;
    by rewrite set_job_processing_run.
Qed.

Lemma poll_once_nonterminal prediction_id job_id retry_count w :
  nonterminal (replicate_get E (http_gets w)) = true →
  ∃ w',
    poll_once E prediction_id job_id retry_count w = (Again, w')
    ∧ http_gets w' = S (http_gets w)
    ∧ ∀ other,
        JobTracker.field (jobs w') other "status" = Some (VStr "completed") →
        JobTracker.field (jobs w) other "status" = Some (VStr "completed").
Proof.
  unfold poll_once, nonterminal.
  destruct (replicate_get E (http_gets w)) as [msg|p|e|].
  - intros _. eexists. split_and!; [reflexivity|reflexivity|done].
  - intros [Hs Hf]%andb_prop.
    apply negb_true_iff in Hs, Hf. rewrite Hs, Hf.
    destruct (_ || _).
    + rewrite set_job_processing_run. eexists.
      split_and!; [reflexivity| |].
      * by rewrite after_update_http_gets.
      * intros other H. by apply after_processing_not_completed in H.
    + eexists. split_and!; [reflexivity|reflexivity|done].
  - destruct e; try discriminate.
    intros _. eexists. split_and!; [reflexivity|reflexivity|done].
  - discriminate.
Qed.


Lemma poll_loop_succeeds prediction_id job_id p k :
  ∀ attempts retry_count w rec,
    (k < attempts)%nat →
    jobs w !! job_id = Some rec →
    (∀ i, (i < k)%nat →
          ∃ q, replicate_get E (http_gets w + i) = GetJSON q
               ∧ status q = "processing") →
    replicate_get E (http_gets w + k) = GetJSON p →
    status p = "succeeded" →
    ∃ w',
      poll_loop E attempts prediction_id job_id retry_count w
      = (Return (output_or_empty p), w')
      ∧ http_gets w' = (http_gets w + S k)%nat
      ∧ JobTracker.field (jobs w') job_id "progress"
        = Some (VFloat 100%float).
Proof.
  induction k as [|k IH]; intros attempts retry_count w rec Hlt Hrec Hproc
    Hget Hst;
    (destruct attempts as [|attempts]; [lia|]); simpl poll_loop.
  - rewrite Nat.add_0_r in Hget.
    rewrite (poll_once_succeeded _ _ _ _ _ Hget Hst).
    eexists. split_and!; [reflexivity| |].
    + rewrite after_update_http_gets. simpl. lia.
    + by apply (after_processing_fields _ _ (set_http_gets _ w) rec).
  - destruct (Hproc 0%nat) as (q & Hq & Hqs); [lia|].
    rewrite Nat.add_0_r in Hq.
    rewrite (poll_once_in_progress _ _ _ _ _ Hq (or_intror Hqs)).
    set (w1 := after_update E job_id _ _).
    assert (Hgets : http_gets w1 = S (http_gets w))
      by (subst w1; by rewrite after_update_http_gets).
    destruct (IH attempts (S retry_count) w1
                (<["updated_at" :=
                     VStr (isoformat (utcnow E (clock_reads w)))]>
                   (JobTracker.processing_kwargs
                      (progress_estimate retry_count) ∪ rec)))
      as (w' & Hrun & Hn & Hp).
    + lia.
    + subst w1. by apply (after_update_present _ _ (set_http_gets _ w) rec).
    + intros i Hi. rewrite Hgets.
      replace (S (http_gets w) + i)%nat with (http_gets w + S i)%nat by lia.
      apply Hproc. lia.
    + rewrite Hgets.
      by replace (S (http_gets w) + k)%nat with (http_gets w + S k)%nat by lia.
    + done.
    + exists w'. split_and!; [done| |done]. rewrite Hn, Hgets. lia.
Qed.

Lemma poll_loop_times_out prediction_id job_id attempts :
  ∀ retry_count w,
    (∀ i, (i < attempts)%nat →
          nonterminal (replicate_get E (http_gets w + i)) = true) →
    ∃ w',
      poll_loop E attempts prediction_id job_id retry_count w
      = (Raise (Exception
                  "Generation timeout - prediction took too long to complete"),
         w')
      ∧ http_gets w' = (http_gets w + attempts)%nat
      ∧ ∀ other,
          JobTracker.field (jobs w') other "status"
          = Some (VStr "completed") →
          JobTracker.field (jobs w) other "status" = Some (VStr "completed").
Proof.
  induction attempts as [|attempts IH]; intros retry_count w Hnon;
    simpl poll_loop.
  - exists w. split_and!; [done|lia|done].
  - destruct (poll_once_nonterminal prediction_id job_id retry_count w)
      as (w1 & Hone & Hgets & Hkeep).
    { specialize (Hnon 0%nat). rewrite Nat.add_0_r in Hnon. apply Hnon. lia. }
    rewrite Hone.
    destruct (IH (S retry_count) w1) as (w' & Hrun & Hn & Hkeep').
    { intros i Hi. rewrite Hgets.
      replace (S (http_gets w) + i)%nat with (http_gets w + S i)%nat by lia.
      apply Hnon. lia. }
    exists w'. split_and!; [done| |].
    + rewrite Hn, Hgets. lia.
    + intros other H. by apply Hkeep, Hkeep'.
Qed.

(** For each of the 60 attempts the clamp at 95 is not reached: the
    estimate is the linear formula, and it is below 100. *)
Lemma progress_estimate_linear a :
  (a < max_retries)%nat →
  progress_estimate a = linear_estimate a
  ∧ PrimFloat.ltb (linear_estimate a) 100%float = true.
Proof.
  unfold max_retries. intros Ha.
  do 60 (destruct a as [|a]; [split; vm_compute; reflexivity|]).
  lia.
Qed.

End PollerFacts.

(** C4 — [k] answers [processing] ([k] below the 60 attempts) and then
    [succeeded]: the poller returns the list under [output] in that answer
    (the empty list when [output] is [null]) after exactly [k + 1] calls
    of the status endpoint, and the job's record then shows progress
    100.0. *)
Theorem poll_returns_after_k_plus_one_fetches (E : env) (w : world)
    (prediction_id job_id : string) (rec : gmap string pyval) (k : nat)
    (p : prediction) :
  (k < max_retries)%nat →
  jobs w !! job_id = Some rec →
  (∀ i, (i < k)%nat →
        ∃ q, replicate_get E (http_gets w + i) = GetJSON q
             ∧ status q = "processing") →
  replicate_get E (http_gets w + k) = GetJSON p →
  status p = "succeeded" →
  fst (_poll_prediction E prediction_id job_id w)
  = Return (match output p with
            | Some urls => urls
            | None => []
            end)
  ∧ http_gets (snd (_poll_prediction E prediction_id job_id w))
    = (http_gets w + (k + 1))%nat
  ∧ JobTracker.field (jobs (snd (_poll_prediction E prediction_id job_id w)))
      job_id "progress" = Some (VFloat 100%float).
Proof.
  intros Hk Hrec Hproc Hget Hst. unfold _poll_prediction.
  destruct (poll_loop_succeeds E prediction_id job_id p k max_retries 0%nat w rec
              Hk Hrec Hproc Hget Hst) as (w' & Hrun & Hn & Hp).
  rewrite Hrun. simpl. split_and!; [|rewrite Hn; lia|done].
  unfold output_or_empty. by destruct (output p) as [[|u us]|].
Qed.

(** C5 — no terminal answer in any of the 60 attempts: the poller raises
    the timeout exception after exactly 60 calls of the status endpoint,
    and it has set no job to [completed] (a job reads [completed]
    afterwards only if it did before). *)
Theorem poll_times_out_without_completing (E : env) (w : world)
    (prediction_id job_id : string) :
  (∀ i, (i < max_retries)%nat →
        nonterminal (replicate_get E (http_gets w + i)) = true) →
  fst (_poll_prediction E prediction_id job_id w)
  = Raise (Exception
             "Generation timeout - prediction took too long to complete")
  ∧ http_gets (snd (_poll_prediction E prediction_id job_id w))
    = (http_gets w + max_retries)%nat
  ∧ ∀ other,
      JobTracker.field (jobs (snd (_poll_prediction E prediction_id job_id w)))
        other "status" = Some (VStr "completed") →
      JobTracker.field (jobs w) other "status" = Some (VStr "completed").
Proof.
  intros Hnon. unfold _poll_prediction.
  destruct (poll_loop_times_out E prediction_id job_id max_retries 0%nat w Hnon)
    as (w' & Hrun & Hn & Hkeep).
  rewrite Hrun. simpl. by split_and!.
Qed.

(** ** The Redis-backed limiter *)

(** C8 — the Redis-backed check fails open: with no Redis client, or with
    a client whose read raises, [check_rate_limit] answers [True] for
    every user, feature and limit. *)
Theorem redis_check_rate_limit_fails_open (g : Cache.globals)
    (user_id feature : string) (limit : Z) :
  (Cache.redis_client g = None
   ∨ ∃ client, Cache.redis_client g = Some client
               ∧ ∀ key, ∃ msg, Cache.get client key = Cache.GetError msg) →
  Cache.check_rate_limit g user_id feature limit = true.
Proof.
  intros [Hnone | (client & Hsome & Hraises)]; unfold Cache.check_rate_limit.
  - by rewrite Hnone.
  - rewrite Hsome. destruct (Cache.today g) as [day|]; [|done].
    destruct (Hraises ("usage:" ++ user_id ++ ":" ++ feature ++ ":" ++ day))
      as [msg ->].
    done.
Qed.

(** As the module is written ([datetime] is never imported) building the key
    already raises, so with a client the check answers [True] as well. *)
Example redis_check_as_written (client : option Cache.Redis)
    (user_id feature : string) (limit : Z) :
  Cache.check_rate_limit (Cache.module_globals client) user_id feature limit
  = true.
Proof. unfold Cache.check_rate_limit. by destruct client. Qed.

(** ** Requests that are turned away *)

Section ServiceRuns.

Context (E : env).

Lemma create_job_run job_id operation metadata w :
  create_job E job_id operation metadata w
  = (Return tt,
     set_jobs
       (JobTracker.create_job (jobs w) job_id operation metadata
          (isoformat (utcnow E (clock_reads w)))
          (isoformat (utcnow E (S (clock_reads w)))))
       (set_clock_reads (S (S (clock_reads w))) w)).
Proof. reflexivity. Qed.

Lemma _log_job_run w :
  _log_job E w = (Return tt, set_clock_reads (S (clock_reads w)) w).
Proof. reflexivity. Qed.

Lemma set_job_failed_run job_id msg w :
  set_job_failed E job_id msg w
  = (Return tt, after_update E job_id (JobTracker.failed_kwargs msg) w).
Proof. apply update_job_run. Qed.

Lemma set_job_completed_run job_id url w :
  set_job_completed E job_id url w
  = (Return tt, after_update E job_id (JobTracker.completed_kwargs url) w).
Proof. apply update_job_run. Qed.

(** What the singletons' operations leave behind, as far as the
    statements below need it. *)
Lemma create_job_spec job_id operation metadata w :
  ∃ w' rec,
    create_job E job_id operation metadata w = (Return tt, w')
    ∧ jobs w' !! job_id = Some rec
    ∧ openai_posts w' = openai_posts w.
Proof.
  rewrite create_job_run. do 2 eexists. split_and!; [reflexivity| |reflexivity].
  simpl jobs. unfold JobTracker.create_job. apply lookup_insert_eq.
Qed.

Lemma _log_job_spec w :
  ∃ w', _log_job E w = (Return tt, w')
        ∧ jobs w' = jobs w ∧ openai_posts w' = openai_posts w.
Proof. rewrite _log_job_run. eexists. by split_and!. Qed.

Lemma after_update_openai_posts job_id updates w :
  openai_posts (after_update E job_id updates w) = openai_posts w.
Proof. unfold after_update. by destruct (jobs w !! job_id). Qed.

Lemma update_job_spec job_id updates w :
  ∃ w', update_job E job_id updates w = (Return tt, w')
        ∧ jobs w'
          = JobTracker.update_job (jobs w) job_id updates
              (isoformat (utcnow E (clock_reads w)))
        ∧ openai_posts w' = openai_posts w.
Proof.
  rewrite update_job_run. eexists. split_and!; [reflexivity| |].
  - apply after_update_jobs.
  - apply after_update_openai_posts.
Qed.

(** A failing size check fails in every state, and changes none. *)
Lemma _validate_image_size_raises width height w e :
  fst (_validate_image_size E width height w) = Raise e →
  ∀ w0, _validate_image_size E width height w0 = (Raise e, w0).
Proof.
  unfold _validate_image_size.
  destruct (_ || _)%bool; [by intros [= <-]|].
  destruct (_ || _)%bool; [by intros [= <-]|].
  intros [=].
Qed.

(** [generate_images] on a request whose size check fails: the job has
    been created by then, and it is left failed with the message. *)
Lemma generate_images_invalid_size self request w e :
  fst (_validate_image_size E (ImageGenerationRequest.width request)
         (ImageGenerationRequest.height request) w) = Raise e →
  ∃ w',
    generate_images E self request w = (Raise e, w')
    ∧ JobTracker.field (jobs w') (uuid4 E (uuids w)) "status"
      = Some (VStr "failed")
    ∧ JobTracker.field (jobs w') (uuid4 E (uuids w)) "error_message"
      = Some (VStr (str e)).
Proof.
  intros Hbad.
  pose proof (_validate_image_size_raises _ _ _ _ Hbad) as Hv.
  unfold generate_images, bind at 1, generate_job_id.
  set (job_id := uuid4 E (uuids w)).
  unfold try_except, generate_images_try.
  unfold bind at 1.
  match goal with
  | |- context [create_job E ?i ?o ?m ?w0] =>
      destruct (create_job_spec i o m w0) as (w1 & rec & -> & Hrec & _)
  end.
  unfold bind at 1.
  destruct (_log_job_spec w1) as (w2 & -> & Hjobs2 & _).
  unfold bind at 1. rewrite Hv.
  unfold bind at 1, set_job_failed.
  destruct (update_job_spec job_id (JobTracker.failed_kwargs (str e)) w2)
    as (w3 & -> & Hjobs3 & _).
  unfold bind at 1.
  destruct (_log_job_spec w3) as (w4 & -> & Hjobs4 & _).
  unfold raise. exists w4. rewrite Hjobs4, Hjobs3.
  rewrite <- Hjobs2 in Hrec.
  split_and!; [done| |]; read_field Hrec.
Qed.


Lemma limiter_check_run client_host w :
  limiter_check E client_host w
  = (Return
       (fst (RateLimiter.check_rate_limit (limiter w) client_host
               (timestamp (utcnow E (clock_reads w))))),
     set_limiter
       (snd (RateLimiter.check_rate_limit (limiter w) client_host
               (timestamp (utcnow E (clock_reads w)))))
       (set_clock_reads (S (clock_reads w)) w)).
Proof.
  unfold limiter_check, bind, utcnow_timestamp. simpl limiter.
  by destruct (RateLimiter.check_rate_limit _ _ _).
Qed.

End ServiceRuns.

(** C2, as the code has it — when the rate-limit dependency runs for a
    client the limiter rejects, it raises the 429 [HTTPException] and the
    job registry is as it was; but when [generate_images] is called with
    dimensions that [_validate_image_size] refuses, the [ValueError] is
    raised only after the job was created: the registry then holds that
    job, [failed], with the validation message. *)
Theorem turned_away_requests_and_the_registry (E : env)
    (self : ImageGenerationService) (client_host : string)
    (request : ImageGenerationRequest.t) (w : world) :
  let allowed :=
    fst (RateLimiter.check_rate_limit (limiter w) client_host
           (timestamp (utcnow E (clock_reads w)))) in
  let limited := Main.check_rate_limit E (RequestObject (Some client_host)) w in
  let outcome := generate_images E self request w in
  let job_id := uuid4 E (uuids w) in
  (allowed = false →
   fst limited
   = HTTPException 429 "Rate limit exceeded. Please try again later."
   ∧ jobs (snd limited) = jobs w)
  ∧ (∀ msg,
       fst (_validate_image_size E (ImageGenerationRequest.width request)
              (ImageGenerationRequest.height request) w)
       = Raise (ValueError msg) →
       fst outcome = Raise (ValueError msg)
       ∧ JobTracker.field (jobs (snd outcome)) job_id "status"
         = Some (VStr "failed")
       ∧ JobTracker.field (jobs (snd outcome)) job_id "error_message"
         = Some (VStr msg)
       ∧ fst (Main.generate_images E self request w) = HTTPException 400 msg).
Proof.
  intros allowed limited outcome job_id. subst limited outcome.
  split.
  - unfold Main.check_rate_limit. rewrite limiter_check_run. fold allowed.
    intros ->. by split.
  - intros msg Hbad.
    unfold Main.generate_images.
    destruct (generate_images_invalid_size E self request w (ValueError msg)
                Hbad) as (w' & -> & Hstatus & Herr).
    by split_and!.
Qed.

(** ** Text generation *)

Section TextFacts.

Context (E : env).

Lemma insert_by_confidence_perm x sorted :
  insert_by_confidence x sorted ≡ₚ x :: sorted.
Proof.
  induction sorted as [|y sorted IH]; simpl; [done|].
  destruct (PrimFloat.ltb _ _); [|done].
  rewrite IH. apply Permutation_swap.
Qed.

Lemma sort_by_confidence_perm l : sort_by_confidence l ≡ₚ l.
Proof.
  induction l as [|x l IH]; simpl; [done|].
  rewrite insert_by_confidence_perm. by rewrite IH.
Qed.

(** A [for] loop that runs to its end has appended, for each index, the
    stripped completion of one more POST, with its score. *)
Lemma variation_loop_returns request job_id indices :
  ∀ acc w vs w',
    variation_loop E request job_id indices acc w = (Return vs, w') →
    vs = (acc ++ map (fun k => scored request
                                 (completion E (openai_posts w + k)))
                   (seq 0 (length indices)))%list
    ∧ openai_posts w' = (openai_posts w + length indices)%nat.
Proof.
  induction indices as [|i indices IH]; intros acc w vs w'.
  - simpl. unfold ret. intros [= <- <-]. by rewrite app_nil_r, Nat.add_0_r.
  - simpl variation_loop. unfold bind at 1, _generate_single_text.
    destruct (openai_post E (openai_posts w)) as [msg|code err content|code e]
      eqn:Hpost; [intros [=]| |intros [=]].
    destruct (code =? 200)%Z; [|intros [=]].
    unfold bind at 1, set_job_processing.
    match goal with
    | |- context [update_job E ?j ?u ?w0] =>
        destruct (update_job_spec E j u w0) as (w2 & -> & _ & Hposts)
    end.
    simpl in Hposts.
    intros Hrun. apply IH in Hrun as [-> ->]. rewrite Hposts.
    split; [|simpl; lia].
    rewrite <- app_assoc. f_equal. simpl. f_equal.
    + unfold scored, completion. by rewrite Nat.add_0_r, Hpost.
    + rewrite <- seq_shift, map_map. apply map_ext. intros k.
      do 2 f_equal. lia.
Qed.

(** The body of [generate_text], when it returns. *)
Lemma generate_text_try_returns request job_id w response w' :
  generate_text_try E request job_id w = (Return response, w') →
  TextGenerationResponse.variations response
  = sort_by_confidence
      (map (fun k => scored request (completion E (openai_posts w + k)))
         (seq 0 (Z.to_nat (TextGenerationRequest.variation_count request)))).
Proof.
  unfold generate_text_try.
  unfold bind at 1.
  match goal with
  | |- context [create_job E ?i ?o ?m ?w0] =>
      destruct (create_job_spec E i o m w0) as (w1 & rec & -> & _ & Hp1)
  end.
  unfold bind at 1.
  destruct (_log_job_spec E w1) as (w2 & -> & _ & Hp2).
  unfold bind at 1, set_job_processing.
  destruct (update_job_spec E job_id (JobTracker.processing_kwargs 10) w2)
    as (w3 & -> & _ & Hp3).
  unfold bind at 1.
  destruct (update_job_spec E job_id (JobTracker.processing_kwargs 25) w3)
    as (w4 & -> & _ & Hp4).
  unfold bind at 1.
  destruct (variation_loop E request job_id _ [] w4) as [[vs|e] w5] eqn:Hloop;
    [|intros [=]].
  apply variation_loop_returns in Hloop as [-> _].
  rewrite length_seq, Hp4, Hp3, Hp2, Hp1. simpl app.
  unfold bind at 1, set_job_completed.
  match goal with
  | |- context [update_job E ?j ?u ?w0] =>
      destruct (update_job_spec E j u w0) as (w6 & -> & _ & _)
  end.
  unfold bind at 1.
  destruct (_log_job_spec E w6) as (w7 & -> & _ & _).
  unfold ret. by intros [= <- _].
Qed.

Lemma generate_text_returns request w response :
  fst (generate_text E request w) = Return response →
  TextGenerationResponse.variations response
  = sort_by_confidence
      (map (fun k => scored request (completion E (openai_posts w + k)))
         (seq 0 (Z.to_nat (TextGenerationRequest.variation_count request)))).
Proof.
  unfold generate_text, bind at 1, generate_job_id, try_except.
  destruct (generate_text_try E request _ _) as [[resp|e] w1] eqn:Hbody.
  - simpl. intros [= ->].
    by rewrite (generate_text_try_returns _ _ _ _ _ Hbody).
  - unfold bind at 1, set_job_failed.
    match goal with
    | |- context [update_job E ?j ?u ?w0] =>
        destruct (update_job_spec E j u w0) as (w2 & -> & _ & _)
    end.
    unfold bind at 1.
    destruct (_log_job_spec E w2) as (w3 & -> & _ & _).
    unfold raise. simpl. intros [=].
Qed.

End TextFacts.

(** The order of the scores on the four values they take. *)
Ltac score_cases H :=
  unfold score_values in H;
  repeat (apply elem_of_cons in H as [->|H]);
  [..|by apply elem_of_nil in H].

Lemma _calculate_confidence_score_values text request :
  _calculate_confidence_score text request ∈ score_values.
Proof.
  unfold _calculate_confidence_score.
  repeat match goal with
         | |- context [if ?b then _ else _] => destruct b
         end;
    apply list_elem_of_In; vm_compute; tauto.
Qed.

Lemma score_lt_le a b :
  a ∈ score_values → b ∈ score_values →
  PrimFloat.ltb a b = true → PrimFloat.leb a b = true.
Proof.
  intros Ha Hb. score_cases Ha; score_cases Hb; vm_compute; congruence.
Qed.

Lemma score_total a b :
  a ∈ score_values → b ∈ score_values →
  PrimFloat.ltb a b = false → PrimFloat.leb b a = true.
Proof.
  intros Ha Hb. score_cases Ha; score_cases Hb; vm_compute; congruence.
Qed.

Lemma score_trans a b c :
  a ∈ score_values → b ∈ score_values → c ∈ score_values →
  PrimFloat.leb c b = true → PrimFloat.leb b a = true →
  PrimFloat.leb c a = true.
Proof.
  intros Ha Hb Hc.
  score_cases Ha; score_cases Hb; score_cases Hc; vm_compute; congruence.
Qed.

Section SortedByScore.

(** [later] does not score higher than [earlier]. *)
Local Abbreviation not_higher :=
  (fun earlier later : GeneratedText.t =>
     PrimFloat.leb (GeneratedText.confidence_score later)
       (GeneratedText.confidence_score earlier) = true).

Local Abbreviation valued :=
  (fun v : GeneratedText.t =>
     GeneratedText.confidence_score v ∈ score_values).

Lemma insert_by_confidence_sorted x sorted :
  valued x → Forall valued sorted →
  StronglySorted not_higher sorted →
  StronglySorted not_higher (insert_by_confidence x sorted).
Proof.
  intros Hx Hall Hsorted.
  induction Hsorted as [|y rest Hrest IH Hy]; simpl.
  - repeat constructor.
  - apply Forall_cons in Hall as [Hvy Hall].
    destruct (PrimFloat.ltb _ _) eqn:Hlt.
    + constructor; [by apply IH|].
      rewrite insert_by_confidence_perm. constructor; [|done].
      by apply score_lt_le.
    + constructor; [by constructor|].
      assert (Hxy : not_higher x y) by by apply score_total.
      constructor; [done|].
      apply Forall_forall. intros z Hz.
      rewrite Forall_forall in Hy, Hall.
      apply (score_trans _ (GeneratedText.confidence_score y));
        [done|done|by apply Hall|by apply Hy|done].
Qed.

Lemma sort_by_confidence_sorted l :
  Forall valued l → StronglySorted not_higher (sort_by_confidence l).
Proof.
  induction l as [|x l IH]; intros Hall; simpl; [constructor|].
  apply Forall_cons in Hall as [Hx Hall].
  apply insert_by_confidence_sorted; [done| |by apply IH].
  fold (sort_by_confidence l). by rewrite sort_by_confidence_perm.
Qed.

Lemma sorted_highest_score_first l :
  StronglySorted not_higher l → highest_score_first l.
Proof.
  induction 1 as [|x l Hl IH Hx]; intros i j earlier later Hij Hi Hj.
  - by rewrite lookup_nil in Hi.
  - destruct j as [|j]; [lia|]. simpl in Hj.
    destruct i as [|i]; simpl in Hi.
    + injection Hi as <-. rewrite Forall_lookup in Hx. by eapply Hx.
    + eapply IH; [|done|done]. lia.
Qed.

Lemma sort_by_confidence_highest_first request texts :
  highest_score_first (sort_by_confidence (map (scored request) texts)).
Proof.
  apply sorted_highest_score_first, sort_by_confidence_sorted.
  apply Forall_map, Forall_true. intros text.
  apply _calculate_confidence_score_values.
Qed.

End SortedByScore.

(** C7, as the code has it — [generate_text] never shortens a text: when it
    returns, its variations are exactly the completions of the [n] POSTs,
    each stripped of surrounding whitespace and paired with its confidence
    score, and they come highest score first; so every returned variation
    is within [max_length] exactly when every stripped completion is. *)
Theorem generate_text_returns_completions_whole (E : env)
    (request : TextGenerationRequest.t) (w : world)
    (response : TextGenerationResponse.t) :
  fst (generate_text E request w) = Return response →
  let n := Z.to_nat (TextGenerationRequest.variation_count request) in
  let completions :=
    map (fun k => completion E (openai_posts w + k)) (seq 0 n) in
  let within (text : string) :=
    (Z.of_nat (String.length text)
     ≤ TextGenerationRequest.max_length request)%Z in
  map GeneratedText.text (TextGenerationResponse.variations response)
  ≡ₚ completions
  ∧ Forall (fun v => v = scored request (GeneratedText.text v))
      (TextGenerationResponse.variations response)
  ∧ highest_score_first (TextGenerationResponse.variations response)
  ∧ (Forall (fun v => within (GeneratedText.text v))
       (TextGenerationResponse.variations response)
     ↔ Forall within completions).
Proof.
  intros Hret n completions within.
  apply generate_text_returns in Hret. fold n in Hret.
  assert (Hperm :
    map GeneratedText.text (TextGenerationResponse.variations response)
    ≡ₚ completions).
  { rewrite Hret, sort_by_confidence_perm. subst completions.
    by rewrite map_map. }
  split_and!.
  - done.
  - rewrite Hret, sort_by_confidence_perm.
    rewrite Forall_map. apply Forall_true. intros k. reflexivity.
  - rewrite Hret, <- (map_map _ (scored request)).
    apply sort_by_confidence_highest_first.
  - rewrite <- Hperm. rewrite Forall_map. done.
Qed.

(** * The statements on concrete runs *)

(** A job that was completed goes back to [processing]. *)
Lemma completed_job_regresses :
  let completed :=
    JobTracker.set_job_completed demo_jobs "job-1"
      "https://replicate.delivery/out-0.png" "2025-01-01T00:01:00" in
  let after :=
    JobTracker.set_job_processing completed "job-1" 10%float
      "2025-01-01T00:02:00" in
  JobTracker.field completed "job-1" "status" = Some (VStr "completed")
  ∧ JobTracker.is_terminal (VStr "completed") = true
  ∧ JobTracker.field after "job-1" "status" = Some (VStr "processing")
  ∧ JobTracker.is_terminal (VStr "processing") = false
  ∧ JobTracker.field after "job-1" "progress" = Some (VFloat 10%float).
Proof. vm_compute. split_and!; reflexivity. Qed.

Lemma demo_record_present (rl : RateLimiter.t) :
  jobs (demo_world demo_jobs rl) !! "job-1" = Some demo_record.
Proof. apply lookup_insert_eq. Qed.

Lemma set_job_processing_overwrites_terminal_witness :
  demo_jobs !! "job-1" = Some demo_record
  ∧ JobTracker.field
      (JobTracker.set_job_processing
         (JobTracker.set_job_failed demo_jobs "job-1" "Generation failed: OOM"
            "2025-01-01T00:01:00")
         "job-1" 10%float "2025-01-01T00:02:00")
      "job-1" "status" = Some (VStr "processing").
Proof.
  assert (Hrec : demo_jobs !! "job-1" = Some demo_record)
    by apply lookup_insert_eq.
  split; [exact Hrec|].
  pose proof (set_job_processing_overwrites_terminal demo_jobs "job-1"
                demo_record "https://replicate.delivery/out-0.png"
                "Generation failed: OOM" 10%float "2025-01-01T00:01:00"
                "2025-01-01T00:02:00" Hrec) as H.
  cbv zeta in H. destruct H as (_ & _ & _ & _ & _ & H & _). exact H.
Defined.

Lemma update_job_unknown_id_witness :
  jobs (demo_world demo_jobs (RateLimiter.init 60 60)) !! "job-2" = None
  ∧ set_job_completed (demo_env 2048 always_processing) "job-2"
      "https://replicate.delivery/out-0.png"
      (demo_world demo_jobs (RateLimiter.init 60 60))
    = (Return tt, demo_world demo_jobs (RateLimiter.init 60 60)).
Proof.
  assert (Hnone :
    jobs (demo_world demo_jobs (RateLimiter.init 60 60)) !! "job-2" = None)
    by (vm_compute; reflexivity).
  split; [exact Hnone|].
  pose proof (update_job_unknown_id (demo_env 2048 always_processing)
                (demo_world demo_jobs (RateLimiter.init 60 60)) "job-2" ∅
                10%float "https://replicate.delivery/out-0.png" "boom"
                "2025-01-01T00:01:00" Hnone) as H.
  destruct H as (_ & _ & H & _). exact H.
Defined.

Lemma burst_allows_exactly_max_requests_witness :
  RateLimiter.burst 60 [1000%float; 1001.5%float; 1002%float] = true
  ∧ RateLimiter.all_expired 60 1070%float
      (take 2 [1000%float; 1001.5%float; 1002%float]) = true
  ∧ fst (RateLimiter.check_all (RateLimiter.init 2 60) "10.0.0.1"
           [1000%float; 1001.5%float; 1002%float])
    = (repeat true 2 ++ [false])%list
  ∧ fst (RateLimiter.check_rate_limit
           (snd (RateLimiter.check_all (RateLimiter.init 2 60) "10.0.0.1"
                   [1000%float; 1001.5%float; 1002%float]))
           "10.0.0.1" 1070%float) = true.
Proof.
  assert (Hburst :
    RateLimiter.burst 60 [1000%float; 1001.5%float; 1002%float] = true)
    by (vm_compute; reflexivity).
  assert (Hlater :
    RateLimiter.all_expired 60 1070%float
      (take 2 [1000%float; 1001.5%float; 1002%float]) = true)
    by (vm_compute; reflexivity).
  pose proof (burst_allows_exactly_max_requests (RateLimiter.init 2 60)
                "10.0.0.1" 2 1000%float [1001.5%float; 1002%float]
                1070%float eq_refl eq_refl eq_refl Hburst) as [H1 H2].
  split_and!; [exact Hburst|exact Hlater|exact H1|].
  apply H2; [lia|exact Hlater].
Defined.

Lemma rejected_check_consumes_no_quota_witness :
  RateLimiter.check_rate_limit full_limiter "10.0.0.1" 1000%float
  = (false,
     snd (RateLimiter.check_rate_limit full_limiter "10.0.0.1" 1000%float))
  ∧ fst (RateLimiter.check_rate_limit full_limiter "10.0.0.1" 1051%float)
    = true
  ∧ fst (RateLimiter.check_rate_limit
           (snd (RateLimiter.check_rate_limit full_limiter "10.0.0.1"
                   1000%float))
           "10.0.0.1" 1051%float) = true.
Proof.
  assert (Hrej :
    RateLimiter.check_rate_limit full_limiter "10.0.0.1" 1000%float
    = (false,
       snd (RateLimiter.check_rate_limit full_limiter "10.0.0.1" 1000%float)))
    by (vm_compute; reflexivity).
  assert (Hadm :
    fst (RateLimiter.check_rate_limit full_limiter "10.0.0.1" 1051%float)
    = true) by (vm_compute; reflexivity).
  pose proof (rejected_check_consumes_no_quota full_limiter _ "10.0.0.1"
                1000%float Hrej) as (_ & _ & _ & _ & H & _).
  split_and!; [exact Hrej|exact Hadm|exact (H 1051%float Hadm)].
Defined.

Lemma poll_returns_after_k_plus_one_fetches_witness :
  let E := demo_env 2048 (processing_then_succeeded 3) in
  let w := demo_world demo_jobs (RateLimiter.init 60 60) in
  let p := {| status := "succeeded";
              output := Some ["https://replicate.delivery/out-0.png"];
              error := None |} in
  (3 < max_retries)%nat
  ∧ replicate_get E (http_gets w + 3) = GetJSON p
  ∧ fst (_poll_prediction E "prediction-1" "job-1" w)
    = Return ["https://replicate.delivery/out-0.png"]
  ∧ http_gets (snd (_poll_prediction E "prediction-1" "job-1" w))
    = (http_gets w + (3 + 1))%nat
  ∧ JobTracker.field (jobs (snd (_poll_prediction E "prediction-1" "job-1" w)))
      "job-1" "progress" = Some (VFloat 100%float).
Proof.
  intros E w p.
  assert (Hk : (3 < max_retries)%nat) by (unfold max_retries; lia).
  assert (Hget : replicate_get E (http_gets w + 3) = GetJSON p)
    by reflexivity.
  assert (Hproc : ∀ i, (i < 3)%nat →
            ∃ q, replicate_get E (http_gets w + i) = GetJSON q
                 ∧ status q = "processing").
  { intros i Hi. destruct i as [|[|[|i]]]; [| | |lia];
      (eexists; split; reflexivity). }
  pose proof (poll_returns_after_k_plus_one_fetches E w "prediction-1" "job-1"
                demo_record 3 p Hk (demo_record_present _) Hproc Hget eq_refl)
    as (H1 & H2 & H3).
  split_and!; [exact Hk|exact Hget|exact H1|exact H2|exact H3].
Defined.

Lemma poll_times_out_without_completing_witness :
  let E := demo_env 2048 always_processing in
  let w := demo_world demo_jobs (RateLimiter.init 60 60) in
  nonterminal (replicate_get E 59) = true
  ∧ fst (_poll_prediction E "prediction-1" "job-1" w)
    = Raise (Exception
               "Generation timeout - prediction took too long to complete")
  ∧ http_gets (snd (_poll_prediction E "prediction-1" "job-1" w))
    = (http_gets w + max_retries)%nat.
Proof.
  intros E w.
  assert (Hnon : ∀ i, (i < max_retries)%nat →
            nonterminal (replicate_get E (http_gets w + i)) = true)
    by (intros i _; reflexivity).
  pose proof (poll_times_out_without_completing E w "prediction-1" "job-1"
                Hnon) as (H1 & H2 & _).
  split_and!; [reflexivity|exact H1|exact H2].
Defined.

Lemma redis_check_rate_limit_fails_open_witness :
  Cache.check_rate_limit
    {| Cache.redis_client := Some broken_redis;
       Cache.today := Some "20250101" |}
    "user-1" "image_generation" 0 = true
  ∧ Cache.check_rate_limit (Cache.module_globals None)
      "user-1" "image_generation" 0 = true.
Proof.
  split.
  - apply redis_check_rate_limit_fails_open. right.
    exists broken_redis. split; [reflexivity|].
    intros key. exists "Connection refused". reflexivity.
  - apply redis_check_rate_limit_fails_open. left. reflexivity.
Defined.

(** A request the schema accepts and the size check refuses:
    [generate_images] raises the [ValueError], and the registry has gained
    a record. *)
Lemma validation_error_leaves_a_job_record :
  let E := demo_env 1024 always_processing in
  let w := demo_world ∅ (RateLimiter.init 60 60) in
  let outcome := generate_images E image_generation_service wide_request w in
  ImageGenerationRequest.well_formed wide_request = true
  ∧ fst outcome
    = Raise (ValueError "Image dimensions cannot exceed 1024x1024")
  ∧ jobs w !! "job-0" = None
  ∧ JobTracker.field (jobs (snd outcome)) "job-0" "status"
    = Some (VStr "failed").
Proof. vm_compute. split_and!; reflexivity. Qed.

Lemma turned_away_requests_and_the_registry_witness :
  let E := demo_env 1024 always_processing in
  let limited := demo_world ∅ full_limiter in
  let free := demo_world ∅ (RateLimiter.init 60 60) in
  (fst (Main.check_rate_limit E (RequestObject (Some "10.0.0.1")) limited)
   = HTTPException 429 "Rate limit exceeded. Please try again later."
   ∧ jobs (snd (Main.check_rate_limit E (RequestObject (Some "10.0.0.1"))
                  limited)) = jobs limited)
  ∧ (fst (generate_images E image_generation_service wide_request free)
     = Raise (ValueError "Image dimensions cannot exceed 1024x1024")
     ∧ JobTracker.field
         (jobs (snd (generate_images E image_generation_service wide_request
                       free)))
         (uuid4 E (uuids free)) "status" = Some (VStr "failed")
     ∧ JobTracker.field
         (jobs (snd (generate_images E image_generation_service wide_request
                       free)))
         (uuid4 E (uuids free)) "error_message"
       = Some (VStr "Image dimensions cannot exceed 1024x1024")).
Proof.
  intros E limited free. split.
  - pose proof (turned_away_requests_and_the_registry E
                  image_generation_service "10.0.0.1" wide_request limited)
      as [H _].
    cbv zeta in H. apply H. vm_compute. reflexivity.
  - pose proof (turned_away_requests_and_the_registry E
                  image_generation_service "10.0.0.1" wide_request free)
      as [_ H].
    cbv zeta in H.
    destruct (H "Image dimensions cannot exceed 1024x1024")
      as (H1 & H2 & H3 & _); [vm_compute; reflexivity|].
    split_and!; [exact H1|exact H2|exact H3].
Defined.

(** Three completions of 60 characters for a request of at most 20: all
    three are returned whole. *)
Lemma overlong_variations_are_returned :
  TextGenerationRequest.well_formed short_copy_request = true
  ∧ TextGenerationRequest.max_length short_copy_request = 20%Z
  ∧ fst (generate_text (demo_env 2048 always_processing) short_copy_request
           (demo_world ∅ (RateLimiter.init 60 60)))
    = Return short_copy_response
  ∧ map (fun v => String.length (GeneratedText.text v))
      (TextGenerationResponse.variations short_copy_response)
    = [60; 60; 60]%nat.
Proof. vm_compute. split_and!; reflexivity. Qed.

Lemma generate_text_returns_completions_whole_witness :
  let E := demo_env 2048 always_processing in
  let w := demo_world ∅ (RateLimiter.init 60 60) in
  fst (generate_text E short_copy_request w) = Return short_copy_response
  ∧ map GeneratedText.text
      (TextGenerationResponse.variations short_copy_response)
    ≡ₚ map (fun k => completion E (openai_posts w + k))
         (seq 0 (Z.to_nat
                   (TextGenerationRequest.variation_count short_copy_request))).
Proof.
  intros E w.
  assert (Hret :
    fst (generate_text E short_copy_request w) = Return short_copy_response)
    by (vm_compute; reflexivity).
  pose proof (generate_text_returns_completions_whole E short_copy_request w
                short_copy_response Hret) as H.
  cbv zeta in H. destruct H as (H & _ & _).
  split; [exact Hret|exact H].
Defined.

(** * Further properties *)

(** ** The job tracker's records *)

Section TrackerRecords.

Implicit Types (jobs : registry) (rec updates : gmap string pyval).

Lemma create_job_same jobs job_id operation metadata created updated :
  JobTracker.create_job jobs job_id operation metadata created updated
  !! job_id
  = Some (<["job_id" := VStr job_id]>
          (<["operation" := VStr operation]>
          (<["status" := VStr "pending"]>
          (<["progress" := VFloat 0%float]>
          (<["created_at" := VStr created]>
          (<["updated_at" := VStr updated]>
          (<["result_url" := VNone]>
          (<["error_message" := VNone]>
          (<["metadata" := VDict metadata]> ∅))))))))).
Proof. unfold JobTracker.create_job. apply lookup_insert_eq. Qed.

Lemma create_job_other jobs job_id other operation metadata created updated :
  other ≠ job_id →
  JobTracker.create_job jobs job_id operation metadata created updated
  !! other = jobs !! other.
Proof. intros H. unfold JobTracker.create_job. by apply lookup_insert_ne. Qed.

End TrackerRecords.

(** Looking a literal key up in a record as [create_job] builds it. *)
Ltac fresh_lookup :=
  repeat first [ rewrite lookup_insert_eq
               | rewrite lookup_insert_ne by key_neq
               | rewrite lookup_empty ];
  try reflexivity.

(** Reading a literal key of an updated record [<[updated_at := _]>
    (kwargs ∪ rec)], in the goal or in a hypothesis. *)
Ltac upd_lookup :=
  first [ erewrite updated_record_new; [|key_neq|kwargs_lookup]
        | rewrite updated_record_old; [|key_neq|kwargs_lookup] ].

Ltac upd_lookup_in H :=
  first [ erewrite updated_record_new in H; [|key_neq|kwargs_lookup]
        | rewrite updated_record_old in H; [|key_neq|kwargs_lookup] ].

Section TrackerInvariant.

Implicit Types (jobs : registry) (rec updates : gmap string pyval).

Lemma updated_record_is_Some rec updates now key :
  is_Some (rec !! key) →
  is_Some ((<["updated_at" := VStr now]> (updates ∪ rec)) !! key).
Proof.
  intros H. destruct (decide (key = "updated_at")) as [->|Hne].
  - rewrite lookup_insert_eq. by eexists.
  - rewrite lookup_insert_ne by done. apply lookup_union_is_Some. by right.
Qed.

Lemma record_ok_created job_id operation metadata created updated :
  record_ok job_id
    (<["job_id" := VStr job_id]>
     (<["operation" := VStr operation]>
     (<["status" := VStr "pending"]>
     (<["progress" := VFloat 0%float]>
     (<["created_at" := VStr created]>
     (<["updated_at" := VStr updated]>
     (<["result_url" := VNone]>
     (<["error_message" := VNone]>
     (<["metadata" := VDict metadata]> ∅))))))))).
Proof.
  unfold record_ok. split_and!.
  - fresh_lookup.
  - intros key Hkey. unfold record_keys in Hkey.
    repeat (apply elem_of_cons in Hkey as [->|Hkey];
            [fresh_lookup; by eexists|]).
    by apply elem_of_nil in Hkey.
  - exists "pending". split; [fresh_lookup|]. apply elem_of_cons. by left.
  - intros _. split_and!; fresh_lookup.
  - fresh_lookup. intros [=].
  - fresh_lookup. intros [=].
Qed.

Lemma record_ok_processing job_id rec p now :
  record_ok job_id rec →
  record_ok job_id
    (<["updated_at" := VStr now]> (JobTracker.processing_kwargs p ∪ rec)).
Proof.
  intros (Hid & Hkeys & _ & _ & _ & _). unfold record_ok. split_and!.
  - by upd_lookup.
  - intros key Hkey. by apply updated_record_is_Some, Hkeys.
  - exists "processing". split; [by upd_lookup|].
    apply elem_of_cons. right. apply elem_of_cons. by left.
  - intros H. upd_lookup_in H. discriminate H.
  - intros H. upd_lookup_in H. discriminate H.
  - intros H. upd_lookup_in H. discriminate H.
Qed.

Lemma record_ok_completed job_id rec url now :
  record_ok job_id rec →
  record_ok job_id
    (<["updated_at" := VStr now]> (JobTracker.completed_kwargs url ∪ rec)).
Proof.
  intros (Hid & Hkeys & _ & _ & _ & _). unfold record_ok. split_and!.
  - by upd_lookup.
  - intros key Hkey. by apply updated_record_is_Some, Hkeys.
  - exists "completed". split; [by upd_lookup|].
    do 2 (apply elem_of_cons; right). apply elem_of_cons. by left.
  - intros H. upd_lookup_in H. discriminate H.
  - intros _. split; [by upd_lookup|]. exists url. by upd_lookup.
  - intros H. upd_lookup_in H. discriminate H.
Qed.

Lemma record_ok_failed job_id rec msg now :
  record_ok job_id rec →
  record_ok job_id
    (<["updated_at" := VStr now]> (JobTracker.failed_kwargs msg ∪ rec)).
Proof.
  intros (Hid & Hkeys & _ & _ & _ & _). unfold record_ok. split_and!.
  - by upd_lookup.
  - intros key Hkey. by apply updated_record_is_Some, Hkeys.
  - exists "failed". split; [by upd_lookup|].
    do 3 (apply elem_of_cons; right). apply elem_of_cons. by left.
  - intros H. upd_lookup_in H. discriminate H.
  - intros H. upd_lookup_in H. discriminate H.
  - intros _. exists msg. by upd_lookup.
Qed.

Lemma update_job_keeps_invariant jobs job_id updates now :
  (∀ rec, record_ok job_id rec →
          record_ok job_id (<["updated_at" := VStr now]> (updates ∪ rec))) →
  map_Forall record_ok jobs →
  map_Forall record_ok (JobTracker.update_job jobs job_id updates now).
Proof.
  intros Hstep Hall. unfold JobTracker.update_job.
  destruct (jobs !! job_id) as [rec|] eqn:Hrec; [|done].
  apply map_Forall_insert_2; [|done]. apply Hstep. by apply (Hall _ _ Hrec).
Qed.

Lemma apply_call_keeps_invariant jobs c :
  map_Forall record_ok jobs → map_Forall record_ok (apply_call jobs c).
Proof.
  intros Hall. destruct c; simpl.
  - unfold JobTracker.create_job. apply map_Forall_insert_2; [|done].
    apply record_ok_created.
  - apply update_job_keeps_invariant; [|done].
    intros rec. apply record_ok_processing.
  - apply update_job_keeps_invariant; [|done].
    intros rec. apply record_ok_completed.
  - apply update_job_keeps_invariant; [|done].
    intros rec. apply record_ok_failed.
Qed.

Lemma run_calls_snoc calls c :
  run_calls (calls ++ [c]) = apply_call (run_calls calls) c.
Proof. unfold run_calls. by rewrite foldl_app. Qed.

End TrackerInvariant.

(** X1 — [create_job] then [get_job]: the record read back is [pending]
    with progress 0.0, no result and no error, and carries the operation
    name and the metadata given; this also holds when the id was already in
    use (the old record, whatever its state, is replaced); every other id
    reads as before. *)
Theorem create_job_then_get_job (jobs : registry) (job_id operation : string)
    (metadata : list (string * pyval)) (created updated : string) :
  let jobs' :=
    JobTracker.create_job jobs job_id operation metadata created updated in
  JobTracker.field jobs' job_id "status" = Some (VStr "pending")
  ∧ JobTracker.field jobs' job_id "progress" = Some (VFloat 0%float)
  ∧ JobTracker.field jobs' job_id "result_url" = Some VNone
  ∧ JobTracker.field jobs' job_id "error_message" = Some VNone
  ∧ JobTracker.field jobs' job_id "operation" = Some (VStr operation)
  ∧ JobTracker.field jobs' job_id "metadata" = Some (VDict metadata)
  ∧ JobTracker.field jobs' job_id "created_at" = Some (VStr created)
  ∧ JobTracker.field jobs' job_id "updated_at" = Some (VStr updated)
  ∧ ∀ other, other ≠ job_id →
      JobTracker.get_job jobs' other = JobTracker.get_job jobs other.
Proof.
  intros jobs'. subst jobs'. unfold JobTracker.field, JobTracker.get_job.
  rewrite !create_job_same. simpl.
  split_and!; try fresh_lookup.
  intros other Hne. by apply create_job_other.
Qed.

Lemma setter_dom (jobs : registry) (c : tracker_call) :
  created_id c = None → dom (apply_call jobs c) = dom jobs.
Proof.
  intros Hc. destruct c as [| j p now | j url now | j msg now];
    [discriminate Hc| | |]; simpl;
    unfold JobTracker.set_job_processing, JobTracker.set_job_completed,
      JobTracker.set_job_failed, JobTracker.update_job;
    (destruct (jobs !! j) as [rec|] eqn:Hrec; [|done]);
    rewrite dom_insert_L; apply elem_of_dom_2 in Hrec;
    apply subseteq_union_1_L; by apply singleton_subseteq_l.
Qed.

(** X2 — a setter touches one record: [set_job_processing],
    [set_job_completed] and [set_job_failed] leave the record of every other
    job as it was, and the set of known job ids unchanged (none is added,
    none is removed). *)
Theorem setters_touch_one_record (jobs : registry) (c : tracker_call) :
  created_id c = None →
  dom (apply_call jobs c) = dom jobs
  ∧ ∀ other, other ≠ call_id c → apply_call jobs c !! other = jobs !! other.
Proof.
  intros Hc. split; [by apply setter_dom|].
  destruct c as [| j p now | j url now | j msg now];
    [discriminate Hc| | |]; simpl;
    unfold JobTracker.set_job_processing, JobTracker.set_job_completed,
      JobTracker.set_job_failed;
    intros other Hne; by rewrite update_job_other.
Qed.

(** X3 — what the setters keep, on an existing job: [set_job_failed] leaves
    the progress and the result URL as they were, [set_job_completed] leaves
    the error message, [set_job_processing] leaves both the result URL and
    the error message; all three keep the job id, the operation name, the
    creation stamp and the metadata, and stamp [updated_at] with the
    current time. *)
Theorem setters_keep_the_other_fields (jobs : registry) (job_id : string)
    (rec : gmap string pyval) (p : float) (url msg now : string) :
  jobs !! job_id = Some rec →
  let processing := JobTracker.set_job_processing jobs job_id p now in
  let completed := JobTracker.set_job_completed jobs job_id url now in
  let failed := JobTracker.set_job_failed jobs job_id msg now in
  (JobTracker.field failed job_id "progress" = rec !! "progress"
   ∧ JobTracker.field failed job_id "result_url" = rec !! "result_url"
   ∧ JobTracker.field completed job_id "error_message"
     = rec !! "error_message"
   ∧ JobTracker.field processing job_id "result_url" = rec !! "result_url"
   ∧ JobTracker.field processing job_id "error_message"
     = rec !! "error_message")
  ∧ (∀ after, after ∈ [processing; completed; failed] →
       JobTracker.field after job_id "updated_at" = Some (VStr now)
       ∧ ∀ key, key ∈ ["job_id"; "operation"; "created_at"; "metadata"] →
           JobTracker.field after job_id key = rec !! key).
Proof.
  intros Hrec processing completed failed.
  subst processing completed failed.
  unfold JobTracker.set_job_processing, JobTracker.set_job_completed,
    JobTracker.set_job_failed.
  split.
  - split_and!; rewrite (field_update_job_same _ _ _ _ _ _ Hrec);
      by upd_lookup.
  - intros after Hafter.
    repeat (apply elem_of_cons in Hafter as [->|Hafter]);
      [| | |by apply elem_of_nil in Hafter].
    all: split;
      [rewrite (field_update_job_same _ _ _ _ _ _ Hrec);
       by rewrite lookup_insert_eq|].
    all: intros key Hkey;
      rewrite (field_update_job_same _ _ _ _ _ _ Hrec);
      repeat (apply elem_of_cons in Hkey as [->|Hkey]; [by upd_lookup|]);
      by apply elem_of_nil in Hkey.
Qed.

(** X4 — in the registry of a tracker that was only used through
    [create_job] and the three setters, every record is stored under its own
    job id, has all nine keys, and has one of the statuses [pending],
    [processing], [completed], [failed] ([cancelled] is never written); a
    [pending] record is as created (progress 0.0, no result, no error), a
    [completed] one has progress 100.0 and a result URL, a [failed] one has
    an error message. *)
Theorem tracker_records_well_formed (calls : list tracker_call)
    (job_id : string) (rec : gmap string pyval) :
  JobTracker.get_job (run_calls calls) job_id = Some rec →
  record_ok job_id rec.
Proof.
  unfold JobTracker.get_job. revert job_id rec.
  change (map_Forall record_ok (run_calls calls)).
  induction calls as [|c calls IH] using rev_ind.
  - apply map_Forall_empty.
  - rewrite run_calls_snoc. by apply apply_call_keeps_invariant.
Qed.

(** X5 — the tracker knows exactly the ids that were created: [get_job]
    finds a record if and only if some earlier call was a [create_job] of
    that id; no call ever removes a record. *)
Theorem tracker_knows_created_ids (calls : list tracker_call)
    (job_id : string) :
  is_Some (JobTracker.get_job (run_calls calls) job_id)
  ↔ Some job_id ∈ map created_id calls.
Proof.
  unfold JobTracker.get_job.
  induction calls as [|c calls IH] using rev_ind.
  - unfold run_calls. simpl. rewrite lookup_empty. split.
    + by intros [? [=]].
    + by intros ?%elem_of_nil.
  - rewrite run_calls_snoc, map_app, elem_of_app. simpl.
    rewrite <- IH. clear IH.
    rewrite <- !elem_of_dom.
    destruct (created_id c) as [j|] eqn:Hc.
    + destruct c; try discriminate Hc. injection Hc as ->. simpl.
      unfold JobTracker.create_job. rewrite dom_insert_L.
      rewrite elem_of_union, elem_of_singleton, elem_of_cons.
      split.
      * intros [->|H]; [right; by left|by left].
      * intros [H|[[= ->]|H%elem_of_nil]]; [by right|by left|done].
    + rewrite (setter_dom (run_calls calls) c Hc).
      split; [by left|].
      intros [H|[H|H%elem_of_nil]%elem_of_cons]; [done|discriminate H|done].
Qed.

(** ** The rate limiter's state *)

Section LimiterState.

Import RateLimiter.

Lemma check_rate_limit_settings rl identifier now :
  max_requests (snd (check_rate_limit rl identifier now)) = max_requests rl
  ∧ window_seconds (snd (check_rate_limit rl identifier now))
    = window_seconds rl.
Proof. unfold check_rate_limit. by destruct (_ <=? _)%Z. Qed.

Lemma check_rate_limit_recorded rl identifier now :
  let kept :=
    List.filter (in_window (window_seconds rl) now) (recorded rl identifier) in
  recorded (snd (check_rate_limit rl identifier now)) identifier
  = if fst (check_rate_limit rl identifier now)
    then (kept ++ [now])%list else kept.
Proof.
  intros kept. unfold check_rate_limit. fold kept.
  destruct (_ <=? _)%Z; simpl; apply recorded_after.
Qed.

Lemma check_rate_limit_other rl identifier other now :
  other ≠ identifier →
  requests (snd (check_rate_limit rl identifier now)) !! other
  = requests rl !! other.
Proof.
  intros Hne. unfold check_rate_limit.
  destruct (_ <=? _)%Z; simpl; by rewrite lookup_insert_ne.
Qed.

Lemma check_all_other rl identifier other nows :
  other ≠ identifier →
  requests (snd (check_all rl identifier nows)) !! other
  = requests rl !! other
  ∧ max_requests (snd (check_all rl identifier nows)) = max_requests rl
  ∧ window_seconds (snd (check_all rl identifier nows)) = window_seconds rl.
Proof.
  intros Hne. revert rl.
  induction nows as [|now nows IH]; intros rl; [done|].
  rewrite check_all_cons.
  pose proof (check_rate_limit_other rl identifier other now Hne) as Hreq.
  pose proof (check_rate_limit_settings rl identifier now) as [Hm Hw].
  destruct (check_rate_limit rl identifier now) as [b rl1].
  specialize (IH rl1).
  destruct (check_all rl1 identifier nows) as [bs rl2].
  simpl in *. destruct IH as (-> & -> & ->). by split_and!.
Qed.

(** The answer and the list a call leaves depend only on the settings and
    on the list recorded for the identifier. *)
Lemma check_rate_limit_local rl1 rl2 identifier now :
  max_requests rl1 = max_requests rl2 →
  window_seconds rl1 = window_seconds rl2 →
  requests rl1 !! identifier = requests rl2 !! identifier →
  fst (check_rate_limit rl1 identifier now)
  = fst (check_rate_limit rl2 identifier now)
  ∧ recorded (snd (check_rate_limit rl1 identifier now)) identifier
    = recorded (snd (check_rate_limit rl2 identifier now)) identifier.
Proof.
  intros Hm Hw Hreq.
  assert (Hrec : recorded rl1 identifier = recorded rl2 identifier)
    by (unfold recorded; by rewrite Hreq).
  rewrite !check_rate_limit_recorded.
  unfold check_rate_limit. rewrite Hm, Hw, Hrec.
  by destruct (_ <=? _)%Z.
Qed.

End LimiterState.

(** X6 — identifiers do not interfere: whatever calls are made for one
    identifier, the list recorded for any other identifier stays as it was,
    and a call for that other identifier gets the same answer and leaves the
    same list as if the first identifier had never called. *)
Theorem limiter_identifiers_are_independent (rl : RateLimiter.t)
    (busy other : string) (nows : list float) (now : float) :
  other ≠ busy →
  let rl' := snd (RateLimiter.check_all rl busy nows) in
  RateLimiter.recorded rl' other = RateLimiter.recorded rl other
  ∧ fst (RateLimiter.check_rate_limit rl' other now)
    = fst (RateLimiter.check_rate_limit rl other now)
  ∧ RateLimiter.recorded (snd (RateLimiter.check_rate_limit rl' other now))
      other
    = RateLimiter.recorded (snd (RateLimiter.check_rate_limit rl other now))
        other.
Proof.
  intros Hne rl'.
  destruct (check_all_other rl busy other nows Hne) as (Hreq & Hm & Hw).
  fold rl' in Hreq, Hm, Hw.
  destruct (check_rate_limit_local rl' rl other now Hm Hw Hreq) as [H1 H2].
  split_and!; [|done|done].
  unfold RateLimiter.recorded. by rewrite Hreq.
Qed.

(** X7 — what a call leaves recorded: every timestamp kept for the
    identifier is inside the window of the call, or is the call's own; after
    an admitted call the list holds at most [max_requests] timestamps; and a
    list that is within the limit stays within it over any sequence of
    calls, so the memory per identifier is bounded by the limit. *)
Theorem limiter_keeps_pruned_bounded_lists (rl : RateLimiter.t)
    (identifier : string) (now : float) (nows : list float) :
  let after := snd (RateLimiter.check_rate_limit rl identifier now) in
  (∀ t, t ∈ RateLimiter.recorded after identifier →
        RateLimiter.in_window (RateLimiter.window_seconds rl) now t = true
        ∨ t = now)
  ∧ (fst (RateLimiter.check_rate_limit rl identifier now) = true →
     (Z.of_nat (length (RateLimiter.recorded after identifier))
      ≤ RateLimiter.max_requests rl)%Z)
  ∧ ((Z.of_nat (length (RateLimiter.recorded rl identifier))
      ≤ RateLimiter.max_requests rl)%Z →
     (Z.of_nat
        (length (RateLimiter.recorded
                   (snd (RateLimiter.check_all rl identifier nows))
                   identifier))
      ≤ RateLimiter.max_requests rl)%Z).
Proof.
  intros after. subst after. split_and!.
  - intros t. rewrite check_rate_limit_recorded.
    destruct (fst _).
    + rewrite elem_of_app, list_elem_of_singleton, list_elem_of_In.
      intros [[_ H]%filter_In|H]; [by left|by right].
    + rewrite list_elem_of_In. intros [_ H]%filter_In. by left.
  - rewrite check_rate_limit_recorded.
    unfold RateLimiter.check_rate_limit.
    destruct (Z.leb_spec (RateLimiter.max_requests rl)
                (Z.of_nat (length (List.filter
                   (RateLimiter.in_window (RateLimiter.window_seconds rl) now)
                   (RateLimiter.recorded rl identifier))))) as [|Hlt];
      simpl; [done|].
    intros _. rewrite length_app. simpl. lia.
  - revert rl. induction nows as [|t nows IH]; intros rl Hlen; [done|].
    rewrite check_all_cons.
    pose proof (check_rate_limit_recorded rl identifier t) as Hrec.
    pose proof (check_rate_limit_settings rl identifier t) as [Hm _].
    assert (Hstep :
      (Z.of_nat (length (RateLimiter.recorded
                           (snd (RateLimiter.check_rate_limit rl identifier t))
                           identifier))
       ≤ RateLimiter.max_requests rl)%Z).
    { rewrite Hrec. unfold RateLimiter.check_rate_limit.
      pose proof (filter_length_le
                    (RateLimiter.in_window (RateLimiter.window_seconds rl) t)
                    (RateLimiter.recorded rl identifier)).
      destruct (Z.leb_spec (RateLimiter.max_requests rl)
                  (Z.of_nat (length (List.filter
                     (RateLimiter.in_window (RateLimiter.window_seconds rl) t)
                     (RateLimiter.recorded rl identifier))))); simpl.
      - lia.
      - rewrite length_app. simpl. lia. }
    destruct (RateLimiter.check_rate_limit rl identifier t) as [b rl1].
    simpl in *. specialize (IH rl1). rewrite Hm in IH.
    destruct (RateLimiter.check_all rl1 identifier nows) as [bs rl2].
    simpl in *. by apply IH.
Qed.

(** X8 — a limit of zero (or less) shuts the identifier out: every call is
    rejected, whatever is recorded and whatever the time. *)
Theorem limiter_without_quota_rejects (rl : RateLimiter.t)
    (identifier : string) (nows : list float) :
  (RateLimiter.max_requests rl ≤ 0)%Z →
  fst (RateLimiter.check_all rl identifier nows)
  = repeat false (length nows).
Proof.
  intros Hmax. revert rl Hmax.
  induction nows as [|now nows IH]; intros rl Hmax; [done|].
  rewrite check_all_cons, check_rejected by lia.
  set (rl1 := RateLimiter.mk _ _ _).
  specialize (IH rl1 Hmax).
  destruct (RateLimiter.check_all rl1 identifier nows) as [bs rl2].
  simpl in *. by rewrite IH.
Qed.

(** ** The size check *)

(** X9 — [_validate_image_size] accepts exactly the sizes with both
    dimensions between 256 and [settings.max_image_size], and changes no
    state; when a dimension is too large the error names the maximum, even
    if the other dimension is too small; otherwise a dimension below 256
    gives the minimum-size error. *)
Theorem validate_image_size_accepts_the_range (E : env) (width height : Z)
    (w : world) :
  snd (_validate_image_size E width height w) = w
  ∧ (fst (_validate_image_size E width height w) = Return tt
     ↔ (256 ≤ width ≤ max_image_size E ∧ 256 ≤ height ≤ max_image_size E)%Z)
  ∧ ((max_image_size E < width ∨ max_image_size E < height)%Z →
     fst (_validate_image_size E width height w)
     = Raise (ValueError ("Image dimensions cannot exceed "
                          ++ str_int (max_image_size E) ++ "x"
                          ++ str_int (max_image_size E))))
  ∧ ((width ≤ max_image_size E ∧ height ≤ max_image_size E)%Z →
     (width < 256 ∨ height < 256)%Z →
     fst (_validate_image_size E width height w)
     = Raise (ValueError "Image dimensions must be at least 256x256")).
Proof.
  unfold _validate_image_size, raise, ret.
  destruct (Z.ltb_spec (max_image_size E) width),
    (Z.ltb_spec (max_image_size E) height),
    (Z.ltb_spec width 256), (Z.ltb_spec height 256); simpl;
    split_and!;
    try (split; intros);
    try intros;
    first [reflexivity | discriminate | lia].
Qed.

(** ** The poller's reach *)

Section PollerReach.

Context (E : env).

Lemma only_job_changed_refl job_id w : only_job_changed job_id w w.
Proof. by unfold only_job_changed. Qed.

Lemma only_job_changed_trans job_id w1 w2 w3 :
  only_job_changed job_id w1 w2 → only_job_changed job_id w2 w3 →
  only_job_changed job_id w1 w3.
Proof.
  intros (H1 & H2 & H3 & H4 & H5 & H6) (K1 & K2 & K3 & K4 & K5 & K6).
  unfold only_job_changed. rewrite K1, K2, K3, K4, K5. split_and!; try done.
  intros other Hne. by rewrite K6, H6.
Qed.

Lemma status_kept_or_processing_refl w : status_kept_or_processing w w.
Proof. intros other v H. by right. Qed.

Lemma status_kept_or_processing_trans w1 w2 w3 :
  status_kept_or_processing w1 w2 → status_kept_or_processing w2 w3 →
  status_kept_or_processing w1 w3.
Proof.
  intros H12 H23 other v H. destruct (H23 _ _ H) as [->|H2]; [by left|].
  by apply H12.
Qed.

Lemma after_update_only_job job_id updates w :
  only_job_changed job_id w (after_update E job_id updates w).
Proof.
  unfold after_update, only_job_changed.
  destruct (jobs w !! job_id) as [rec|] eqn:Hrec; [|done]. simpl.
  split_and!; try done.
  - unfold JobTracker.update_job. rewrite Hrec, dom_insert_L.
    apply elem_of_dom_2 in Hrec.
    apply subseteq_union_1_L. by apply singleton_subseteq_l.
  - intros other Hne. by apply update_job_other.
Qed.

Lemma after_processing_status job_id p w :
  status_kept_or_processing w
    (after_update E job_id (JobTracker.processing_kwargs p) w).
Proof.
  intros other v. destruct (decide (other = job_id)) as [->|Hne].
  - destruct (jobs w !! job_id) as [rec|] eqn:Hrec.
    + destruct (after_processing_fields E job_id p w rec Hrec) as [Hs _].
      rewrite Hs. intros [= <-]. by left.
    + unfold after_update. rewrite Hrec. by right.
  - rewrite after_update_jobs, field_update_job_other by done. by right.
Qed.

Lemma set_http_gets_only_job job_id n w :
  only_job_changed job_id w (set_http_gets n w)
  ∧ status_kept_or_processing w (set_http_gets n w).
Proof. split; [by unfold only_job_changed|intros other v H; by right]. Qed.

(** One pass of the loop: one more GET, and nothing reached but the job's
    own record, whose status can only become [processing]. *)
Lemma poll_once_reach prediction_id job_id retry_count w :
  http_gets (snd (poll_once E prediction_id job_id retry_count w))
  = S (http_gets w)
  ∧ only_job_changed job_id w
      (snd (poll_once E prediction_id job_id retry_count w))
  ∧ status_kept_or_processing w
      (snd (poll_once E prediction_id job_id retry_count w)).
Proof.
  destruct (set_http_gets_only_job job_id (S (http_gets w)) w) as [Ho Hs].
  assert (Hwrite : ∀ p,
    http_gets (after_update E job_id (JobTracker.processing_kwargs p)
                 (set_http_gets (S (http_gets w)) w)) = S (http_gets w)
    ∧ only_job_changed job_id w
        (after_update E job_id (JobTracker.processing_kwargs p)
           (set_http_gets (S (http_gets w)) w))
    ∧ status_kept_or_processing w
        (after_update E job_id (JobTracker.processing_kwargs p)
           (set_http_gets (S (http_gets w)) w))).
  { intros p. split_and!.
    - by rewrite after_update_http_gets.
    - eapply only_job_changed_trans; [exact Ho|].
      apply after_update_only_job.
    - eapply status_kept_or_processing_trans; [exact Hs|].
      apply after_processing_status. }
  unfold poll_once.
  destruct (replicate_get E (http_gets w)) as [msg|p|e|].
  - by split_and!.
  - destruct (String.eqb (status p) "succeeded").
    { rewrite set_job_processing_run. apply Hwrite. }
    destruct (String.eqb (status p) "failed"); [by split_and!|].
    destruct (_ || _); [|by split_and!].
    rewrite set_job_processing_run. apply Hwrite.
  - destruct e; by split_and!.
  - rewrite set_job_processing_run. apply Hwrite.
Qed.

Lemma poll_loop_reach prediction_id job_id attempts :
  ∀ retry_count w,
    let w' :=
      snd (poll_loop E attempts prediction_id job_id retry_count w) in
    (http_gets w ≤ http_gets w' ≤ http_gets w + attempts)%nat
    ∧ only_job_changed job_id w w'
    ∧ status_kept_or_processing w w'.
Proof.
  induction attempts as [|attempts IH]; intros retry_count w; simpl.
  - split_and!; [lia|lia|apply only_job_changed_refl
                |apply status_kept_or_processing_refl].
  - destruct (poll_once_reach prediction_id job_id retry_count w)
      as (Hg & Ho & Hs).
    destruct (poll_once E prediction_id job_id retry_count w) as [[r|] w1];
      simpl in *.
    + split_and!; [lia|lia|done|done].
    + destruct (IH (S retry_count) w1) as ((Hg1 & Hg2) & Ho1 & Hs1).
      split_and!; [lia|lia| |].
      * by eapply only_job_changed_trans.
      * by eapply status_kept_or_processing_trans.
Qed.

(** A prefix of answers that do not end the polling is skipped, one attempt
    each. *)
Lemma poll_loop_skips_nonterminal prediction_id job_id k :
  ∀ attempts retry_count w,
    (∀ i, (i < k)%nat →
          nonterminal (replicate_get E (http_gets w + i)) = true) →
    ∃ w',
      poll_loop E (k + attempts) prediction_id job_id retry_count w
      = poll_loop E attempts prediction_id job_id (k + retry_count) w'
      ∧ http_gets w' = (http_gets w + k)%nat
      ∧ only_job_changed job_id w w'
      ∧ status_kept_or_processing w w'.
Proof.
  induction k as [|k IH]; intros attempts retry_count w Hnon.
  - exists w. split_and!; [done|lia|apply only_job_changed_refl
                          |apply status_kept_or_processing_refl].
  - destruct (poll_once_nonterminal E prediction_id job_id retry_count w)
      as (w1 & Hone & Hg & _).
    { specialize (Hnon 0%nat). rewrite Nat.add_0_r in Hnon. apply Hnon. lia. }
    destruct (poll_once_reach prediction_id job_id retry_count w)
      as (_ & Ho & Hs).
    rewrite Hone in Ho, Hs. simpl in Ho, Hs.
    destruct (IH attempts (S retry_count) w1) as (w' & Hrun & Hg' & Ho' & Hs').
    { intros i Hi. rewrite Hg.
      replace (S (http_gets w) + i)%nat with (http_gets w + S i)%nat by lia.
      apply Hnon. lia. }
    exists w'. simpl poll_loop. rewrite Hone, Hrun.
    replace (k + S retry_count)%nat with (S k + retry_count)%nat by lia.
    split_and!; [done|lia| |].
    + by eapply only_job_changed_trans.
    + by eapply status_kept_or_processing_trans.
Qed.

Lemma poll_once_failed prediction_id job_id retry_count w p :
  replicate_get E (http_gets w) = GetJSON p →
  status p = "failed" →
  poll_once E prediction_id job_id retry_count w
  = (Leave (Raise (Exception ("Generation failed: " ++ error_text p))),
     set_http_gets (S (http_gets w)) w).
Proof.
  intros Hget Hst. unfold poll_once. by rewrite Hget, Hst.
Qed.

End PollerReach.

(** X10 — the poller reaches nothing but the polled job: on every run it
    makes at most 60 calls of the status endpoint, leaves the limiter, the
    other outside sources, the set of job ids and every other job's record
    as they were, and the only status it ever writes is [processing]. *)
Theorem poll_prediction_touches_only_its_job (E : env)
    (prediction_id job_id : string) (w : world) :
  let w' := snd (_poll_prediction E prediction_id job_id w) in
  (http_gets w ≤ http_gets w' ≤ http_gets w + max_retries)%nat
  ∧ only_job_changed job_id w w'
  ∧ status_kept_or_processing w w'.
Proof. apply poll_loop_reach. Qed.

(** X11 — a [failed] answer ends the polling at once: after [k] answers
    that do not end it ([k] below 60: transport errors, unknown statuses,
    [starting], [processing]) a [failed] answer makes the poller raise
    [Generation failed: ...] with the provider's error after exactly
    [k + 1] calls; the poller itself marks no job failed (a job reads
    [failed] afterwards only if it did before). *)
Theorem poll_raises_on_failed_prediction (E : env) (w : world)
    (prediction_id job_id : string) (k : nat) (p : prediction) :
  (k < max_retries)%nat →
  (∀ i, (i < k)%nat →
        nonterminal (replicate_get E (http_gets w + i)) = true) →
  replicate_get E (http_gets w + k) = GetJSON p →
  status p = "failed" →
  let w' := snd (_poll_prediction E prediction_id job_id w) in
  fst (_poll_prediction E prediction_id job_id w)
  = Raise (Exception ("Generation failed: " ++ error_text p))
  ∧ http_gets w' = (http_gets w + (k + 1))%nat
  ∧ ∀ other,
      JobTracker.field (jobs w') other "status" = Some (VStr "failed") →
      JobTracker.field (jobs w) other "status" = Some (VStr "failed").
Proof.
  intros Hk Hnon Hget Hst w'. subst w'. unfold _poll_prediction.
  assert (Hsplit : max_retries = (k + S (max_retries - S k))%nat) by lia.
  rewrite Hsplit. generalize (max_retries - S k)%nat. intros rest.
  destruct (poll_loop_skips_nonterminal E prediction_id job_id k
              (S rest) 0%nat w Hnon)
    as (w1 & -> & Hg & _ & Hs).
  rewrite <- Hg in Hget.
  simpl poll_loop. rewrite (poll_once_failed E _ _ _ _ _ Hget Hst). simpl.
  split_and!; [done|lia|].
  intros other H. destruct (Hs other _ H) as [[=]|]; done.
Qed.

(** X12 — transport errors and unknown statuses are survived: after [k]
    answers that do not end the polling ([k] below 60), whatever their mix,
    a [succeeded] answer is returned after exactly [k + 1] calls, and the
    record of an existing job then shows progress 100.0 with status
    [processing] (the completion is left to the caller). *)
Theorem poll_survives_transient_errors (E : env) (w : world)
    (prediction_id job_id : string) (k : nat) (p : prediction) :
  (k < max_retries)%nat →
  is_Some (jobs w !! job_id) →
  (∀ i, (i < k)%nat →
        nonterminal (replicate_get E (http_gets w + i)) = true) →
  replicate_get E (http_gets w + k) = GetJSON p →
  status p = "succeeded" →
  let w' := snd (_poll_prediction E prediction_id job_id w) in
  fst (_poll_prediction E prediction_id job_id w)
  = Return (output_or_empty p)
  ∧ http_gets w' = (http_gets w + (k + 1))%nat
  ∧ JobTracker.field (jobs w') job_id "progress" = Some (VFloat 100%float)
  ∧ JobTracker.field (jobs w') job_id "status" = Some (VStr "processing").
Proof.
  intros Hk Hjob Hnon Hget Hst w'. subst w'. unfold _poll_prediction.
  assert (Hsplit : max_retries = (k + S (max_retries - S k))%nat) by lia.
  rewrite Hsplit. generalize (max_retries - S k)%nat. intros rest.
  destruct (poll_loop_skips_nonterminal E prediction_id job_id k
              (S rest) 0%nat w Hnon)
    as (w1 & -> & Hg & Ho & _).
  rewrite <- Hg in Hget.
  simpl poll_loop. rewrite (poll_once_succeeded E _ _ _ _ _ Hget Hst). simpl.
  assert (Hjob1 : is_Some (jobs w1 !! job_id)).
  { destruct Ho as (_ & _ & _ & _ & Hdom & _).
    apply elem_of_dom. rewrite Hdom. by apply elem_of_dom. }
  destruct Hjob1 as [rec Hrec].
  destruct (after_processing_fields E job_id 100%float
              (set_http_gets (S (http_gets w1)) w1) rec Hrec) as [Hs Hp].
  split_and!; [done| |done|done].
  rewrite after_update_http_gets. simpl. lia.
Qed.

(** ** The progress the poller writes *)

Section PollerProgress.

Context (E : env).

Lemma in_progress_inv o :
  in_progress o = true →
  ∃ p, o = GetJSON p ∧ (status p = "starting" ∨ status p = "processing").
Proof.
  destruct o as [msg|p|e|]; try discriminate. simpl.
  intros [H|H]%orb_prop; apply String.eqb_eq in H; exists p; auto.
Qed.

Lemma in_progress_nonterminal o : in_progress o = true → nonterminal o = true.
Proof.
  intros (p & -> & [Hs|Hs])%in_progress_inv; simpl; by rewrite Hs.
Qed.

Lemma poll_once_quiet prediction_id job_id retry_count w :
  quiet (replicate_get E (http_gets w)) = true →
  poll_once E prediction_id job_id retry_count w
  = (Again, set_http_gets (S (http_gets w)) w).
Proof.
  unfold quiet, nonterminal, in_progress, poll_once.
  destruct (replicate_get E (http_gets w)) as [msg|p|e|].
  - done.
  - intros [[Hs Hf]%andb_prop Hp]%andb_prop.
    apply negb_true_iff in Hs, Hf, Hp. by rewrite Hs, Hf, Hp.
  - by destruct e.
  - done.
Qed.

(** Answers that write nothing are skipped, one attempt each, and leave
    the registry as it was. *)
Lemma poll_loop_skips_quiet prediction_id job_id k :
  ∀ attempts retry_count w,
    (∀ i, (i < k)%nat → quiet (replicate_get E (http_gets w + i)) = true) →
    ∃ w',
      poll_loop E (k + attempts) prediction_id job_id retry_count w
      = poll_loop E attempts prediction_id job_id (k + retry_count) w'
      ∧ http_gets w' = (http_gets w + k)%nat
      ∧ jobs w' = jobs w.
Proof.
  induction k as [|k IH]; intros attempts retry_count w Hquiet.
  - exists w. split_and!; [done|lia|done].
  - simpl poll_loop. rewrite poll_once_quiet.
    2:{ specialize (Hquiet 0%nat). rewrite Nat.add_0_r in Hquiet.
        apply Hquiet. lia. }
    destruct (IH attempts (S retry_count) (set_http_gets (S (http_gets w)) w))
      as (w' & Hrun & Hg & Hj).
    { intros i Hi. simpl http_gets.
      replace (S (http_gets w) + i)%nat with (http_gets w + S i)%nat by lia.
      apply Hquiet. lia. }
    exists w'. rewrite Hrun.
    replace (k + S retry_count)%nat with (S k + retry_count)%nat by lia.
    split_and!; [done|simpl in Hg; lia|done].
Qed.

(** A run whose last [starting] or [processing] answer comes on attempt
    [a], and which ends after [m] attempts by a [failed] answer or by the
    timeout, leaves the estimate of attempt [a] in the record. *)
Lemma poll_leaves_estimate prediction_id job_id w a m :
  (a < m ≤ max_retries)%nat →
  is_Some (jobs w !! job_id) →
  (∀ i, (i < a)%nat →
        nonterminal (replicate_get E (http_gets w + i)) = true) →
  in_progress (replicate_get E (http_gets w + a)) = true →
  (∀ i, (a < i < m)%nat →
        quiet (replicate_get E (http_gets w + i)) = true) →
  ((m < max_retries)%nat →
   ∃ p, replicate_get E (http_gets w + m) = GetJSON p
        ∧ status p = "failed") →
  let w' := snd (_poll_prediction E prediction_id job_id w) in
  (∃ e, fst (_poll_prediction E prediction_id job_id w) = Raise e)
  ∧ JobTracker.field (jobs w') job_id "progress"
    = Some (VFloat (progress_estimate a))
  ∧ JobTracker.field (jobs w') job_id "status" = Some (VStr "processing").
Proof.
  intros [Ha Hm] Hjob Hnon Hin Hquiet Hend w'. subst w'.
  unfold _poll_prediction.
  assert (Hsplit :
    max_retries = (a + S ((m - S a) + (max_retries - m)))%nat) by lia.
  rewrite Hsplit.
  destruct (poll_loop_skips_nonterminal E prediction_id job_id a
              (S ((m - S a) + (max_retries - m))) 0%nat w Hnon)
    as (w1 & -> & Hg1 & Ho1 & _).
  assert (Hjob1 : is_Some (jobs w1 !! job_id)).
  { destruct Ho1 as (_ & _ & _ & _ & Hdom & _).
    apply elem_of_dom. rewrite Hdom. by apply elem_of_dom. }
  destruct Hjob1 as [rec Hrec].
  rewrite <- Hg1 in Hin.
  apply in_progress_inv in Hin as (p & Hget & Hst).
  simpl poll_loop.
  rewrite (poll_once_in_progress E _ _ _ _ _ Hget Hst).
  set (w2 := after_update E job_id _ _).
  assert (Hg2 : http_gets w2 = (http_gets w + S a)%nat).
  { subst w2. rewrite after_update_http_gets. simpl. lia. }
  destruct (after_processing_fields E job_id
              (progress_estimate (a + 0))
              (set_http_gets (S (http_gets w1)) w1) rec Hrec) as [Hs2 Hp2].
  fold w2 in Hs2, Hp2. rewrite Nat.add_0_r in Hp2.
  destruct (poll_loop_skips_quiet prediction_id job_id (m - S a)
              (max_retries - m) (S (a + 0)) w2)
    as (w3 & -> & Hg3 & Hj3).
  { intros i Hi. rewrite Hg2.
    replace (http_gets w + S a + i)%nat with (http_gets w + (S a + i))%nat
      by lia.
    apply Hquiet. lia. }
  rewrite <- Hj3 in Hs2, Hp2.
  destruct (decide (m < max_retries)%nat) as [Hlt|Hge].
  - destruct (Hend Hlt) as (q & Hq & Hqs).
    assert (Hrest : (max_retries - m = S (max_retries - S m))%nat) by lia.
    rewrite Hrest. simpl poll_loop.
    rewrite (poll_once_failed E _ _ _ w3 q).
    + simpl. split_and!; [by eexists|done|done].
    + rewrite Hg3, Hg2. rewrite <- Hq. f_equal. lia.
    + done.
  - assert (Hrest : (max_retries - m = 0)%nat) by lia.
    rewrite Hrest. simpl. split_and!; [by eexists|done|done].
Qed.





End PollerProgress.

(** C6 — the progress written on attempt [a] is the linear formula.  Take
    a run in which the answer on attempt [a] (counting from 0, so after [a]
    answers that did not end the polling, whatever they were) is [starting]
    or [processing], the later answers up to attempt [m] write nothing
    (transport errors, unknown statuses), and the run ends after [m]
    attempts, by a [failed] answer or, with [m] = 60, by the timeout.  The
    record of the job then shows the value written on attempt [a]:
    [50.0 + (a / 60) * 45.0], with status [processing]; and that value is
    strictly below 100. *)
Theorem poll_writes_linear_estimate (E : env) (w : world)
    (prediction_id job_id : string) (a m : nat) :
  (a < m ≤ max_retries)%nat →
  is_Some (jobs w !! job_id) →
  (∀ i, (i < a)%nat →
        nonterminal (replicate_get E (http_gets w + i)) = true) →
  in_progress (replicate_get E (http_gets w + a)) = true →
  (∀ i, (a < i < m)%nat →
        quiet (replicate_get E (http_gets w + i)) = true) →
  ((m < max_retries)%nat →
   ∃ p, replicate_get E (http_gets w + m) = GetJSON p
        ∧ status p = "failed") →
  let w' := snd (_poll_prediction E prediction_id job_id w) in
  JobTracker.field (jobs w') job_id "progress"
  = Some (VFloat (linear_estimate a))
  ∧ JobTracker.field (jobs w') job_id "status" = Some (VStr "processing")
  ∧ PrimFloat.ltb (linear_estimate a) 100%float = true.
Proof.
  intros Hm Hjob Hnon Hin Hquiet Hend w'. subst w'.
  destruct (poll_leaves_estimate E prediction_id job_id w a m
              Hm Hjob Hnon Hin Hquiet Hend) as (_ & Hp & Hs).
  destruct (progress_estimate_linear a ltac:(lia)) as [Heq Hlt].
  rewrite Heq in Hp. by split_and!.
Qed.


(** ** Reasoning along a service method *)

Section HoareRules.

Context (E : env).

Lemma hoare_bind {A B : Type} (P : world → Prop) (m : M A) (k : A → M B)
    (R : A → world → Prop) (Q : result B → world → Prop) :
  hoare P m (fun r w => match r with
                        | Return a => R a w
                        | Raise e => Q (Raise e) w
                        end) →
  (∀ a, hoare (R a) (k a) Q) →
  hoare P (bind m k) Q.
Proof.
  intros Hm Hk w HP. specialize (Hm w HP). unfold bind.
  destruct (m w) as [[a|e] w1]; simpl in *; [by apply Hk|done].
Qed.

Lemma hoare_try_except {A : Type} (P : world → Prop) (body : M A)
    (handler : exn → M A) (R : exn → world → Prop)
    (Q : result A → world → Prop) :
  hoare P body (fun r w => match r with
                           | Return a => Q (Return a) w
                           | Raise e => R e w
                           end) →
  (∀ e, hoare (R e) (handler e) Q) →
  hoare P (try_except body handler) Q.
Proof.
  intros Hb Hh w HP. specialize (Hb w HP). unfold try_except.
  destruct (body w) as [[a|e] w1]; simpl in *; [done|by apply Hh].
Qed.

Lemma hoare_weaken {A : Type} (P P' : world → Prop) (m : M A)
    (Q Q' : result A → world → Prop) :
  hoare P' m Q' → (∀ w, P w → P' w) → (∀ r w, Q' r w → Q r w) →
  hoare P m Q.
Proof. intros Hm HP HQ w Hw. by apply HQ, Hm, HP. Qed.

Lemma hoare_ret {A : Type} (a : A) (Q : result A → world → Prop) :
  hoare (Q (Return a)) (ret a) Q.
Proof. by intros w H. Qed.

Lemma hoare_raise {A : Type} (e : exn) (Q : result A → world → Prop) :
  hoare (Q (Raise e)) (raise e) Q.
Proof. by intros w H. Qed.

(** The singletons' operations. *)

Lemma hoare_generate_job_id (P : world → Prop) :
  hoare P (generate_job_id E)
    (fun r w' => ∃ w, P w ∧ r = Return (uuid4 E (uuids w))
                      ∧ w' = set_uuids (S (uuids w)) w).
Proof. intros w HP. exists w. by split_and!. Qed.

Lemma hoare_create_job job_id operation metadata (I : world → Prop) :
  (∀ w j n, I w → I (set_jobs j (set_clock_reads n w))) →
  hoare I (create_job E job_id operation metadata)
    (fun r w => r = Return tt ∧ tracked job_id w ∧ I w).
Proof.
  intros HI w Hw. rewrite create_job_run. simpl. split_and!; [done| |by apply HI].
  unfold tracked. simpl. unfold JobTracker.create_job.
  rewrite lookup_insert_eq. by eexists.
Qed.

Lemma hoare__log_job (I : world → Prop) :
  (∀ w n, I w → I (set_clock_reads n w)) →
  hoare I (_log_job E) (fun r w => r = Return tt ∧ I w).
Proof. intros HI w Hw. rewrite _log_job_run. simpl. split; [done|by apply HI]. Qed.

Lemma tracked_after_update job_id other updates w :
  tracked job_id w → tracked job_id (after_update E other updates w).
Proof.
  unfold tracked. intros H.
  destruct (after_update_only_job E other updates w)
    as (_ & _ & _ & _ & Hdom & _).
  apply elem_of_dom. rewrite Hdom. by apply elem_of_dom.
Qed.

Lemma hoare_update_job_tracked job_id other updates :
  hoare (tracked job_id) (update_job E other updates)
    (fun r w => r = Return tt ∧ tracked job_id w).
Proof.
  intros w Hw. rewrite update_job_run. simpl.
  split; [done|by apply tracked_after_update].
Qed.

Lemma hoare_post_prediction (I : world → Prop) :
  (∀ w n, I w → I (set_http_posts n w)) →
  hoare I (post_prediction E) (fun _ w => I w).
Proof.
  intros HI w Hw. unfold post_prediction.
  destruct (replicate_post E (http_posts w)); simpl; by apply HI.
Qed.

Lemma hoare__poll_prediction_tracked prediction_id job_id other :
  hoare (tracked other) (_poll_prediction E prediction_id job_id)
    (fun _ w => tracked other w).
Proof.
  intros w Hw.
  destruct (poll_loop_reach E prediction_id job_id max_retries 0%nat w)
    as (_ & (_ & _ & _ & _ & Hdom & _) & _).
  unfold _poll_prediction, tracked. apply elem_of_dom. rewrite Hdom. by apply elem_of_dom.
Qed.

End HoareRules.

Section ImageRuns.

Context (E : env).

(** A step that keeps [I] whatever its result, followed by a continuation
    verified from [I]. *)
Lemma hoare_step {A B : Type} (P I : world → Prop) (m : M A) (k : A → M B)
    (Q : result B → world → Prop) :
  hoare P m (fun _ w => I w) →
  (∀ e w, I w → Q (Raise e) w) →
  (∀ a, hoare I (k a) Q) →
  hoare P (bind m k) Q.
Proof.
  intros Hm Hraise Hk. apply (hoare_bind P m k (fun _ => I) Q); [|done].
  intros w HP. specialize (Hm w HP).
  destruct (m w) as [[a|e] w1]; simpl in *; [done|by apply Hraise].
Qed.

Lemma hoare_pure_step {A : Type} (I : world → Prop) (m : M A) :
  (∀ w, snd (m w) = w) → hoare I m (fun _ w => I w).
Proof. intros Hm w Hw. by rewrite Hm. Qed.

Lemma _validate_image_size_pure width height w :
  snd (_validate_image_size E width height w) = w.
Proof. unfold _validate_image_size. by repeat destruct (_ || _)%bool. Qed.

Lemma _build_enhanced_prompt_pure self prompt style w :
  snd (_build_enhanced_prompt self prompt style w) = w.
Proof. unfold _build_enhanced_prompt. by destruct (style_prompts self). Qed.


Lemma hoare_tracked_update job_id other updates :
  hoare (tracked job_id) (update_job E other updates)
    (fun _ w => tracked job_id w).
Proof. intros w Hw. rewrite update_job_run. by apply tracked_after_update. Qed.

Lemma hoare_tracked__log_job job_id :
  hoare (tracked job_id) (_log_job E) (fun _ w => tracked job_id w).
Proof. by intros w Hw. Qed.

Lemma hoare_tracked_create job_id operation metadata (P : world → Prop) :
  hoare P (create_job E job_id operation metadata)
    (fun _ w => tracked job_id w).
Proof.
  intros w _. rewrite create_job_run. unfold tracked. simpl.
  unfold JobTracker.create_job. rewrite lookup_insert_eq. by eexists.
Qed.

Lemma jobs_set_clock_reads n w : jobs (set_clock_reads n w) = jobs w.
Proof. reflexivity. Qed.

(** The last three steps of a successful run. *)
Lemma hoare_complete {A : Type} job_id url (a : A) :
  hoare (tracked job_id)
    (bind (set_job_completed E job_id url)
       (fun _ => bind (_log_job E) (fun _ => ret a)))
    (fun r w =>
       r = Return a
       ∧ JobTracker.field (jobs w) job_id "status" = Some (VStr "completed")
       ∧ JobTracker.field (jobs w) job_id "progress"
         = Some (VFloat 100%float)
       ∧ JobTracker.field (jobs w) job_id "result_url" = Some (VStr url)).
Proof.
  intros w [rec Hrec].
  assert (Hrun :
    bind (set_job_completed E job_id url)
      (fun _ => bind (_log_job E) (fun _ => ret a)) w
    = (Return a,
       set_clock_reads
         (S (clock_reads
               (after_update E job_id (JobTracker.completed_kwargs url) w)))
         (after_update E job_id (JobTracker.completed_kwargs url) w))).
  { unfold bind. rewrite set_job_completed_run. cbv beta iota.
    by rewrite _log_job_run. }
  rewrite Hrun. cbn [fst snd].
  rewrite jobs_set_clock_reads, after_update_jobs.
  split_and!; [done| | |]; read_field Hrec.
Qed.

(** The handler of the [except] clause. *)
Lemma hoare_fail {A : Type} job_id (e : exn) :
  hoare (tracked job_id)
    (bind (set_job_failed E job_id (str e))
       (fun _ => bind (_log_job E) (fun _ => raise (A := A) e)))
    (fun r w =>
       r = Raise e
       ∧ JobTracker.field (jobs w) job_id "status" = Some (VStr "failed")
       ∧ JobTracker.field (jobs w) job_id "error_message"
         = Some (VStr (str e))).
Proof.
  intros w [rec Hrec].
  assert (Hrun :
    bind (set_job_failed E job_id (str e))
      (fun _ => bind (_log_job E) (fun _ => raise (A := A) e)) w
    = (Raise e,
       set_clock_reads
         (S (clock_reads
               (after_update E job_id (JobTracker.failed_kwargs (str e)) w)))
         (after_update E job_id (JobTracker.failed_kwargs (str e)) w))).
  { unfold bind. rewrite set_job_failed_run. cbv beta iota.
    by rewrite _log_job_run. }
  rewrite Hrun. cbn [fst snd].
  rewrite jobs_set_clock_reads, after_update_jobs.
  split_and!; [done| |]; read_field Hrec.
Qed.

End ImageRuns.

Section ImageOutcome.

Context (E : env).

Lemma generate_images_try_tracked self request job_id :
  hoare (fun _ => True) (generate_images_try E self request job_id)
    (fun r w => match r with
                | Return _ => image_outcome_recorded request job_id r w
                | Raise _ => tracked job_id w
                end).
Proof.
  unfold generate_images_try. cbv zeta.
  eapply hoare_step; [apply hoare_tracked_create|done|intros _].
  eapply hoare_step; [apply hoare_tracked__log_job|done|intros _].
  eapply hoare_step;
    [apply hoare_pure_step, _validate_image_size_pure|done|intros _].
  eapply hoare_step; [apply hoare_tracked_update|done|intros _].
  eapply hoare_step;
    [apply hoare_pure_step, _build_enhanced_prompt_pure|done
    |intros enhanced_prompt].
  eapply hoare_step; [apply hoare_tracked_update|done|intros _].
  eapply hoare_step;
    [apply hoare_post_prediction; by intros|done|intros prediction_id].
  eapply hoare_step; [apply hoare_tracked_update|done|intros _].
  eapply hoare_step;
    [apply hoare__poll_prediction_tracked|done|intros result_urls].
  eapply hoare_weaken; [apply hoare_complete|done|].
  intros r w (-> & Hs & Hp & Hu). simpl. split_and!; [done|done|].
  by exists result_urls.
Qed.

Lemma generate_images_outcome self request w :
  image_outcome_recorded request (uuid4 E (uuids w))
    (fst (generate_images E self request w))
    (snd (generate_images E self request w)).
Proof.
  set (job_id := uuid4 E (uuids w)).
  assert (Hrun :
    generate_images E self request w
    = try_except (generate_images_try E self request job_id)
        (fun e => bind (set_job_failed E job_id (str e))
                    (fun _ => bind (_log_job E) (fun _ => raise e)))
        (set_uuids (S (uuids w)) w)) by reflexivity.
  rewrite Hrun.
  apply (hoare_try_except (fun _ => True) _ _ (fun _ => tracked job_id)
           (image_outcome_recorded request job_id)); [| |done].
  - eapply hoare_weaken; [apply generate_images_try_tracked|done|].
    intros [resp|e] w1 H; exact H.
  - intros e. eapply hoare_weaken; [apply hoare_fail|done|].
    intros r w1 (-> & Hs & He). by split.
Qed.

Lemma imap_urls (f : nat → string → GeneratedImage.t) urls :
  (∀ i url, GeneratedImage.url (f i url) = url) →
  map GeneratedImage.url (imap f urls) = urls.
Proof.
  revert f. induction urls as [|u urls IH]; intros f Hf; [done|].
  simpl. rewrite Hf. f_equal. apply IH. intros i url. apply Hf.
Qed.

End ImageOutcome.

(** X14 — no failure of [generate_images] goes unrecorded: whatever
    exception it raises (a refused size, a missing attribute, a transport
    error of the provider, a failed prediction, the polling timeout), the
    job it created is left [failed] with the exception's message as its
    error message, and the exception is raised again to the caller. *)
Theorem generate_images_records_every_failure (E : env)
    (self : ImageGenerationService) (request : ImageGenerationRequest.t)
    (w : world) (e : exn) :
  fst (generate_images E self request w) = Raise e →
  let w' := snd (generate_images E self request w) in
  let job_id := uuid4 E (uuids w) in
  JobTracker.field (jobs w') job_id "status" = Some (VStr "failed")
  ∧ JobTracker.field (jobs w') job_id "error_message" = Some (VStr (str e)).
Proof.
  intros Hr w' job_id.
  pose proof (generate_images_outcome E self request w) as H.
  rewrite Hr in H. exact H.
Qed.

(** X15 — a response of [generate_images] goes with a completed job: the
    job named in the response is the one created for the call, its record
    is [completed] with progress 100.0, its result URL is the URL of the
    first image (the empty string when the prediction gave none), and every
    image carries the requested width and height. *)
Theorem generate_images_completes_its_job (E : env)
    (self : ImageGenerationService) (request : ImageGenerationRequest.t)
    (w : world) (response : ImageGenerationResponse.t) :
  fst (generate_images E self request w) = Return response →
  let w' := snd (generate_images E self request w) in
  let job_id := uuid4 E (uuids w) in
  ImageGenerationResponse.job_id response = job_id
  ∧ JobTracker.field (jobs w') job_id "status" = Some (VStr "completed")
  ∧ JobTracker.field (jobs w') job_id "progress" = Some (VFloat 100%float)
  ∧ JobTracker.field (jobs w') job_id "result_url"
    = Some (VStr (hd "" (map GeneratedImage.url
                           (ImageGenerationResponse.images response))))
  ∧ Forall (fun image =>
              GeneratedImage.width image
              = ImageGenerationRequest.width request
              ∧ GeneratedImage.height image
                = ImageGenerationRequest.height request)
      (ImageGenerationResponse.images response).
Proof.
  intros Hr w' job_id.
  pose proof (generate_images_outcome E self request w) as H.
  rewrite Hr in H. destruct H as (Hs & Hp & urls & Hu & ->). simpl.
  split_and!; [done|done|done| |].
  - by rewrite imap_urls.
  - apply Forall_forall. intros image [i [url [-> _]]]%elem_of_lookup_imap.
    done.
Qed.

(** ** The image service and its route, as written *)

Section AsWritten.

Context (E : env).

Lemma same_traffic_refl w : same_traffic w w.
Proof. by unfold same_traffic. Qed.

Lemma same_traffic_trans w1 w2 w3 :
  same_traffic w1 w2 → same_traffic w2 w3 → same_traffic w1 w3.
Proof.
  intros (H1 & H2 & H3 & H4) (K1 & K2 & K3 & K4).
  unfold same_traffic. by rewrite K1, K2, K3, K4.
Qed.

Lemma create_job_traffic job_id operation metadata w :
  ∃ w', create_job E job_id operation metadata w = (Return tt, w')
        ∧ same_traffic w w'.
Proof. rewrite create_job_run. eexists. split; [reflexivity|done]. Qed.

Lemma _log_job_traffic w :
  ∃ w', _log_job E w = (Return tt, w') ∧ same_traffic w w'.
Proof. rewrite _log_job_run. eexists. split; [reflexivity|done]. Qed.

Lemma update_job_traffic job_id updates w :
  ∃ w', update_job E job_id updates w = (Return tt, w') ∧ same_traffic w w'.
Proof.
  rewrite update_job_run. eexists. split; [reflexivity|].
  destruct (after_update_only_job E job_id updates w)
    as (Hl & _ & Hp & Ho & _).
  unfold same_traffic. by rewrite after_update_http_gets, Hl, Hp, Ho.
Qed.

(** The handler of the [except] clause contacts nobody. *)
Lemma fail_traffic {A : Type} job_id (e : exn) w :
  ∃ w',
    bind (set_job_failed E job_id (str e))
      (fun _ => bind (_log_job E) (fun _ => raise (A := A) e)) w
    = (Raise e, w')
    ∧ same_traffic w w'.
Proof.
  unfold bind at 1, set_job_failed.
  destruct (update_job_traffic job_id (JobTracker.failed_kwargs (str e)) w)
    as (w1 & -> & H1).
  unfold bind at 1. destruct (_log_job_traffic w1) as (w2 & -> & H2).
  exists w2. split; [done|]. by eapply same_traffic_trans.
Qed.

(** The instance [image_generation_service] never gets as far as the
    provider. *)
Lemma generate_images_as_written_run request w :
  ∃ w',
    generate_images E image_generation_service request w
    = (match fst (_validate_image_size E
                    (ImageGenerationRequest.width request)
                    (ImageGenerationRequest.height request) w) with
       | Return _ => Raise missing_style_prompts
       | Raise e => Raise e
       end, w')
    ∧ same_traffic w w'.
Proof.
  unfold generate_images, bind at 1, generate_job_id.
  set (job_id := uuid4 E (uuids w)).
  assert (H0 : same_traffic w (set_uuids (S (uuids w)) w)) by done.
  revert H0. generalize (set_uuids (S (uuids w)) w). intros w0 H0.
  unfold try_except, generate_images_try. cbv zeta.
  unfold bind at 1.
  match goal with
  | |- context [create_job E ?i ?o ?m ?x] =>
      destruct (create_job_traffic i o m x) as (w1 & -> & H1)
  end.
  unfold bind at 1. destruct (_log_job_traffic w1) as (w2 & -> & H2).
  assert (H02 : same_traffic w w2)
    by (eapply same_traffic_trans; [|exact H2];
        eapply same_traffic_trans; [exact H0|exact H1]).
  unfold bind at 1.
  destruct (fst (_validate_image_size E
                   (ImageGenerationRequest.width request)
                   (ImageGenerationRequest.height request) w))
    as [[]|e] eqn:Hv.
  - assert (Hv2 : _validate_image_size E
                    (ImageGenerationRequest.width request)
                    (ImageGenerationRequest.height request) w2
                  = (Return tt, w2)).
    { revert Hv. unfold _validate_image_size, raise, ret.
      by repeat destruct (_ || _)%bool. }
    rewrite Hv2.
    unfold bind at 1, set_job_processing.
    destruct (update_job_traffic job_id (JobTracker.processing_kwargs 10) w2)
      as (w3 & -> & H3).
    unfold bind at 1, _build_enhanced_prompt.
    change (style_prompts image_generation_service)
      with (@None (ImageStyleEnum → option string)).
    unfold raise at 1.
    destruct (fail_traffic (A := ImageGenerationResponse.t) job_id
                missing_style_prompts w3) as (w4 & Hrun & H4).
    cbv beta iota. fold missing_style_prompts. rewrite Hrun.
    exists w4. split; [done|].
    eapply same_traffic_trans; [exact H02|].
    by eapply same_traffic_trans.
  - rewrite (_validate_image_size_raises E _ _ _ _ Hv w2).
    destruct (fail_traffic (A := ImageGenerationResponse.t) job_id e w2)
      as (w3 & -> & H3).
    exists w3. split; [done|]. by eapply same_traffic_trans.
Qed.

End AsWritten.

(** X16 — as the service object is built ([__init__] sets no
    [style_prompts]), [generate_images] cannot succeed: a request whose size
    is refused raises the size error, every other request raises the
    [AttributeError] of the missing attribute; in both cases neither the
    provider nor the limiter is contacted, and neither the path operation
    function nor the route ever answers with a response. *)
Theorem generate_images_as_written_never_succeeds (E : env)
    (request : ImageGenerationRequest.t) (w : world) :
  let checked :=
    fst (_validate_image_size E (ImageGenerationRequest.width request)
           (ImageGenerationRequest.height request) w) in
  let out := generate_images E image_generation_service request w in
  fst out = match checked with
            | Return _ => Raise missing_style_prompts
            | Raise e => Raise e
            end
  ∧ same_traffic w (snd out)
  ∧ (∀ response,
       fst (Main.generate_images E image_generation_service request w)
       ≠ Response response)
  ∧ ∀ query_request body w0 response,
      fst (Main.post_generate_images E image_generation_service
             query_request body w0) ≠ OK response.
Proof.
  intros checked out. subst checked out.
  destruct (generate_images_as_written_run E request w) as (w' & Hrun & Ht).
  rewrite Hrun. split_and!; [done|done| |].
  - intros response. unfold Main.generate_images. rewrite Hrun.
    unfold missing_style_prompts.
    destruct (fst (_validate_image_size E _ _ w)) as [[]|[]];
      simpl; discriminate.
  - intros [s|] body w0 response; simpl; discriminate.
Qed.


(** ** Text generation, from request to record *)

Section TextOutcome.

Context (E : env).

Lemma hoare_tracked_at_update job_id posts other updates :
  hoare (tracked_at job_id posts) (update_job E other updates)
    (fun r w => r = Return tt ∧ tracked_at job_id posts w).
Proof.
  intros w [Ht Hp]. rewrite update_job_run. simpl.
  split; [done|]. split; [by apply tracked_after_update|].
  by rewrite after_update_openai_posts.
Qed.

Lemma hoare_tracked_at__log_job job_id posts :
  hoare (tracked_at job_id posts) (_log_job E)
    (fun r w => r = Return tt ∧ tracked_at job_id posts w).
Proof. by intros w H. Qed.

Lemma hoare_tracked_at_create job_id posts operation metadata :
  hoare (fun w => openai_posts w = posts)
    (create_job E job_id operation metadata)
    (fun r w => r = Return tt ∧ tracked_at job_id posts w).
Proof.
  intros w Hp. rewrite create_job_run. simpl. split; [done|].
  split; [|done]. unfold tracked. simpl. unfold JobTracker.create_job.
  rewrite lookup_insert_eq. by eexists.
Qed.

(** A step that cannot raise, followed by a continuation verified from what
    the step establishes. *)
Lemma hoare_total_step {A B : Type} (P I : world → Prop) (m : M A)
    (k : A → M B) (Q : result B → world → Prop) :
  hoare P m (fun r w => (∃ a, r = Return a) ∧ I w) →
  (∀ a, hoare I (k a) Q) →
  hoare P (bind m k) Q.
Proof.
  intros Hm Hk. apply (hoare_bind P m k (fun _ => I) Q); [|done].
  intros w HP. destruct (Hm w HP) as [[a Ha] HI]. by rewrite Ha.
Qed.

Lemma hoare_unit_step {B : Type} (P I : world → Prop) (m : M unit)
    (k : unit → M B) (Q : result B → world → Prop) :
  hoare P m (fun r w => r = Return tt ∧ I w) →
  hoare I (k tt) Q →
  hoare P (bind m k) Q.
Proof.
  intros Hm Hk. apply (hoare_total_step P I); [|by intros []].
  intros w HP. destruct (Hm w HP) as [-> HI]. split; [by eexists|done].
Qed.

Lemma hoare__generate_single_text job_id posts i :
  hoare (tracked_at job_id posts) (_generate_single_text E i)
    (fun r w => match r with
                | Return _ => tracked_at job_id (S posts) w
                | Raise _ => tracked job_id w
                end).
Proof.
  intros w [Ht Hp]. unfold _generate_single_text.
  destruct (openai_post E (openai_posts w)) as [msg|code err content|code e0];
    [done| |done].
  destruct (code =? 200)%Z; [|done].
  split; [done|]. simpl. by rewrite Hp.
Qed.

(** The [for] loop: it keeps the job tracked, makes one POST per index it
    gets to, and when it runs to its end it has appended one variation per
    index. *)
Lemma variation_loop_spec request job_id indices :
  ∀ acc posts,
    hoare (tracked_at job_id posts)
      (variation_loop E request job_id indices acc)
      (fun r w =>
         tracked job_id w
         ∧ match r with
           | Return vs =>
               length vs = (length acc + length indices)%nat
               ∧ openai_posts w = (posts + length indices)%nat
           | Raise _ => True
           end).
Proof.
  induction indices as [|i indices IH]; intros acc posts.
  - intros w [Ht Hp]. simpl. split; [done|]. split; lia.
  - simpl variation_loop.
    eapply (hoare_bind _ _ _ (fun _ => tracked_at job_id (S posts))).
    { intros w Hw.
      pose proof (hoare__generate_single_text job_id posts i w Hw) as H.
      by destruct (fst (_generate_single_text E i w)). }
    intros variation_text. cbv zeta.
    eapply hoare_unit_step; [apply hoare_tracked_at_update|].
    eapply hoare_weaken; [apply IH|done|].
    intros [vs|e] w [Ht Hr]; [|done].
    rewrite length_app in Hr. simpl in Hr. simpl. split; [done|]. lia.
Qed.

Lemma sort_by_confidence_length l :
  length (sort_by_confidence l) = length l.
Proof. apply Permutation_length, sort_by_confidence_perm. Qed.

Lemma complete_keeps_openai_posts {A : Type} job_id url (a : A) w :
  openai_posts
    (snd (bind (set_job_completed E job_id url)
            (fun _ => bind (_log_job E) (fun _ => ret a)) w))
  = openai_posts w.
Proof.
  unfold bind. rewrite set_job_completed_run. cbv beta iota.
  rewrite _log_job_run. cbn [fst snd].
  apply (after_update_openai_posts E job_id (JobTracker.completed_kwargs url)).
Qed.

Lemma fail_keeps_openai_posts {A : Type} job_id e w :
  openai_posts
    (snd (bind (set_job_failed E job_id (str e))
            (fun _ => bind (_log_job E) (fun _ => @raise A e)) w))
  = openai_posts w.
Proof.
  unfold bind. rewrite set_job_failed_run. cbv beta iota.
  rewrite _log_job_run. cbn [fst snd].
  apply (after_update_openai_posts E job_id
           (JobTracker.failed_kwargs (str e))).
Qed.

Lemma generate_text_try_tracked request job_id posts :
  hoare (fun w => openai_posts w = posts)
    (generate_text_try E request job_id)
    (fun r w => match r with
                | Return _ =>
                    text_outcome_recorded E request job_id posts r w
                | Raise _ => tracked job_id w
                end).
Proof.
  unfold generate_text_try.
  eapply hoare_unit_step; [apply hoare_tracked_at_create|].
  eapply hoare_unit_step; [apply hoare_tracked_at__log_job|].
  eapply hoare_unit_step; [apply hoare_tracked_at_update|].
  eapply hoare_unit_step; [apply hoare_tracked_at_update|].
  eapply (hoare_bind _ _ _
            (fun vs w =>
               tracked job_id w
               ∧ length vs
                 = Z.to_nat (TextGenerationRequest.variation_count request)
               ∧ openai_posts w
                 = (posts
                    + Z.to_nat
                        (TextGenerationRequest.variation_count request))%nat)).
  - intros w Hw.
    destruct (variation_loop_spec request job_id
                (seq 0 (Z.to_nat
                          (TextGenerationRequest.variation_count request)))
                [] posts w Hw) as [Ht Hr].
    destruct (fst (variation_loop _ _ _ _ _ _)); [|done].
    rewrite length_seq in Hr. simpl in Hr. by split.
  - intros vs w (Ht & Hl & Ho). cbv zeta.
    pose proof (hoare_complete E job_id
                  (match sort_by_confidence vs with
                   | v :: _ => GeneratedText.text v
                   | [] => ""
                   end)
                  (TextGenerationResponse.mk (sort_by_confidence vs)
                     (TextGenerationRequest.context request)
                     (TextGenerationRequest.tone request) job_id) w Ht)
      as (Hr & Hs & Hp & Hu).
    rewrite Hr. unfold text_outcome_recorded.
    cbn [TextGenerationResponse.variations TextGenerationResponse.job_id].
    rewrite sort_by_confidence_length, complete_keeps_openai_posts.
    by split_and!.
Qed.

Lemma generate_text_outcome request w :
  text_outcome_recorded E request (uuid4 E (uuids w)) (openai_posts w)
    (fst (generate_text E request w)) (snd (generate_text E request w)).
Proof.
  set (job_id := uuid4 E (uuids w)).
  assert (Hrun :
    generate_text E request w
    = try_except (generate_text_try E request job_id)
        (fun e => bind (set_job_failed E job_id (str e))
                    (fun _ => bind (_log_job E) (fun _ => raise e)))
        (set_uuids (S (uuids w)) w)) by reflexivity.
  rewrite Hrun.
  apply (hoare_try_except (fun w0 => openai_posts w0 = openai_posts w) _ _
           (fun _ => tracked job_id)
           (text_outcome_recorded E request job_id (openai_posts w)));
    [| |done].
  - intros w1 Hp.
    pose proof (generate_text_try_tracked request job_id (openai_posts w)
                  w1 Hp) as H.
    by destruct (fst (generate_text_try _ _ _ _)).
  - intros e. eapply hoare_weaken; [apply hoare_fail|done|].
    intros r w1 (-> & Hs & He). by split.
Qed.

End TextOutcome.

(** X18. [generate_text] always leaves its outcome in the registry, under
    the id it drew.  When it returns, the response carries that id and as
    many variations as were asked for, one POST went to the completions
    endpoint per variation, and the job is completed at 100 with the text of
    the first returned variation as its result; when it raises, the job is
    failed with the text of the exception. *)
Theorem generate_text_records_its_outcome (E : env)
    (request : TextGenerationRequest.t) (w : world) :
  text_outcome_recorded E request (uuid4 E (uuids w)) (openai_posts w)
    (fst (generate_text E request w)) (snd (generate_text E request w)).
Proof. apply generate_text_outcome. Qed.

Section TextAbort.

Context (E : env).

Lemma hoare_posts_update posts job_id updates :
  hoare (fun w => openai_posts w = posts) (update_job E job_id updates)
    (fun r w => r = Return tt ∧ openai_posts w = posts).
Proof.
  intros w Hp. rewrite update_job_run. simpl. split; [done|].
  by rewrite after_update_openai_posts.
Qed.

Lemma hoare_posts_create posts job_id operation metadata :
  hoare (fun w => openai_posts w = posts)
    (create_job E job_id operation metadata)
    (fun r w => r = Return tt ∧ openai_posts w = posts).
Proof. intros w Hp. by rewrite create_job_run. Qed.

Lemma hoare_posts__log_job posts :
  hoare (fun w => openai_posts w = posts) (_log_job E)
    (fun r w => r = Return tt ∧ openai_posts w = posts).
Proof. by intros w Hp. Qed.

(** The loop stops at the first answer that is an error: the exception is
    that answer's, and no later request is made. *)
Lemma variation_loop_aborts request job_id e :
  ∀ k indices acc posts,
    (k < length indices)%nat →
    (∀ j, (j < k)%nat → provider_error (openai_post E (posts + j)) = None) →
    provider_error (openai_post E (posts + k)) = Some e →
    hoare (fun w => openai_posts w = posts)
      (variation_loop E request job_id indices acc)
      (fun r w => r = Raise e ∧ openai_posts w = (posts + S k)%nat).
Proof.
  induction k as [|k IH]; intros [|i indices] acc posts Hk Hok Herr;
    simpl in Hk; try lia; simpl variation_loop.
  - eapply (hoare_bind _ _ _ (fun _ _ => False)); [|by intros ? ? []].
    intros w Hp. unfold _generate_single_text. rewrite Hp.
    replace (posts + 0)%nat with posts in Herr by lia.
    unfold provider_error in Herr.
    destruct (openai_post E posts) as [msg|code err content|code e0].
    + simpl. split; [congruence|lia].
    + destruct (code =? 200)%Z; [done|]. simpl. split; [congruence|lia].
    + simpl. split; [congruence|lia].
  - eapply (hoare_bind _ _ _ (fun _ w => openai_posts w = S posts)).
    { intros w Hp. unfold _generate_single_text. rewrite Hp.
      specialize (Hok 0%nat ltac:(lia)).
      replace (posts + 0)%nat with posts in Hok by lia.
      unfold provider_error in Hok.
      destruct (openai_post E posts) as [msg|code err content|code e0];
        [done| |done].
      by destruct (code =? 200)%Z. }
    intros variation_text. cbv zeta.
    eapply hoare_unit_step; [apply hoare_posts_update|].
    eapply hoare_weaken; [apply (IH indices _ (S posts))|done|].
    + lia.
    + intros j Hj. replace (S posts + j)%nat with (posts + S j)%nat by lia.
      apply Hok. lia.
    + by replace (S posts + k)%nat with (posts + S k)%nat by lia.
    + intros r w [-> Hp]. split; [done|]. lia.
Qed.

Lemma generate_text_aborts request w k e :
  (k < Z.to_nat (TextGenerationRequest.variation_count request))%nat →
  (∀ j, (j < k)%nat →
        provider_error (openai_post E (openai_posts w + j)) = None) →
  provider_error (openai_post E (openai_posts w + k)) = Some e →
  fst (generate_text E request w) = Raise e
  ∧ openai_posts (snd (generate_text E request w))
    = (openai_posts w + S k)%nat.
Proof.
  intros Hk Hok Herr.
  set (job_id := uuid4 E (uuids w)).
  assert (Hrun :
    generate_text E request w
    = try_except (generate_text_try E request job_id)
        (fun e => bind (set_job_failed E job_id (str e))
                    (fun _ => bind (_log_job E) (fun _ => raise e)))
        (set_uuids (S (uuids w)) w)) by reflexivity.
  rewrite Hrun.
  apply (hoare_try_except (fun w0 => openai_posts w0 = openai_posts w) _ _
           (fun e' w1 => e' = e ∧ openai_posts w1 = (openai_posts w + S k)%nat)
           (fun r w1 => r = Raise e
                        ∧ openai_posts w1 = (openai_posts w + S k)%nat));
    [| |done].
  - unfold generate_text_try.
    eapply hoare_unit_step; [apply hoare_posts_create|].
    eapply hoare_unit_step; [apply hoare_posts__log_job|].
    eapply hoare_unit_step; [apply hoare_posts_update|].
    eapply hoare_unit_step; [apply hoare_posts_update|].
    eapply (hoare_bind _ _ _ (fun _ _ => False)); [|by intros ? ? []].
    intros w1 Hp.
    destruct (variation_loop_aborts request job_id e k
                (seq 0 (Z.to_nat
                          (TextGenerationRequest.variation_count request)))
                [] (openai_posts w)
                ltac:(by rewrite length_seq) Hok Herr w1 Hp) as [Hr Hp'].
    by rewrite Hr.
  - intros e' w1 [-> Hp]. rewrite fail_keeps_openai_posts.
    split; [|done].
    unfold bind. rewrite set_job_failed_run. cbv beta iota.
    by rewrite _log_job_run.
Qed.

End TextAbort.

(** X19. [generate_text] stops at the first request the completions
    endpoint does not answer with a 200 whose body carries the text of the
    first choice: when the first [k] answers are good and the next one is
    an error, with [k] below the number of variations asked for, the call
    raises that answer's exception (the transport error, the
    [OpenAI API error] built from an error body, or whatever reading an
    unreadable body raises), exactly [k + 1] requests have been made, the
    [k] completions already received are dropped and the job is left
    failed with the text of the exception. *)
Theorem generate_text_stops_at_first_provider_error (E : env)
    (request : TextGenerationRequest.t) (w : world) (k : nat) (e : exn) :
  (k < Z.to_nat (TextGenerationRequest.variation_count request))%nat →
  (∀ j, (j < k)%nat →
        provider_error (openai_post E (openai_posts w + j)) = None) →
  provider_error (openai_post E (openai_posts w + k)) = Some e →
  fst (generate_text E request w) = Raise e
  ∧ openai_posts (snd (generate_text E request w))
    = (openai_posts w + S k)%nat
  ∧ JobTracker.field (jobs (snd (generate_text E request w)))
      (uuid4 E (uuids w)) "status" = Some (VStr "failed")
  ∧ JobTracker.field (jobs (snd (generate_text E request w)))
      (uuid4 E (uuids w)) "error_message" = Some (VStr (str e)).
Proof.
  intros Hk Hok Herr.
  destruct (generate_text_aborts E request w k e Hk Hok Herr) as [Hr Hp].
  pose proof (generate_text_outcome E request w) as H.
  rewrite Hr in H. destruct H as [Hs He]. by split_and!.
Qed.

(** ** The confidence score *)

(** X20. The confidence score punishes length before anything else: a text
    longer than the request's [max_length] always scores strictly below a
    text that fits, whatever word-count bonus either of them earns; and
    every score lies between 0.6 and 0.96, so that the final clamp to
    [0, 1] never changes it. *)
Theorem overlong_text_scores_lower (request : TextGenerationRequest.t)
    (fits overlong : string) :
  (Z.of_nat (String.length fits)
   <= TextGenerationRequest.max_length request)%Z →
  (TextGenerationRequest.max_length request
   < Z.of_nat (String.length overlong))%Z →
  PrimFloat.ltb (_calculate_confidence_score overlong request)
    (_calculate_confidence_score fits request) = true
  ∧ PrimFloat.leb 0.6%float (_calculate_confidence_score overlong request)
    = true
  ∧ PrimFloat.leb (_calculate_confidence_score fits request) 0.96%float
    = true.
Proof.
  intros Hfits Hover.
  apply Z.leb_le in Hfits. apply Z.leb_gt in Hover.
  unfold _calculate_confidence_score. rewrite Hfits, Hover.
  repeat match goal with
         | |- context [if ?b then _ else _] => destruct b
         end;
    vm_compute; done.
Qed.

(** ** Text generation succeeds when the provider answers *)

Section TextSucceeds.

Context (E : env).

Lemma variation_loop_completes request job_id :
  ∀ indices acc posts,
    (∀ j, (j < length indices)%nat →
          provider_error (openai_post E (posts + j)) = None) →
    hoare (fun w => openai_posts w = posts)
      (variation_loop E request job_id indices acc)
      (fun r w => ∃ vs, r = Return vs).
Proof.
  induction indices as [|i indices IH]; intros acc posts Hok.
  - intros w _. by eexists.
  - simpl variation_loop.
    eapply (hoare_bind _ _ _ (fun _ w => openai_posts w = S posts)).
    { intros w Hp. unfold _generate_single_text. rewrite Hp.
      specialize (Hok 0%nat ltac:(simpl; lia)).
      replace (posts + 0)%nat with posts in Hok by lia.
      unfold provider_error in Hok.
      destruct (openai_post E posts) as [msg|code err content|code e0];
        [done| |done].
      by destruct (code =? 200)%Z. }
    intros variation_text. cbv zeta.
    eapply hoare_unit_step; [apply hoare_posts_update|].
    apply IH. intros j Hj.
    replace (S posts + j)%nat with (posts + S j)%nat by lia.
    apply Hok. simpl. lia.
Qed.

Lemma generate_text_completes request w :
  (∀ j, (j < Z.to_nat (TextGenerationRequest.variation_count request))%nat →
        provider_error (openai_post E (openai_posts w + j)) = None) →
  ∃ response, fst (generate_text E request w) = Return response.
Proof.
  intros Hok.
  set (job_id := uuid4 E (uuids w)).
  assert (Hrun :
    generate_text E request w
    = try_except (generate_text_try E request job_id)
        (fun e => bind (set_job_failed E job_id (str e))
                    (fun _ => bind (_log_job E) (fun _ => raise e)))
        (set_uuids (S (uuids w)) w)) by reflexivity.
  rewrite Hrun.
  apply (hoare_try_except (fun w0 => openai_posts w0 = openai_posts w) _ _
           (fun _ _ => False)
           (fun r _ => ∃ response, r = Return response));
    [|by intros ? ? []|done].
  unfold generate_text_try.
  eapply hoare_unit_step; [apply hoare_posts_create|].
  eapply hoare_unit_step; [apply hoare_posts__log_job|].
  eapply hoare_unit_step; [apply hoare_posts_update|].
  eapply hoare_unit_step; [apply hoare_posts_update|].
  eapply (hoare_bind _ _ _ (fun _ _ => True)).
  - intros w1 Hp.
    destruct (variation_loop_completes request job_id
                (seq 0 (Z.to_nat
                          (TextGenerationRequest.variation_count request)))
                [] (openai_posts w)
                ltac:(by rewrite length_seq) w1 Hp) as [vs Hvs].
    by rewrite Hvs.
  - intros vs. cbv zeta.
    eapply (hoare_unit_step _ (fun _ => True)).
    { intros w1 _. unfold set_job_completed. by rewrite update_job_run. }
    eapply (hoare_unit_step _ (fun _ => True)); [by intros w1 _|].
    intros w1 _. by eexists.
Qed.

End TextSucceeds.

(** X21. [generate_text] returns whenever the completions endpoint answers
    each of the [variation_count] requests it is about to make with a 200
    whose body carries the text of the first choice: the requests are the
    only steps of the call that can raise. *)
Theorem generate_text_returns_when_provider_answers (E : env)
    (request : TextGenerationRequest.t) (w : world) :
  (∀ j, (j < Z.to_nat (TextGenerationRequest.variation_count request))%nat →
        provider_error (openai_post E (openai_posts w + j)) = None) →
  ∃ response,
    fst (generate_text E request w) = Return response
    ∧ TextGenerationResponse.job_id response = uuid4 E (uuids w).
Proof.
  intros Hok. destruct (generate_text_completes E request w Hok) as [r Hr].
  exists r. split; [done|].
  pose proof (generate_text_outcome E request w) as H.
  rewrite Hr in H. by destruct H as (H & _).
Qed.

(** ** Fitting a text to a platform *)

Lemma platform_limit_request text platform format_type m :
  platform_limit platform format_type = Some m →
  TextGenerationRequest.well_formed
    (TextGenerationRequest.mk
       ("Optimize this " ++ format_type ++ " for " ++ platform ++ ": " ++ text)
       PROFESSIONAL None m 1 format_type) = true.
Proof.
  unfold platform_limit, platform_specs, format_limits,
    TextGenerationRequest.well_formed.
  cbn [TextGenerationRequest.max_length TextGenerationRequest.variation_count
       TextGenerationRequest.format_type].
  intros H.
  repeat match type of H with
         | context [String.eqb ?a ?b] =>
             destruct (String.eqb_spec a b); try subst format_type
         end;
    try discriminate; injection H as <-; vm_compute; reflexivity.
Qed.

Lemma optimize_for_platform_keeps E text platform format_type w :
  (∀ m, platform_limit platform format_type = Some m →
        (Z.of_nat (String.length text) <= m)%Z) →
  optimize_for_platform E text platform format_type w = (Return text, w).
Proof.
  unfold platform_limit, optimize_for_platform. intros H.
  destruct (platform_specs (lower platform)) as [specs|]; simpl.
  - destruct (specs format_type) as [m|]; simpl.
    + specialize (H m eq_refl). apply Z.leb_le in H. by rewrite H.
    + by rewrite Z.leb_refl.
  - by rewrite Z.leb_refl.
Qed.

Lemma optimize_for_platform_rewrites E text platform format_type w m :
  platform_limit platform format_type = Some m →
  (m < Z.of_nat (String.length text))%Z →
  openai_posts (snd (optimize_for_platform E text platform format_type w))
  = S (openai_posts w)
  ∧ fst (optimize_for_platform E text platform format_type w)
    = match provider_error (openai_post E (openai_posts w)) with
      | Some e => Raise e
      | None => Return (completion E (openai_posts w))
      end.
Proof.
  intros Hlimit Hlong.
  pose proof (platform_limit_request text platform format_type m Hlimit)
    as Hwf.
  unfold platform_limit in Hlimit. unfold optimize_for_platform.
  destruct (platform_specs (lower platform)) as [specs|]; [|done].
  cbv zeta. cbn [from_option id]. rewrite Hlimit. cbn [from_option id].
  apply Z.leb_gt in Hlong. rewrite Hlong. rewrite Hwf. cbn [negb].
  set (request := TextGenerationRequest.mk _ PROFESSIONAL None m 1 format_type).
  destruct (provider_error (openai_post E (openai_posts w))) as [e|] eqn:Herr.
  - destruct (generate_text_aborts E request w 0 e) as [Hr Hp].
    + simpl. lia.
    + intros j Hj. lia.
    + by rewrite Nat.add_0_r.
    + unfold bind. destruct (generate_text E request w) as [[resp|e'] w1].
      * discriminate.
      * simpl in *. split; [lia|congruence].
  - destruct (generate_text_completes E request w) as [resp Hr].
    { intros [|j] Hj; [by rewrite Nat.add_0_r|simpl in Hj; lia]. }
    pose proof (generate_text_returns E request w resp Hr) as Hv.
    pose proof (generate_text_outcome E request w) as Ho.
    rewrite Hr in Ho. destruct Ho as (_ & _ & Hp & _).
    simpl in Hv, Hp. rewrite Nat.add_0_r in Hv.
    unfold bind. destruct (generate_text E request w) as [[resp'|e'] w1].
    + simpl in *. injection Hr as ->. rewrite Hv. simpl. split; [lia|done].
    + discriminate.
Qed.

(** X22. [optimize_for_platform] leaves a text alone, and touches nothing,
    when the platform or the format is not in its table or the text is
    within the limit.  A longer text is replaced by whatever the
    completions endpoint answers to one request, stripped: the call makes
    exactly one request, raises that request's error if there is one, and
    never compares the answer with the limit or cuts it. *)
Theorem optimize_for_platform_answer (E : env)
    (text platform format_type : string) (w : world) :
  ((∀ m, platform_limit platform format_type = Some m →
         (Z.of_nat (String.length text) <= m)%Z) →
   optimize_for_platform E text platform format_type w = (Return text, w))
  ∧ (∀ m, platform_limit platform format_type = Some m →
          (m < Z.of_nat (String.length text))%Z →
          openai_posts
            (snd (optimize_for_platform E text platform format_type w))
          = S (openai_posts w)
          ∧ fst (optimize_for_platform E text platform format_type w)
            = match provider_error (openai_post E (openai_posts w)) with
              | Some e => Raise e
              | None => Return (completion E (openai_posts w))
              end).
Proof.
  split.
  - apply optimize_for_platform_keeps.
  - apply optimize_for_platform_rewrites.
Qed.

(** ** Translation *)

Section Translation.

Context (E : env).

Lemma translate_text_try_tracked answer request job_id :
  hoare (fun _ => True) (translate_text_try E (Some answer) request job_id)
    (fun r w => match r with
                | Return _ =>
                    translation_recorded request answer job_id r w
                | Raise _ => tracked job_id w
                end).
Proof.
  unfold translate_text_try.
  eapply hoare_step; [apply hoare_tracked_create|done|intros _].
  eapply hoare_step; [apply hoare_tracked__log_job|done|intros _].
  eapply hoare_step; [apply hoare_tracked_update|done|intros _].
  eapply hoare_step; [apply hoare_tracked_update|done|intros _].
  eapply (hoare_bind _ _ _
            (fun translations w =>
               tracked job_id w
               ∧ ∃ message, answer = DeepLResponse 200 message translations)).
  - intros w Hw. unfold deepl_post.
    destruct answer as [msg|code message translations|code e]; [done| |done].
    destruct (code =? 200)%Z eqn:Hcode; [|done].
    apply Z.eqb_eq in Hcode as ->. simpl. split; [done|by eexists].
  - intros [|first rest]; [by intros w [Hw _]|].
    eapply (hoare_bind _ _ _
              (fun _ w =>
                 tracked job_id w
                 ∧ ∃ message,
                     answer = DeepLResponse 200 message (first :: rest))).
    + intros w [Hw Ha]. unfold set_job_processing. rewrite update_job_run.
      simpl. split; [|done]. by apply tracked_after_update.
    + intros _ w [Hw [message Ha]].
      destruct (translation_text first) as [text|] eqn:Htext; [|done].
      cbv zeta.
      match goal with
      | |- context [ret ?resp] =>
          pose proof (hoare_complete E job_id text resp w Hw)
            as (Hr & Hs & Hp & Hu)
      end.
      rewrite Hr. simpl. split_and!; try done.
      by exists message, first, rest, text.
Qed.

Lemma translate_text_outcome answer request w :
  translation_recorded request answer (uuid4 E (uuids w))
    (fst (translate_text E (Some answer) request w))
    (snd (translate_text E (Some answer) request w)).
Proof.
  set (job_id := uuid4 E (uuids w)).
  assert (Hrun :
    translate_text E (Some answer) request w
    = try_except (translate_text_try E (Some answer) request job_id)
        (fun e => bind (set_job_failed E job_id (str e))
                    (fun _ => bind (_log_job E) (fun _ => raise e)))
        (set_uuids (S (uuids w)) w)) by reflexivity.
  rewrite Hrun.
  apply (hoare_try_except (fun _ => True) _ _ (fun _ => tracked job_id)
           (translation_recorded request answer job_id)); [| |done].
  - eapply hoare_weaken; [apply translate_text_try_tracked|done|].
    intros [resp|e] w1 H; exact H.
  - intros e. eapply hoare_weaken; [apply hoare_fail|done|].
    intros r w1 (-> & Hs & He). by split.
Qed.

Lemma translate_text_unconfigured_run request w :
  jobs w !! uuid4 E (uuids w) = None →
  fst (translate_text E None request w)
  = Raise (ValueError "DeepL API not configured")
  ∧ jobs (snd (translate_text E None request w)) = jobs w.
Proof.
  intros Hfresh.
  set (job_id := uuid4 E (uuids w)).
  assert (Hrun :
    translate_text E None request w
    = bind (set_job_failed E job_id "DeepL API not configured")
        (fun _ => bind (_log_job E)
                    (fun _ => raise (ValueError "DeepL API not configured")))
        (set_uuids (S (uuids w)) w)) by reflexivity.
  rewrite Hrun. unfold bind. rewrite set_job_failed_run. cbv beta iota.
  rewrite _log_job_run. unfold raise. cbn [fst snd]. split; [done|].
  rewrite jobs_set_clock_reads, after_update_jobs.
  by apply update_job_absent.
Qed.

End Translation.

(** X23. [translate_text] always leaves its outcome in the registry when a
    DeepL client is set up.  When it returns, the DeepL answer had status
    200 and at least one translation, the first one has a text, the
    response is built from it (its text, its detected source language or
    else the request's, the request's target language, a confidence of
    0.95) and the job is completed with that text as its result; when it
    raises, the job is failed with the text of the exception. *)
Theorem translate_text_records_its_outcome (E : env)
    (answer : deepl_outcome) (request : TranslationRequest.t) (w : world) :
  translation_recorded request answer (uuid4 E (uuids w))
    (fst (translate_text E (Some answer) request w))
    (snd (translate_text E (Some answer) request w)).
Proof. apply translate_text_outcome. Qed.

(** X24. Without a DeepL client [translate_text] raises the [ValueError]
    before it creates a job: the handler's [set_job_failed] then finds no
    record, and the registry is left exactly as it was, with no trace of
    the failed call.  The job id is fresh, as a new UUID is. *)
Theorem translate_text_unconfigured_leaves_no_record (E : env)
    (request : TranslationRequest.t) (w : world) :
  jobs w !! uuid4 E (uuids w) = None →
  fst (translate_text E None request w)
  = Raise (ValueError "DeepL API not configured")
  ∧ jobs (snd (translate_text E None request w)) = jobs w.
Proof. apply translate_text_unconfigured_run. Qed.

(** ** Upscaling *)

Section Upscaling.

Context (E : env).





End Upscaling.


(** ** The Redis cache *)

Section CacheFacts.

Import RedisCache.

Context (dumps : pyval → option string) (loads : string → option pyval)
  (glob : string → string → bool) (redis_int : string → option Z).

Lemma cache_result_run cache_ttl s key value ttl serialized :
  reachable s = true →
  dumps value = Some serialized →
  (0 < effective_ttl cache_ttl ttl)%Z →
  cache_result dumps cache_ttl (Some s) key value ttl
  = (true, Some {| reachable := true;
                   store := <[key := serialized]> (store s) |}).
Proof.
  intros Hs Hd Httl. unfold cache_result, redis_setex.
  fold (effective_ttl cache_ttl ttl). rewrite Hd, Hs.
  apply Z.ltb_lt in Httl. by rewrite Httl.
Qed.

Lemma get_cached_result_stored s key serialized value :
  reachable s = true →
  store s !! key = Some serialized →
  serialized ≠ "" →
  loads serialized = Some value →
  get_cached_result loads (Some s) key = value.
Proof.
  intros Hs Hk Hne Hl. unfold get_cached_result, redis_get.
  rewrite Hs, Hk. destruct (String.eqb_spec serialized ""); [done|].
  by rewrite Hl.
Qed.

Lemma get_cached_result_ext s s' key :
  reachable s = reachable s' →
  store s !! key = store s' !! key →
  get_cached_result loads (Some s) key = get_cached_result loads (Some s') key.
Proof.
  intros Hr Hk. unfold get_cached_result, redis_get. by rewrite Hr, Hk.
Qed.

Lemma cache_round_trip cache_ttl s key value ttl serialized :
  reachable s = true →
  dumps value = Some serialized →
  serialized ≠ "" →
  loads serialized = Some value →
  (0 < effective_ttl cache_ttl ttl)%Z →
  ∃ s',
    cache_result dumps cache_ttl (Some s) key value ttl = (true, Some s')
    ∧ get_cached_result loads (Some s') key = value
    ∧ ∀ other, other ≠ key →
        get_cached_result loads (Some s') other
        = get_cached_result loads (Some s) other.
Proof.
  intros Hs Hd Hne Hl Httl. eexists. split_and!.
  - by apply cache_result_run.
  - apply (get_cached_result_stored _ _ serialized); [done| |done|done].
    simpl. apply lookup_insert_eq.
  - intros other Hother. apply get_cached_result_ext; [by rewrite Hs|].
    simpl. by apply lookup_insert_ne.
Qed.

Lemma job_status_round_trip s job_id status ttl serialized :
  reachable s = true →
  dumps status = Some serialized →
  serialized ≠ "" →
  loads serialized = Some status →
  (0 < ttl)%Z →
  ∃ s',
    set_job_status dumps (Some s) job_id status ttl = (true, Some s')
    ∧ get_job_status loads (Some s') job_id = status
    ∧ get_cached_result loads (Some s') ("job:" ++ job_id) = status.
Proof.
  intros Hs Hd Hne Hl Httl. eexists. split_and!.
  - unfold set_job_status, redis_setex. rewrite Hd, Hs.
    apply Z.ltb_lt in Httl. by rewrite Httl.
  - unfold get_job_status, redis_get. cbn [reachable store].
    rewrite lookup_insert_eq.
    destruct (String.eqb_spec serialized ""); [done|]. by rewrite Hl.
  - apply (get_cached_result_stored _ _ serialized); [done| |done|done].
    cbn [store]. apply lookup_insert_eq.
Qed.

(** [DEL] key by key. *)
Lemma foldl_delete_one keys :
  ∀ n st,
    (∀ k, snd (foldl delete_one (n, st) keys) !! k
          = if decide (k ∈ keys) then None else st !! k)
    ∧ (size (snd (foldl delete_one (n, st) keys)) <= size st)%nat
    ∧ fst (foldl delete_one (n, st) keys)
      = (n + Z.of_nat (size st)
         - Z.of_nat (size (snd (foldl delete_one (n, st) keys))))%Z.
Proof.
  induction keys as [|key keys IH]; intros n st.
  - simpl. split_and!; [done|lia|lia].
  - simpl foldl. unfold delete_one at 2 4 6 8. cbn [fst snd].
    destruct (st !! key) as [v|] eqn:Hkey.
    + destruct (IH (n + 1)%Z (delete key st)) as (Hl & Hs & Hn).
      assert (Hsize : size st = S (size (delete key st))).
      { rewrite map_size_delete, Hkey.
        destruct (size st) eqn:Hz; [|done].
        apply map_size_empty_inv in Hz. subst st.
        by rewrite lookup_empty in Hkey. }
      split_and!; [|lia|rewrite Hn; lia].
      intros k. rewrite Hl.
      destruct (decide (k ∈ key :: keys)) as [Hin|Hnin].
      * apply elem_of_cons in Hin as [->|Hin].
        -- rewrite lookup_delete_eq. by destruct (decide (key ∈ keys)).
        -- by rewrite decide_True.
      * rewrite decide_False
          by (intros Hin; apply Hnin; by apply list_elem_of_further).
        apply lookup_delete_ne. intros <-. apply Hnin, list_elem_of_here.
    + destruct (IH n st) as (Hl & Hs & Hn).
      split_and!; [|done|done].
      intros k. rewrite Hl.
      destruct (decide (k ∈ key :: keys)) as [Hin|Hnin].
      * apply elem_of_cons in Hin as [->|Hin].
        -- rewrite Hkey. by destruct (decide (key ∈ keys)).
        -- by rewrite decide_True.
      * by rewrite decide_False
          by (intros Hin; apply Hnin; by apply list_elem_of_further).
Qed.

Lemma scanned_keys (st : gmap string string) pattern k :
  k ∈ List.filter (glob pattern) (map fst (map_to_list st))
  ↔ glob pattern k = true ∧ is_Some (st !! k).
Proof.
  rewrite list_elem_of_In, filter_In, in_map_iff. split.
  - intros [[[k' v] [Hk Hin]] Hg]. simpl in Hk. subst k'.
    split; [done|]. exists v.
    by apply elem_of_map_to_list, list_elem_of_In.
  - intros [Hg [v Hv]]. split; [|done]. exists (k, v). split; [done|].
    by apply list_elem_of_In, elem_of_map_to_list.
Qed.

Lemma clear_cache_pattern_run s pattern :
  reachable s = true →
  ∃ s',
    snd (clear_cache_pattern glob (Some s) pattern) = Some s'
    ∧ reachable s' = true
    ∧ (∀ k, store s' !! k
            = if glob pattern k then None else store s !! k)
    ∧ (size (store s') <= size (store s))%nat
    ∧ fst (clear_cache_pattern glob (Some s) pattern)
      = (Z.of_nat (size (store s)) - Z.of_nat (size (store s')))%Z.
Proof.
  intros Hs. unfold clear_cache_pattern, redis_scan_iter, redis_delete.
  rewrite Hs.
  pose proof (scanned_keys (store s) pattern) as Hkeys.
  destruct (List.filter (glob pattern) (map fst (map_to_list (store s))))
    as [|key keys] eqn:Hscan.
  - exists s. simpl. split_and!; [done|done| |lia|lia].
    intros k. destruct (glob pattern k) eqn:Hg; [|done].
    destruct (store s !! k) as [v|] eqn:Hk; [|done].
    exfalso. eapply not_elem_of_nil, Hkeys. split; [done|by eexists].
  - destruct (foldl_delete_one (key :: keys) 0%Z (store s))
      as (Hl & Hsz & Hn).
    destruct (foldl delete_one (0%Z, store s) (key :: keys)) as [n kept].
    simpl in *. eexists. split_and!; [done|done| |done|].
    + intros k. simpl. rewrite Hl.
      destruct (decide (k ∈ key :: keys)) as [Hin|Hnin].
      * apply Hkeys in Hin as [-> _]. done.
      * destruct (glob pattern k) eqn:Hg; [|done].
        destruct (store s !! k) as [v|] eqn:Hk; [|done].
        exfalso. apply Hnin, Hkeys. split; [done|by eexists].
    + simpl. lia.
Qed.

Lemma delete_cache_run s key :
  reachable s = true →
  delete_cache (Some s) key
  = (bool_decide (is_Some (store s !! key)),
     Some {| reachable := true; store := delete key (store s) |}).
Proof.
  intros Hs. unfold delete_cache, redis_delete. rewrite Hs.
  simpl foldl. unfold delete_one. cbn [fst snd].
  destruct (store s !! key) as [v|] eqn:Hk.
  - rewrite bool_decide_eq_true_2 by by eexists. done.
  - rewrite bool_decide_eq_false_2 by by intros [? ?].
    by rewrite delete_id.
Qed.

End CacheFacts.

(** X26. What the cache writes it reads back.  On a reachable server, for a
    value that [json.dumps] serialises to a string that [json.loads] reads
    back: [cache_result] with a positive expiry ([ttl], or
    [settings.cache_ttl] when [ttl] is missing or 0) returns [True], after
    which [get_cached_result] returns the value under that key and what it
    returned before under every other key; and [set_job_status] with a
    positive expiry returns [True], after which [get_job_status] returns
    the status, which [get_cached_result] also finds under
    ["job:" + job_id]. *)
Theorem cached_value_is_read_back (dumps : pyval → option string)
    (loads : string → option pyval) (cache_ttl : Z) (s : RedisCache.server)
    (value : pyval) (serialized : string) :
  RedisCache.reachable s = true →
  dumps value = Some serialized →
  serialized ≠ "" →
  loads serialized = Some value →
  (∀ key ttl,
     (0 < effective_ttl cache_ttl ttl)%Z →
     ∃ s',
       RedisCache.cache_result dumps cache_ttl (Some s) key value ttl
       = (true, Some s')
       ∧ RedisCache.get_cached_result loads (Some s') key = value
       ∧ ∀ other, other ≠ key →
           RedisCache.get_cached_result loads (Some s') other
           = RedisCache.get_cached_result loads (Some s) other)
  ∧ (∀ job_id ttl,
       (0 < ttl)%Z →
       ∃ s',
         RedisCache.set_job_status dumps (Some s) job_id value ttl
         = (true, Some s')
         ∧ RedisCache.get_job_status loads (Some s') job_id = value
         ∧ RedisCache.get_cached_result loads (Some s') ("job:" ++ job_id)
           = value).
Proof.
  intros Hs Hd Hne Hl. split.
  - intros key ttl Httl. by eapply cache_round_trip.
  - intros job_id ttl Httl. by eapply job_status_round_trip.
Qed.

(** X27. Without a working Redis every function of the module answers its
    fallback and raises nothing: when no client was set up, or the server
    does not answer, the writes return [False], the reads return [None],
    the counts return 0, and the client is left as it was.  The same holds
    for [cache_result] when the expiry it would send is not positive. *)
Theorem cache_falls_back_without_redis (dumps : pyval → option string)
    (loads : string → option pyval) (glob : string → string → bool)
    (redis_int : string → option Z) (cache_ttl : Z)
    (redis_client : option RedisCache.server) (key : string)
    (value : pyval) (ttl : option Z) (job_ttl amount : Z)
    (today : option string) (user_id feature : string) :
  (out_of_service redis_client
   ∨ (effective_ttl cache_ttl ttl <= 0)%Z) →
  RedisCache.cache_result dumps cache_ttl redis_client key value ttl
  = (false, redis_client)
  ∧ (out_of_service redis_client →
     RedisCache.get_cached_result loads redis_client key = VNone
     ∧ RedisCache.delete_cache redis_client key = (false, redis_client)
     ∧ RedisCache.clear_cache_pattern glob redis_client key
       = (0%Z, redis_client)
     ∧ RedisCache.set_job_status dumps redis_client key value job_ttl
       = (false, redis_client)
     ∧ RedisCache.get_job_status loads redis_client key = VNone
     ∧ RedisCache.increment_usage redis_int today redis_client user_id
         feature amount
       = (0%Z, redis_client)).
Proof.
  intros H. split.
  - unfold RedisCache.cache_result, RedisCache.redis_setex.
    fold (effective_ttl cache_ttl ttl).
    destruct redis_client as [s|]; [|done].
    destruct (dumps value); [|done].
    destruct H as [H|H].
    + simpl in H. by rewrite H.
    + apply Z.ltb_ge in H. rewrite H. by rewrite andb_false_r.
  - clear H. intros H. destruct redis_client as [s|]; [|done].
    simpl in H.
    unfold RedisCache.get_cached_result, RedisCache.delete_cache,
      RedisCache.clear_cache_pattern, RedisCache.set_job_status,
      RedisCache.get_job_status, RedisCache.increment_usage,
      RedisCache.redis_get, RedisCache.redis_delete,
      RedisCache.redis_scan_iter, RedisCache.redis_setex,
      RedisCache.redis_incrby.
    rewrite H. split_and!; try done.
    + by destruct (dumps value).
    + by destruct today.
Qed.

(** X28. On a reachable server [clear_cache_pattern] removes exactly the
    entries whose key matches the pattern: afterwards no matching key is
    stored, every other key holds what it held, and the number returned is
    the number of entries removed. *)
Theorem clear_cache_pattern_removes_the_matches
    (glob : string → string → bool) (s : RedisCache.server)
    (pattern : string) :
  RedisCache.reachable s = true →
  ∃ s',
    snd (RedisCache.clear_cache_pattern glob (Some s) pattern) = Some s'
    ∧ RedisCache.reachable s' = true
    ∧ (∀ k, RedisCache.store s' !! k
            = if glob pattern k then None else RedisCache.store s !! k)
    ∧ (size (RedisCache.store s') <= size (RedisCache.store s))%nat
    ∧ fst (RedisCache.clear_cache_pattern glob (Some s) pattern)
      = (Z.of_nat (size (RedisCache.store s))
         - Z.of_nat (size (RedisCache.store s')))%Z.
Proof. apply clear_cache_pattern_run. Qed.

(** X29. As the module is written [increment_usage] counts nothing: the
    name [datetime] is not imported, the [NameError] is caught, and for
    every client, user, feature and amount the call returns 0 without
    sending a command.  With the name bound, the same call on a reachable
    server whose counter is absent would store and return [amount]. *)
Theorem increment_usage_counts_nothing (redis_int : string → option Z)
    (redis_client : option RedisCache.server) (user_id feature : string)
    (amount : Z) :
  RedisCache.increment_usage redis_int RedisCache.today_as_written
    redis_client user_id feature amount
  = (0%Z, redis_client)
  ∧ ∀ day s,
      let key := "usage:" ++ user_id ++ ":" ++ feature ++ ":" ++ day in
      redis_client = Some s →
      RedisCache.reachable s = true →
      RedisCache.store s !! key = None →
      RedisCache.increment_usage redis_int (Some day) redis_client user_id
        feature amount
      = (amount,
         Some {| RedisCache.reachable := true;
                 RedisCache.store :=
                   <[key := pretty amount]> (RedisCache.store s) |}).
Proof.
  split.
  - unfold RedisCache.increment_usage, RedisCache.today_as_written.
    by destruct redis_client.
  - intros day s key -> Hs Hk.
    unfold RedisCache.increment_usage, RedisCache.redis_incrby,
      RedisCache.redis_expire.
    fold key. rewrite Hs, Hk. done.
Qed.

(** X30. On a reachable server [delete_cache] answers whether the key was
    stored, and afterwards [get_cached_result] finds nothing under that
    key and what it found before under every other key. *)
Theorem delete_cache_forgets_the_key (loads : string → option pyval)
    (s : RedisCache.server) (key : string) :
  RedisCache.reachable s = true →
  ∃ s',
    RedisCache.delete_cache (Some s) key
    = (bool_decide (is_Some (RedisCache.store s !! key)), Some s')
    ∧ RedisCache.get_cached_result loads (Some s') key = VNone
    ∧ ∀ other, other ≠ key →
        RedisCache.get_cached_result loads (Some s') other
        = RedisCache.get_cached_result loads (Some s) other.
Proof.
  intros Hs. eexists. split_and!.
  - by apply delete_cache_run.
  - unfold RedisCache.get_cached_result, RedisCache.redis_get.
    cbn [RedisCache.reachable RedisCache.store].
    by rewrite lookup_delete_eq.
  - intros other Hother. apply get_cached_result_ext; [by rewrite Hs|].
    cbn [RedisCache.store]. by apply lookup_delete_ne.
Qed.

(** * The further properties on concrete runs *)

Lemma setters_touch_one_record_witness :
  created_id (SetJobFailed "job-1" "Generation failed: OOM"
                "2025-01-01T00:01:00") = None
  ∧ dom (apply_call demo_jobs
           (SetJobFailed "job-1" "Generation failed: OOM"
              "2025-01-01T00:01:00")) = dom demo_jobs.
Proof.
  split; [reflexivity|].
  pose proof (setters_touch_one_record demo_jobs
                (SetJobFailed "job-1" "Generation failed: OOM"
                   "2025-01-01T00:01:00") eq_refl) as [H _].
  exact H.
Defined.

Lemma setters_keep_the_other_fields_witness :
  demo_jobs !! "job-1" = Some demo_record
  ∧ JobTracker.field
      (JobTracker.set_job_failed demo_jobs "job-1" "Generation failed: OOM"
         "2025-01-01T00:01:00") "job-1" "progress"
    = demo_record !! "progress".
Proof.
  assert (Hrec : demo_jobs !! "job-1" = Some demo_record)
    by apply lookup_insert_eq.
  split; [exact Hrec|].
  pose proof (setters_keep_the_other_fields demo_jobs "job-1" demo_record
                10%float "https://replicate.delivery/out-0.png"
                "Generation failed: OOM" "2025-01-01T00:01:00" Hrec) as H.
  cbv zeta in H. destruct H as [(H & _) _]. exact H.
Defined.

Lemma tracker_records_well_formed_witness :
  JobTracker.get_job (run_calls demo_calls) "job-1"
  = Some demo_completed_record
  ∧ record_ok "job-1" demo_completed_record.
Proof.
  assert (Hget :
    JobTracker.get_job (run_calls demo_calls) "job-1"
    = Some demo_completed_record) by (vm_compute; reflexivity).
  split; [exact Hget|].
  exact (tracker_records_well_formed demo_calls "job-1" demo_completed_record
           Hget).
Defined.

Lemma limiter_identifiers_are_independent_witness :
  "10.0.0.2" ≠ "10.0.0.1"
  ∧ RateLimiter.recorded
      (snd (RateLimiter.check_all full_limiter "10.0.0.1"
              [1000%float; 1001%float]))
      "10.0.0.2"
    = RateLimiter.recorded full_limiter "10.0.0.2".
Proof.
  assert (Hne : "10.0.0.2" ≠ "10.0.0.1") by discriminate.
  split; [exact Hne|].
  pose proof (limiter_identifiers_are_independent full_limiter "10.0.0.1"
                "10.0.0.2" [1000%float; 1001%float] 1002%float Hne) as H.
  cbv zeta in H. destruct H as (H & _). exact H.
Defined.

Lemma limiter_without_quota_rejects_witness :
  (RateLimiter.max_requests (RateLimiter.init 0 60) ≤ 0)%Z
  ∧ fst (RateLimiter.check_all (RateLimiter.init 0 60) "10.0.0.1"
           [1000%float; 2000%float])
    = repeat false (length [1000%float; 2000%float]).
Proof.
  assert (Hmax : (RateLimiter.max_requests (RateLimiter.init 0 60) ≤ 0)%Z)
    by (simpl; lia).
  split; [exact Hmax|].
  exact (limiter_without_quota_rejects (RateLimiter.init 0 60) "10.0.0.1"
           [1000%float; 2000%float] Hmax).
Defined.

Lemma poll_raises_on_failed_prediction_witness :
  let E := demo_env 2048 (flaky_then "failed") in
  let w := demo_world demo_jobs (RateLimiter.init 60 60) in
  (3 < max_retries)%nat
  ∧ fst (_poll_prediction E "prediction-1" "job-1" w)
    = Raise (Exception "Generation failed: CUDA out of memory")
  ∧ http_gets (snd (_poll_prediction E "prediction-1" "job-1" w))
    = (http_gets w + (3 + 1))%nat.
Proof.
  intros E w.
  assert (Hk : (3 < max_retries)%nat) by (unfold max_retries; lia).
  assert (Hnon : ∀ i, (i < 3)%nat →
            nonterminal (replicate_get E (http_gets w + i)) = true).
  { intros i Hi. destruct i as [|[|[|i]]]; [reflexivity..|lia]. }
  pose proof (poll_raises_on_failed_prediction E w "prediction-1" "job-1" 3
                {| status := "failed";
                   output := Some ["https://replicate.delivery/out-0.png"];
                   error := Some (Some "CUDA out of memory") |}
                Hk Hnon eq_refl eq_refl) as H.
  cbv zeta in H. destruct H as (H1 & H2 & _).
  split_and!; [exact Hk|exact H1|exact H2].
Defined.

Lemma poll_survives_transient_errors_witness :
  let E := demo_env 2048 (flaky_then "succeeded") in
  let w := demo_world demo_jobs (RateLimiter.init 60 60) in
  (3 < max_retries)%nat
  ∧ is_Some (jobs w !! "job-1")
  ∧ fst (_poll_prediction E "prediction-1" "job-1" w)
    = Return ["https://replicate.delivery/out-0.png"]
  ∧ JobTracker.field (jobs (snd (_poll_prediction E "prediction-1" "job-1" w)))
      "job-1" "progress" = Some (VFloat 100%float).
Proof.
  intros E w.
  assert (Hk : (3 < max_retries)%nat) by (unfold max_retries; lia).
  assert (Hjob : is_Some (jobs w !! "job-1"))
    by (exists demo_record; apply lookup_insert_eq).
  assert (Hnon : ∀ i, (i < 3)%nat →
            nonterminal (replicate_get E (http_gets w + i)) = true).
  { intros i Hi. destruct i as [|[|[|i]]]; [reflexivity..|lia]. }
  pose proof (poll_survives_transient_errors E w "prediction-1" "job-1" 3
                {| status := "succeeded";
                   output := Some ["https://replicate.delivery/out-0.png"];
                   error := Some (Some "CUDA out of memory") |}
                Hk Hjob Hnon eq_refl eq_refl) as H.
  cbv zeta in H. destruct H as (H1 & _ & H3 & _).
  split_and!; [exact Hk|exact Hjob|exact H1|exact H3].
Defined.

Lemma poll_writes_linear_estimate_witness :
  let E := demo_env 2048 (flaky_then "failed") in
  let w := demo_world demo_jobs (RateLimiter.init 60 60) in
  JobTracker.field (jobs (snd (_poll_prediction E "prediction-1" "job-1" w)))
    "job-1" "progress" = Some (VFloat 51.5%float)
  ∧ JobTracker.field (jobs (snd (_poll_prediction E "prediction-1" "job-1" w)))
      "job-1" "status" = Some (VStr "processing")
  ∧ http_gets (snd (_poll_prediction E "prediction-1" "job-1" w)) = 4%nat.
Proof.
  intros E w.
  assert (Hm : (2 < 3 ≤ max_retries)%nat) by (unfold max_retries; lia).
  assert (Hjob : is_Some (jobs w !! "job-1"))
    by (exists demo_record; apply demo_record_present).
  assert (Hnon : ∀ i, (i < 2)%nat →
            nonterminal (replicate_get E (http_gets w + i)) = true)
    by (intros [|[|i]] Hi; [reflexivity|reflexivity|lia]).
  assert (Hin : in_progress (replicate_get E (http_gets w + 2)) = true)
    by reflexivity.
  assert (Hquiet : ∀ i, (2 < i < 3)%nat →
            quiet (replicate_get E (http_gets w + i)) = true)
    by (intros i Hi; lia).
  assert (Hend : (3 < max_retries)%nat →
            ∃ p, replicate_get E (http_gets w + 3) = GetJSON p
                 ∧ status p = "failed")
    by (intros _; eexists; split; reflexivity).
  pose proof (poll_writes_linear_estimate E w "prediction-1" "job-1" 2 3
                Hm Hjob Hnon Hin Hquiet Hend) as H.
  cbv zeta in H. destruct H as (Hp & Hs & _).
  split_and!; [exact Hp|exact Hs|vm_compute; reflexivity].
Defined.


Lemma generate_images_records_every_failure_witness :
  let E := demo_env 2048 (flaky_then "failed") in
  let w := demo_world ∅ (RateLimiter.init 60 60) in
  fst (generate_images E styled_service square_request w)
  = Raise (Exception "Generation failed: CUDA out of memory")
  ∧ JobTracker.field
      (jobs (snd (generate_images E styled_service square_request w)))
      (uuid4 E (uuids w)) "error_message"
    = Some (VStr (str (Exception "Generation failed: CUDA out of memory"))).
Proof.
  intros E w.
  assert (Hr :
    fst (generate_images E styled_service square_request w)
    = Raise (Exception "Generation failed: CUDA out of memory"))
    by (vm_compute; reflexivity).
  pose proof (generate_images_records_every_failure E styled_service
                square_request w _ Hr) as H.
  cbv zeta in H. destruct H as (_ & H).
  split; [exact Hr|exact H].
Defined.

Lemma generate_images_completes_its_job_witness :
  let E := demo_env 2048 (processing_then_succeeded 0) in
  let w := demo_world ∅ (RateLimiter.init 60 60) in
  fst (generate_images E styled_service square_request w)
  = Return square_response
  ∧ JobTracker.field
      (jobs (snd (generate_images E styled_service square_request w)))
      (uuid4 E (uuids w)) "status" = Some (VStr "completed").
Proof.
  intros E w.
  assert (Hr :
    fst (generate_images E styled_service square_request w)
    = Return square_response) by (vm_compute; reflexivity).
  pose proof (generate_images_completes_its_job E styled_service
                square_request w square_response Hr) as H.
  cbv zeta in H. destruct H as (_ & H & _).
  split; [exact Hr|exact H].
Defined.

Lemma generate_text_stops_at_first_provider_error_witness :
  let w := demo_world ∅ (RateLimiter.init 60 60) in
  let e := Exception "OpenAI API error: quota exceeded" in
  fst (generate_text quota_env short_copy_request w) = Raise e
  ∧ openai_posts (snd (generate_text quota_env short_copy_request w)) = 2%nat
  ∧ JobTracker.field
      (jobs (snd (generate_text quota_env short_copy_request w)))
      (uuid4 quota_env (uuids w)) "status" = Some (VStr "failed").
Proof.
  intros w e.
  assert (Hk : (1 < Z.to_nat (TextGenerationRequest.variation_count
                               short_copy_request))%nat)
    by (vm_compute; lia).
  assert (Hok : ∀ j, (j < 1)%nat →
            provider_error (openai_post quota_env (openai_posts w + j))
            = None)
    by (intros [|j] Hj; [reflexivity|lia]).
  assert (Herr : provider_error (openai_post quota_env (openai_posts w + 1))
                 = Some e) by reflexivity.
  pose proof (generate_text_stops_at_first_provider_error quota_env
                short_copy_request w 1 e Hk Hok Herr) as H.
  destruct H as (Hr & Hp & Hs & _).
  split_and!; [exact Hr|exact Hp|exact Hs].
Defined.

Lemma overlong_text_scores_lower_witness :
  PrimFloat.ltb
    (_calculate_confidence_score
       "A design studio for everyone who has ever wanted one"
       short_copy_request)
    (_calculate_confidence_score "Design, made simple" short_copy_request)
  = true.
Proof.
  assert (Hfits : (Z.of_nat (String.length "Design, made simple")
                   <= TextGenerationRequest.max_length short_copy_request)%Z)
    by (vm_compute; discriminate).
  assert (Hover : (TextGenerationRequest.max_length short_copy_request
                   < Z.of_nat (String.length
                        "A design studio for everyone who has ever wanted one"))%Z)
    by (vm_compute; reflexivity).
  destruct (overlong_text_scores_lower short_copy_request _ _ Hfits Hover)
    as (H & _).
  exact H.
Defined.

Lemma optimize_for_platform_answer_witness :
  let E := demo_env 2048 always_processing in
  let w := demo_world ∅ (RateLimiter.init 60 60) in
  let text := "A design studio for everyone who has ever wanted one" in
  fst (optimize_for_platform E text "Google" "headline" w)
  = Return (completion E 0)
  ∧ (30 < Z.of_nat (String.length (completion E 0)))%Z.
Proof.
  intros E w text.
  assert (Hlimit : platform_limit "Google" "headline" = Some 30%Z)
    by reflexivity.
  assert (Hlong : (30 < Z.of_nat (String.length text))%Z)
    by (vm_compute; reflexivity).
  destruct (optimize_for_platform_answer E text "Google" "headline" w)
    as [_ H].
  destruct (H 30%Z Hlimit Hlong) as [_ Hr].
  split; [exact Hr|vm_compute; reflexivity].
Defined.

Lemma generate_text_returns_when_provider_answers_witness :
  let E := demo_env 2048 always_processing in
  let w := demo_world ∅ (RateLimiter.init 60 60) in
  ∃ response,
    fst (generate_text E short_copy_request w) = Return response
    ∧ TextGenerationResponse.job_id response = uuid4 E (uuids w).
Proof.
  intros E w.
  assert (Hok : ∀ j,
            (j < Z.to_nat (TextGenerationRequest.variation_count
                             short_copy_request))%nat →
            provider_error (openai_post E (openai_posts w + j)) = None)
    by (intros j _; reflexivity).
  exact (generate_text_returns_when_provider_answers E short_copy_request w
           Hok).
Defined.

Lemma translate_text_unconfigured_leaves_no_record_witness :
  let E := demo_env 2048 always_processing in
  let w := demo_world demo_jobs (RateLimiter.init 60 60) in
  fst (translate_text E None greeting_request w)
  = Raise (ValueError "DeepL API not configured")
  ∧ jobs (snd (translate_text E None greeting_request w)) = demo_jobs.
Proof.
  intros E w.
  assert (Hfresh : jobs w !! uuid4 E (uuids w) = None)
    by (vm_compute; reflexivity).
  exact (translate_text_unconfigured_leaves_no_record E greeting_request w
           Hfresh).
Defined.

Lemma cached_value_is_read_back_witness :
  ∃ s',
    RedisCache.cache_result demo_dumps 300 (Some demo_server) "result:xyz"
      (VInt 7) None
    = (true, Some s')
    ∧ RedisCache.get_cached_result demo_loads (Some s') "result:xyz"
      = VInt 7.
Proof.
  assert (Hs : RedisCache.reachable demo_server = true) by reflexivity.
  assert (Hd : demo_dumps (VInt 7) = Some "7") by (vm_compute; reflexivity).
  assert (Hne : "7" ≠ "") by discriminate.
  assert (Hl : demo_loads "7" = Some (VInt 7)) by (vm_compute; reflexivity).
  assert (Httl : (0 < effective_ttl 300 None)%Z) by (vm_compute; reflexivity).
  destruct (cached_value_is_read_back demo_dumps demo_loads 300 demo_server
              (VInt 7) "7" Hs Hd Hne Hl) as [H _].
  destruct (H "result:xyz" None Httl) as (s' & Hr & Hg & _).
  exists s'. split; [exact Hr|exact Hg].
Defined.

Lemma cache_falls_back_without_redis_witness :
  RedisCache.cache_result demo_dumps 300 None "result:xyz" (VInt 7) None
  = (false, None)
  ∧ RedisCache.cache_result demo_dumps 300 (Some demo_server) "result:xyz"
      (VInt 7) (Some (-5)%Z)
    = (false, Some demo_server).
Proof.
  assert (Hout : out_of_service None) by exact I.
  assert (Httl : (effective_ttl 300 (Some (-5)%Z) <= 0)%Z)
    by (vm_compute; discriminate).
  destruct (cache_falls_back_without_redis demo_dumps demo_loads demo_glob
              Cache.int_of_str 300 None "result:xyz" (VInt 7) None 60 1
              None "u1" "images" (or_introl Hout)) as [H1 _].
  destruct (cache_falls_back_without_redis demo_dumps demo_loads demo_glob
              Cache.int_of_str 300 (Some demo_server) "result:xyz" (VInt 7)
              (Some (-5)%Z) 60 1 None "u1" "images" (or_intror Httl))
    as [H2 _].
  split; [exact H1|exact H2].
Defined.

Lemma clear_cache_pattern_removes_the_matches_witness :
  ∃ s',
    snd (RedisCache.clear_cache_pattern demo_glob (Some demo_server)
           "usage:*") = Some s'
    ∧ RedisCache.store s' !! "usage:u1:images:20250101" = None
    ∧ RedisCache.store s' !! "result:abc" = Some "42"
    ∧ fst (RedisCache.clear_cache_pattern demo_glob (Some demo_server)
             "usage:*") = 1%Z.
Proof.
  assert (Hs : RedisCache.reachable demo_server = true) by reflexivity.
  destruct (clear_cache_pattern_removes_the_matches demo_glob demo_server
              "usage:*" Hs) as (s' & Hr & _ & Hk & _ & _).
  exists s'. split_and!.
  - exact Hr.
  - exact (Hk "usage:u1:images:20250101").
  - rewrite (Hk "result:abc"). vm_compute. reflexivity.
  - vm_compute. reflexivity.
Defined.

Lemma delete_cache_forgets_the_key_witness :
  ∃ s',
    RedisCache.delete_cache (Some demo_server) "result:abc"
    = (bool_decide (is_Some (RedisCache.store demo_server !! "result:abc")),
       Some s')
    ∧ RedisCache.get_cached_result demo_loads (Some s') "result:abc" = VNone.
Proof.
  assert (Hs : RedisCache.reachable demo_server = true) by reflexivity.
  destruct (delete_cache_forgets_the_key demo_loads demo_server "result:abc"
              Hs) as (s' & Hr & Hg & _).
  exists s'. split; [exact Hr|exact Hg].
Defined.
